(** * Semantic-space visualizer: layout, expansion, connectivity and assembly

    A shallow embedding of the particle visualizer's core:
    - [SpaceGenerator]: the LLM-facing parsers and the spring-force
      layout [projectTo3D] of [space_generator.js];
    - [Double], [Layout]: the range of doubles, and the layout again
      on numbers that can be [NaN] or an infinity;
    - [Fibonacci]: the satellite expansion of [quantum-assembly.js];
    - [Connectivity]: the candidate-connection computation;
    - [Controller]: the assembly state machine, its decay and its
      event handlers;
    - [Generation]: the distance matrix and [generateSpace] of
      [space_generator.js];
    - [Topology]: the topology analysis, the concept clusters and the
      word lists of the response;
    - [Labels], [VoidLayer], [Phases]: the label opacity, the attraction
      particles and the frames of the forward phases.

    JavaScript numbers are modelled as real numbers: rounding and overflow
    of IEEE doubles are outside the model.  The only way arithmetic on
    reals leaves the finite numbers is a division by zero, which the
    embedding makes explicit ([Js.NotFinite]); the range of doubles is
    modelled where a property is about it ([Double], [Layout]).  Calls of
    [Math.random()] read an explicit sequence of draws: the values that
    the calls of the loops modelled here receive, in their order.  The
    wave field and the rendering library draw from the same generator;
    their calls are not counted. *)

From Stdlib Require Import Reals Lra Lia List Bool Arith ZArith NArith String
  Ascii DecimalString Sorted Permutation.
Import ListNotations.
Open Scope R_scope.

(** ** JavaScript number idioms *)

Module Js.

(** [v || d] on a number [v]: zero is falsy. *)
Definition or_default (v d : R) : R :=
  if Req_dec_T v 0 then d else v.

Definition ltb (a b : R) : bool := if Rlt_dec a b then true else false.
Definition leb (a b : R) : bool := if Rle_dec a b then true else false.

(** A number as [parseFloat] returns it. *)
Inductive number : Type :=
| NaN
| PlusInfinity
| MinusInfinity
| Finite (r : R).

(** [!isNaN(n) && n >= lo && n <= hi] *)
Definition inRange (lo hi : R) (n : number) : bool :=
  match n with
  | Finite r => leb lo r && leb r hi
  | _ => false
  end.

(** Strings are sequences of code units below 256.  A JavaScript string
    whose code units are all below 128 is the same sequence, and on such
    strings [split], [trim], [toLowerCase], [length] and the class [\s]
    are the functions below; on other strings the source's functions
    know more white space and more letters. *)
Fixpoint split (sep : ascii) (s : string) : list string :=
  match s with
  | EmptyString => [EmptyString]
  | String c tl =>
      if Ascii.eqb c sep then EmptyString :: split sep tl
      else match split sep tl with
           | [] => [String c EmptyString]
           | w :: ws => String c w :: ws
           end
  end.

Definition isSpace (c : ascii) : bool :=
  let n := nat_of_ascii c in
  ((9 <=? n) && (n <=? 13) || (n =? 32))%nat.

Fixpoint trimStart (s : string) : string :=
  match s with
  | EmptyString => EmptyString
  | String c tl => if isSpace c then trimStart tl else s
  end.

Fixpoint trimEnd (s : string) : string :=
  match s with
  | EmptyString => EmptyString
  | String c tl =>
      match trimEnd tl with
      | EmptyString => if isSpace c then EmptyString else String c EmptyString
      | r => String c r
      end
  end.

Definition trim (s : string) : string := trimEnd (trimStart s).

Definition lowerChar (c : ascii) : ascii :=
  let n := nat_of_ascii c in
  if ((65 <=? n) && (n <=? 90))%nat then ascii_of_nat (n + 32) else c.

Fixpoint toLowerCase (s : string) : string :=
  match s with
  | EmptyString => EmptyString
  | String c tl => String (lowerChar c) (toLowerCase tl)
  end.

Fixpoint allChars (p : ascii -> bool) (s : string) : bool :=
  match s with
  | EmptyString => true
  | String c tl => p c && allChars p tl
  end.

(** Every code unit is below 128. *)
Definition isAscii (s : string) : bool :=
  allChars (fun c => (nat_of_ascii c <? 128)%nat) s.

(** [arr.join(sep)] *)
Fixpoint join (sep : string) (arr : list string) : string :=
  match arr with
  | [] => EmptyString
  | [a] => a
  | a :: tl => (a ++ sep ++ join sep tl)%string
  end.

(** The decimal digits of an array index. *)
Definition showNat (n : nat) : string := NilEmpty.string_of_uint (Nat.to_uint n).

(** What a numeric routine can end in: a value, a number that is no longer
    finite ([NaN] or an infinity, which no later step of the layout turns
    back into a finite number), or a [TypeError] from a property read on
    [undefined]. *)
Inductive result (A : Type) : Type :=
| Ok (a : A)
| NotFinite
| TypeError.

Arguments Ok {A} a.
Arguments NotFinite {A}.
Arguments TypeError {A}.

Definition bind {A B : Type} (c : result A) (f : A -> result B) : result B :=
  match c with
  | Ok a => f a
  | NotFinite => NotFinite
  | TypeError => TypeError
  end.

Notation "v <- c ;; f" := (bind c (fun v => f))
  (at level 61, c at next level, right associativity).

(** Two runs end the same way, with values related by [Rel]. *)
Definition agree {A B : Type} (Rel : A -> B -> Prop)
  (r1 : result A) (r2 : result B) : Prop :=
  match r1, r2 with
  | Ok a, Ok b => Rel a b
  | NotFinite, NotFinite => True
  | TypeError, TypeError => True
  | _, _ => False
  end.

(** [a / b]: the quotient by zero is [NaN] or an infinity. *)
Definition div (a b : R) : result R :=
  if Req_dec_T b 0 then NotFinite else Ok (a / b).

(** [arr[i]] followed by a property access: on [undefined] it throws. *)
Definition at_ {A : Type} (arr : list A) (i : nat) : result A :=
  match nth_error arr i with
  | Some a => Ok a
  | None => TypeError
  end.

Fixpoint set_nth {A : Type} (arr : list A) (i : nat) (v : A) : list A :=
  match arr, i with
  | [], _ => []
  | _ :: tl, O => v :: tl
  | a :: tl, S i' => a :: set_nth tl i' v
  end.

(** In-place update of the object [arr[i]]. *)
Definition modify {A : Type} (arr : list A) (i : nat) (f : A -> A)
  : result (list A) :=
  a <- at_ arr i ;; Ok (set_nth arr i (f a)).

(** [for (let i = lo; i < lo + cnt; i++) s = body(i, s)] *)
Fixpoint for_range {S : Type} (lo cnt : nat) (body : nat -> S -> result S)
  (s : S) : result S :=
  match cnt with
  | O => Ok s
  | Datatypes.S cnt' => s' <- body lo s ;; for_range (Datatypes.S lo) cnt' body s'
  end.

End Js.

(** ** Three-dimensional vectors ([{x, y, z}] objects and [THREE.Vector3]) *)

Module V3.

Record t : Type := mk { x : R; y : R; z : R }.

Definition zero : t := mk 0 0 0.
Definition add (a b : t) : t := mk (x a + x b) (y a + y b) (z a + z b).
Definition sub (a b : t) : t := mk (x a - x b) (y a - y b) (z a - z b).
Definition multiplyScalar (a : t) (s : R) : t := mk (x a * s) (y a * s) (z a * s).
Definition divideScalar (a : t) (s : R) : t := mk (x a / s) (y a / s) (z a / s).

Definition distanceToSquared (a b : t) : R :=
  let dx := x a - x b in
  let dy := y a - y b in
  let dz := z a - z b in
  dx * dx + dy * dy + dz * dz.

Definition distanceTo (a b : t) : R := sqrt (distanceToSquared a b).

(** [a.lerp(b, alpha)] *)
Definition lerp (a b : t) (alpha : R) : t :=
  mk (x a + (x b - x a) * alpha)
     (y a + (y b - y a) * alpha)
     (z a + (z b - z a) * alpha).

Definition sum (l : list t) : t := fold_right add zero l.


End V3.

(** ** space_generator.js: [SemanticSpaceGenerator]

    The provider calls and the layout.  [buildDistanceMatrix], which
    samples neighbours through a sort with a random comparator, and
    [generateSpace] follow in [Generation]; the simple mode, which is
    switched off, is not part of this development. *)

Module SpaceGenerator.

Import Js.

(** *** The provider calls

    [queryGroq] returns the completion or [null] ([None]); [parseFloat]
    is the built-in. *)

Section Provider.

Variable queryGroq : string -> option string.
Variable parseFloat : string -> number.

(** [!response]: [null] and the empty string are falsy. *)
Definition failed (response : option string) : bool :=
  match response with
  | None => true
  | Some text => String.eqb text EmptyString
  end.

Definition newline : string := String (ascii_of_nat 10) EmptyString.

(** [items.map((n, i) => `${i + 1}. ${n}`).join('\n')] *)
Fixpoint numberedFrom (i : nat) (items : list string) : list string :=
  match items with
  | [] => []
  | n :: tl => (showNat (i + 1) ++ ". " ++ n)%string :: numberedFrom (S i) tl
  end.

Definition numbered (items : list string) : string :=
  join newline (numberedFrom 0 items).

Definition coreWordsPrompt (question : string) : string :=
  ("List 30 words related to: " ++ question ++ newline ++ newline ++
   "Reply with ONLY the words, comma-separated, no explanations." ++ newline ++
   "Example: consciousness, awareness, mind, thought, perception, cognition, sentience, intelligence, experience, qualia, attention, memory, self, identity, understanding" ++
   newline ++ newline ++ "30 words:")%string.

(** [/^[a-z\s-]+$/] *)
Definition wordChars (w : string) : bool :=
  negb (String.eqb w EmptyString) &&
  allChars (fun c =>
              let n := nat_of_ascii c in
              ((97 <=? n) && (n <=? 122))%nat || isSpace c || (n =? 45)%nat) w.

(** Phase 1; [inl] is the thrown [Error] with its message. *)
Definition generateCoreWords (question : string) : string + list string :=
  let response := queryGroq (coreWordsPrompt question) in
  match response with
  | None => inl "Failed to generate words from LLM"%string
  | Some text =>
      if failed response then inl "Failed to generate words from LLM"%string
      else
        inr (firstn 30
               (filter wordChars
                  (filter (fun w => (2 <? String.length w)%nat &&
                                    (String.length w <? 25)%nat)
                     (map trim (split ","%char (toLowerCase text))))))
  end.

(** The loop [while (numbers.length < n) numbers.push(d)]. *)
Definition padTo (n : nat) (d : number) (numbers : list number) : list number :=
  numbers ++ repeat d (n - List.length numbers).

Definition parseLines (lo hi : R) (text : string) : list number :=
  filter (inRange lo hi)
    (map (fun line => parseFloat (trim line)) (split (ascii_of_nat 10) text)).

Definition similarityPrompt (word : string) (neighbors : list string) : string :=
  ("Rate similarity of " ++ String (ascii_of_nat 34) EmptyString ++ word ++
   String (ascii_of_nat 34) EmptyString ++ " to each word (0.0-1.0):" ++ newline ++
   numbered neighbors ++ newline ++ newline ++
   "Reply with only numbers, one per line:")%string.

Definition batchSimilarity (word : string) (neighbors : list string)
  : list number :=
  let response := queryGroq (similarityPrompt word neighbors) in
  match response with
  | None => map (fun _ => Finite 0.5) neighbors
  | Some text =>
      if failed response then map (fun _ => Finite 0.5) neighbors
      else
        let numbers := parseLines 0 1 text in
        firstn (List.length neighbors)
          (padTo (List.length neighbors) (Finite 0.5) numbers)
  end.

Definition curvaturePrompt (words : list string) : string :=
  ("Rate importance of each word (0-10):" ++ newline ++
   numbered words ++ newline ++ newline ++
   "Reply with only numbers, one per line:")%string.

(** Phase 3 *)
Definition calculateCurvature (words : list string) : list number :=
  let response := queryGroq (curvaturePrompt words) in
  match response with
  | None => map (fun _ => Finite 2.0) words
  | Some text =>
      if failed response then map (fun _ => Finite 2.0) words
      else
        let ratings := parseLines 0 10 text in
        firstn (List.length words)
          (padTo (List.length words) (Finite 2.0) ratings)
  end.

End Provider.

(** *** The layout *)

(** [distances[i][j]] used as a number: a missing row throws, a missing
    entry is [undefined] and arithmetic makes it [NaN]. *)
Definition entry (distances : list (list R)) (i j : nat) : result R :=
  match nth_error distances i with
  | None => TypeError
  | Some row =>
      match nth_error row j with
      | Some d => Ok d
      | None => NotFinite
      end
  end.

Definition iterations : nat := 100.
Definition k : R := 0.1.

(** The initial placement: three draws per point, in the order x, y, z. *)
Fixpoint initPositions (random : nat -> R) (c n : nat) : list V3.t :=
  match n with
  | O => []
  | Datatypes.S n' =>
      V3.mk ((random c - 0.5) * 20)
            ((random (c + 1)%nat - 0.5) * 20)
            ((random (c + 2)%nat - 0.5) * 20)
      :: initPositions random (c + 3) n'
  end.

(** [Math.sqrt(dx * dx + dy * dy + dz * dz) || 0.1] *)
Definition dist (dx dy dz : R) : R :=
  Js.or_default (sqrt (dx * dx + dy * dy + dz * dz)) 0.1.

(** The body of the inner loop, for the pair [(i, j)]. *)
Definition pairForces (positions : list V3.t) (distances : list (list R))
  (i j : nat) (forces : list V3.t) : result (list V3.t) :=
  pj <- at_ positions j ;;
  pi <- at_ positions i ;;
  let dx := V3.x pj - V3.x pi in
  let dy := V3.y pj - V3.y pi in
  let dz := V3.z pj - V3.z pi in
  let dist := dist dx dy dz in
  dij <- entry distances i j ;;
  let targetDist := dij * 10 in
  force <- div (k * (dist - targetDist)) dist ;;
  forces <- modify forces i (fun f =>
    V3.mk (V3.x f + force * dx) (V3.y f + force * dy) (V3.z f + force * dz)) ;;
  modify forces j (fun f =>
    V3.mk (V3.x f - force * dx) (V3.y f - force * dy) (V3.z f - force * dz)).

Definition calculateForces (positions : list V3.t) (distances : list (list R))
  (n : nat) : result (list V3.t) :=
  for_range 0 n
    (fun i forces =>
       for_range (Datatypes.S i) (n - Datatypes.S i)
         (fun j forces => pairForces positions distances i j forces) forces)
    (repeat V3.zero n).

Definition applyForces (forces : list V3.t) (n : nat) (positions : list V3.t)
  : result (list V3.t) :=
  for_range 0 n
    (fun i positions =>
       f <- at_ forces i ;;
       modify positions i (fun p =>
         V3.mk (V3.x p + V3.x f * 0.1) (V3.y p + V3.y f * 0.1)
               (V3.z p + V3.z f * 0.1)))
    positions.

(** One spring-force iteration: all forces are computed from the positions
    of the previous iteration, then applied. *)
Definition relax (distances : list (list R)) (n : nat) (positions : list V3.t)
  : result (list V3.t) :=
  forces <- calculateForces positions distances n ;;
  applyForces forces n positions.

(** The positions after [iters] iterations. *)
Definition relaxations (iters : nat) (distances : list (list R)) (n : nat)
  (positions : list V3.t) : result (list V3.t) :=
  for_range 0 iters (fun _ positions => relax distances n positions) positions.

Definition projectTo3D (random : nat -> R) (words : list string)
  (distances : list (list R)) : result (list V3.t) :=
  let n := List.length words in
  relaxations iterations distances n (initPositions random 0 n).

(** The data-model invariant of a distance matrix over [n] entities. *)
Definition isDistanceMatrix (n : nat) (d : list (list R)) : Prop :=
  List.length d = n /\
  (forall row, In row d -> List.length row = n) /\
  (forall i j, (i < n)%nat -> (j < n)%nat ->
     nth j (nth i d []) 0 = nth i (nth j d []) 0) /\
  (forall i, (i < n)%nat -> nth i (nth i d []) 0 = 0) /\
  (forall i j, (i < n)%nat -> (j < n)%nat -> 0 <= nth j (nth i d []) 0).

End SpaceGenerator.

(** ** Doubles: their range

    Where a property is about [NaN] and the infinities, a number is a
    [Js.number] and arithmetic is IEEE's up to rounding: a result beyond
    [Number.MAX_VALUE] is an infinity, a result of at most half the least
    positive double is zero, and a result in between is the real number
    itself.  The sign of zero is left out: no quotient of the layout has
    a zero divisor. *)

Module Double.

Import Js.

(** [Number.MAX_VALUE], and half of [Number.MIN_VALUE]. *)
Definition MAX_VALUE : R := (2 - / 2 ^ 52) * 2 ^ 1023.
Definition HALF_MIN : R := / 2 ^ 1075.

(** A result too small for a double is zero. *)
Definition flush (r : R) : R := if leb (Rabs r) HALF_MIN then 0 else r.

(** The double of an arithmetic result. *)
Definition fromReal (r : R) : number :=
  if ltb MAX_VALUE r then PlusInfinity
  else if ltb r (- MAX_VALUE) then MinusInfinity
  else Finite (flush r).

Definition neg (a : number) : number :=
  match a with
  | NaN => NaN
  | PlusInfinity => MinusInfinity
  | MinusInfinity => PlusInfinity
  | Finite x => Finite (- x)
  end.

Definition add (a b : number) : number :=
  match a, b with
  | NaN, _ => NaN
  | _, NaN => NaN
  | Finite x, Finite y => fromReal (x + y)
  | PlusInfinity, MinusInfinity => NaN
  | MinusInfinity, PlusInfinity => NaN
  | PlusInfinity, _ => PlusInfinity
  | MinusInfinity, _ => MinusInfinity
  | Finite _, _ => b
  end.

Definition sub (a b : number) : number := add a (neg b).

(** The product of an infinity and [b]. *)
Definition mulInfinity (infinity b : number) : number :=
  match b with
  | NaN => NaN
  | PlusInfinity => infinity
  | MinusInfinity => neg infinity
  | Finite y =>
      if Req_dec_T y 0 then NaN
      else if ltb 0 y then infinity else neg infinity
  end.

Definition mul (a b : number) : number :=
  match a with
  | NaN => NaN
  | PlusInfinity => mulInfinity PlusInfinity b
  | MinusInfinity => mulInfinity MinusInfinity b
  | Finite x =>
      match b with
      | NaN => NaN
      | Finite y => fromReal (x * y)
      | _ => mulInfinity b a
      end
  end.

(** The quotient of an infinity by [b]. *)
Definition divInfinity (infinity b : number) : number :=
  match b with
  | Finite y => if ltb y 0 then neg infinity else infinity
  | _ => NaN
  end.

Definition div (a b : number) : number :=
  match a with
  | NaN => NaN
  | PlusInfinity => divInfinity PlusInfinity b
  | MinusInfinity => divInfinity MinusInfinity b
  | Finite x =>
      match b with
      | NaN => NaN
      | Finite y =>
          if Req_dec_T y 0
          then if Req_dec_T x 0 then NaN
               else if ltb 0 x then PlusInfinity else MinusInfinity
          else fromReal (x / y)
      | _ => Finite 0
      end
  end.

(** [Math.sqrt] *)
Definition sqrt (a : number) : number :=
  match a with
  | Finite x => if ltb x 0 then NaN else fromReal (R_sqrt.sqrt x)
  | PlusInfinity => PlusInfinity
  | _ => NaN
  end.

(** [v || d]: zero and [NaN] are falsy. *)
Definition or_default (v d : number) : number :=
  match v with
  | NaN => d
  | Finite x => if Req_dec_T x 0 then d else v
  | _ => v
  end.

(** [Number.isFinite] *)
Definition isFinite (a : number) : bool :=
  match a with
  | Finite _ => true
  | _ => false
  end.

End Double.

(** ** space_generator.js: the layout on doubles

    [projectTo3D] again, statement by statement as in [SpaceGenerator],
    with the arithmetic of [Double] in place of the real numbers'. *)

Module Layout.

Import Js.

(** A [{x, y, z}] object. *)
Record point : Type := mkPoint { x : number; y : number; z : number }.

Definition origin : point := mkPoint (Finite 0) (Finite 0) (Finite 0).

(** [distances[i][j]] used as a number: a missing row throws, a missing
    entry is [undefined] and arithmetic makes it [NaN]. *)
Definition entry (distances : list (list number)) (i j : nat) : result number :=
  match nth_error distances i with
  | None => TypeError
  | Some row =>
      match nth_error row j with
      | Some d => Ok d
      | None => Ok NaN
      end
  end.

Definition iterations : nat := 100.
Definition k : number := Finite 0.1.

(** [(Math.random() - 0.5) * 20] *)
Definition coordinate (draw : R) : number :=
  Double.mul (Double.sub (Finite draw) (Finite 0.5)) (Finite 20).

Fixpoint initPositions (random : nat -> R) (c n : nat) : list point :=
  match n with
  | O => []
  | Datatypes.S n' =>
      mkPoint (coordinate (random c))
              (coordinate (random (c + 1)%nat))
              (coordinate (random (c + 2)%nat))
      :: initPositions random (c + 3) n'
  end.

(** [Math.sqrt(dx * dx + dy * dy + dz * dz) || 0.1] *)
Definition dist (dx dy dz : number) : number :=
  Double.or_default
    (Double.sqrt
       (Double.add (Double.add (Double.mul dx dx) (Double.mul dy dy))
          (Double.mul dz dz)))
    (Finite 0.1).

(** [k * (dist - targetDist) / dist] *)
Definition force (dist targetDist : number) : number :=
  Double.div (Double.mul k (Double.sub dist targetDist)) dist.

(** The body of the inner loop, for the pair [(i, j)]. *)
Definition pairForces (positions : list point)
  (distances : list (list number)) (i j : nat) (forces : list point)
  : result (list point) :=
  pj <- at_ positions j ;;
  pi <- at_ positions i ;;
  let dx := Double.sub (x pj) (x pi) in
  let dy := Double.sub (y pj) (y pi) in
  let dz := Double.sub (z pj) (z pi) in
  let dist := dist dx dy dz in
  dij <- entry distances i j ;;
  let targetDist := Double.mul dij (Finite 10) in
  let force := force dist targetDist in
  forces <- modify forces i (fun f =>
    mkPoint (Double.add (x f) (Double.mul force dx))
            (Double.add (y f) (Double.mul force dy))
            (Double.add (z f) (Double.mul force dz))) ;;
  modify forces j (fun f =>
    mkPoint (Double.sub (x f) (Double.mul force dx))
            (Double.sub (y f) (Double.mul force dy))
            (Double.sub (z f) (Double.mul force dz))).

Definition calculateForces (positions : list point)
  (distances : list (list number)) (n : nat) : result (list point) :=
  for_range 0 n
    (fun i forces =>
       for_range (Datatypes.S i) (n - Datatypes.S i)
         (fun j forces => pairForces positions distances i j forces) forces)
    (repeat origin n).

Definition applyForces (forces : list point) (n : nat) (positions : list point)
  : result (list point) :=
  for_range 0 n
    (fun i positions =>
       f <- at_ forces i ;;
       modify positions i (fun p =>
         mkPoint (Double.add (x p) (Double.mul (x f) (Finite 0.1)))
                 (Double.add (y p) (Double.mul (y f) (Finite 0.1)))
                 (Double.add (z p) (Double.mul (z f) (Finite 0.1)))))
    positions.

Definition relax (distances : list (list number)) (n : nat)
  (positions : list point) : result (list point) :=
  forces <- calculateForces positions distances n ;;
  applyForces forces n positions.

Definition relaxations (iters : nat) (distances : list (list number)) (n : nat)
  (positions : list point) : result (list point) :=
  for_range 0 iters (fun _ positions => relax distances n positions) positions.

Definition projectTo3D (random : nat -> R) (words : list string)
  (distances : list (list number)) : result (list point) :=
  let n := List.length words in
  relaxations iterations distances n (initPositions random 0 n).


(** A point whose coordinates are finite, of magnitude at most [bound]. *)
Definition within (bound : R) (p : point) : Prop :=
  exists a b c,
    p = mkPoint (Finite a) (Finite b) (Finite c) /\
    Rabs a <= bound /\ Rabs b <= bound /\ Rabs c <= bound.

Definition finitePoint (p : point) : bool :=
  Double.isFinite (x p) && Double.isFinite (y p) && Double.isFinite (z p).

End Layout.

(** ** quantum-assembly.js: the Fibonacci expansion *)

Module Fibonacci.

Import Js.

(** [THREE.Vector3] objects live in a store: [add] and [divideScalar]
    update their receiver in place, and a node's [targetPosition] is a
    reference into it. *)
Definition loc : Type := nat.
Definition heap : Type := list V3.t.

Definition alloc (h : heap) (v : V3.t) : loc * heap := (List.length h, h ++ [v]).
Definition read (h : heap) (l : loc) : V3.t := nth l h V3.zero.
Definition write (h : heap) (l : loc) (v : V3.t) : heap := set_nth h l v.

(** The fields of a core particle that the expansion reads. *)
Record coreNode : Type := mkCore {
  targetPosition : loc;
  curvature : R
}.

(** A generated satellite; [parentNode] is the reference to its core
    particle, kept as the particle's index in [coreNodes]. *)
Record fibNode : Type := mkFib {
  position : loc;
  fibCurvature : R;
  centrality : R;
  parentNode : nat;
  index : nat;
  distanceFromParent : R
}.

Definition GOLDEN_ANGLE : R := 137.5077640.
Definition FIBONACCI_SCALE : R := 0.5.

(** [getFibonacciNumber]: the loop adds doubles, which are the integers
    themselves as long as they stay below 2^53; that is so up to
    [n = 78], the rank of satellite 779.  Beyond it the doubles of the
    source round, and the numbers here are not theirs. *)
Fixpoint fibLoop (steps a b : nat) : nat :=
  match steps with
  | O => b
  | S steps' => fibLoop steps' b (a + b)
  end.

Definition getFibonacciNumber (n : nat) : nat :=
  if (n <=? 1)%nat then n else fibLoop (n - 1) 0 1.

Definition goldenAngleRad : R := GOLDEN_ANGLE * PI / 180.

Definition theta (fibIndex : nat) : R := INR fibIndex * goldenAngleRad.

Definition radius (fibIndex : nat) : R :=
  let fibNumber := getFibonacciNumber (fibIndex / 10 + 1) in
  let baseRadius := sqrt (INR fibIndex + 1) * FIBONACCI_SCALE in
  baseRadius * (1 + INR (fibNumber mod 5) * 0.1).

Definition phi (fibIndex : nat) : R :=
  acos (1 - 2 * INR (fibIndex mod 89) / 89).

(** [coreNodes.map(node => node.curvature || 5.0)] *)
Definition coreWeights (coreNodes : list coreNode) : list R :=
  map (fun node => or_default (curvature node) 5.0) coreNodes.

(** [coreWeights.reduce((a, b) => a + b, 0)] *)
Definition totalWeight (weights : list R) : R := fold_left Rplus weights 0.

Fixpoint cumulativeFrom (weights : list R) (total cumulative : R)
  : result (list R) :=
  match weights with
  | [] => Ok []
  | w :: tl =>
      share <- div w total ;;
      rest <- cumulativeFrom tl total (cumulative + share) ;;
      Ok ((cumulative + share) :: rest)
  end.

Definition cumulativeWeights (coreNodes : list coreNode) : result (list R) :=
  let weights := coreWeights coreNodes in
  cumulativeFrom weights (totalWeight weights) 0.

(** The search loop with [break]: the first [j] with
    [rand < cumulativeWeights[j]]. *)
Fixpoint firstBelow (rand : R) (cumulative : list R) (j : nat) : option nat :=
  match cumulative with
  | [] => None
  | c :: tl => if ltb rand c then Some j else firstBelow rand tl (S j)
  end.

Definition rand (fibIndex : nat) : R := INR (fibIndex mod 100) / 100.

(** The index of [nearestCore]: [coreNodes[0]] unless the search finds
    one.  The shares are compared as real numbers: where [rand] meets a
    cumulative share exactly, the rounding of the source's doubles
    decides; and a total weight of zero, which only ratings of opposite
    signs give, ends the run here ([NotFinite]) where the source goes on
    comparing with infinities and [NaN]. *)
Definition nearestCoreIndex (coreNodes : list coreNode) (fibIndex : nat)
  : result nat :=
  cumulative <- cumulativeWeights coreNodes ;;
  match firstBelow (rand fibIndex) cumulative 0 with
  | Some j => Ok j
  | None => Ok 0%nat
  end.

(** Spherical to Cartesian coordinates around the core position. *)
Definition spherical (corePos : V3.t) (radius phi theta : R) : V3.t :=
  let x := V3.x corePos + radius * sin phi * cos theta in
  let y := V3.y corePos + radius * sin phi * sin theta in
  let z := V3.z corePos + radius * cos phi in
  V3.mk x y z.

(** The body of the main loop for satellite [i]. *)
Definition expandOne (coreNodes : list coreNode) (centerOfMass : loc)
  (i : nat) (acc : list fibNode * heap) : result (list fibNode * heap) :=
  let '(fibonacciNodes, h) := acc in
  let fibIndex := i in
  let theta := theta fibIndex in
  let radius := radius fibIndex in
  let phi := phi fibIndex in
  parent <- nearestCoreIndex coreNodes fibIndex ;;
  nearestCore <- at_ coreNodes parent ;;
  let corePos := targetPosition nearestCore in
  let '(position, h) := alloc h (spherical (read h corePos) radius phi theta) in
  let distanceFromCore := V3.distanceTo (read h position) (read h corePos) in
  let inheritanceFactor := exp (- distanceFromCore / 5.0) in
  let curvature := or_default (curvature nearestCore) 5.0 * inheritanceFactor in
  let centrality := V3.distanceTo (read h position) (read h centerOfMass) in
  Ok (fibonacciNodes ++
        [mkFib position curvature centrality parent fibIndex distanceFromCore],
      h).

(** [coreNodes.forEach(node => centerOfMass.add(node.targetPosition))] *)
Definition addAll (coreNodes : list coreNode) (centerOfMass : loc) (h : heap)
  : heap :=
  fold_left
    (fun h node =>
       write h centerOfMass
         (V3.add (read h centerOfMass) (read h (targetPosition node))))
    coreNodes h.

(** With no core node the centre of mass is [NaN] (unused when [count] is
    0) and the first iteration reads [targetPosition] of [undefined]. *)
Definition generateFibonacciExpansion (coreNodes : list coreNode) (count : nat)
  (h : heap) : result (list fibNode * heap) :=
  let '(centerOfMass, h) := alloc h V3.zero in
  let h := addAll coreNodes centerOfMass h in
  match coreNodes with
  | [] => if (count =? 0)%nat then Ok ([], h) else TypeError
  | _ :: _ =>
      let h :=
        write h centerOfMass
          (V3.divideScalar (read h centerOfMass) (INR (List.length coreNodes))) in
      for_range 0 count (expandOne coreNodes centerOfMass) ([], h)
  end.

(** What a caller sees of a satellite: its numbers and its parent. *)
Record satellite : Type := mkSat {
  satPosition : V3.t;
  satCurvature : R;
  satCentrality : R;
  satParent : nat;
  satIndex : nat;
  satDistanceFromParent : R
}.

Definition view (h : heap) (node : fibNode) : satellite :=
  mkSat (read h (position node)) (fibCurvature node) (centrality node)
        (parentNode node) (index node) (distanceFromParent node).

(** What a call returns, as values. *)
Definition observe (r : result (list fibNode * heap)) : result (list satellite) :=
  match r with
  | Ok (nodes, h) => Ok (map (view h) nodes)
  | NotFinite => NotFinite
  | TypeError => TypeError
  end.

(** Every core node refers to an allocated vector. *)
Definition coresIn (h : heap) (coreNodes : list coreNode) : Prop :=
  Forall (fun node => (targetPosition node < List.length h)%nat) coreNodes.

(** The core nodes as values: position and weight, in array order. *)
Definition coreValues (h : heap) (coreNodes : list coreNode) : list (V3.t * R) :=
  map (fun node => (read h (targetPosition node), curvature node)) coreNodes.

End Fibonacci.

(** ** quantum-assembly.js: particles and candidate connections *)

Module Particles.

(** A particle of the pool; its identity is its index in [particles].
    Of the mesh only the position and the visibility are kept. *)
Record particle : Type := mkParticle {
  position : V3.t;
  velocity : V3.t;
  visible : bool;
  targetPosition : option V3.t;
  superpositionTarget : option V3.t;
  curvature : R;
  centrality : R;
  word : option string;
  isCoreNode : bool;
  parentNode : option nat;
  distanceFromParent : R
}.

(** An entry of [potentialConnections]; [p1] and [p2] are references to
    particles. *)
Record potentialConnection : Type := mkPotential {
  p1 : nat;
  p2 : nat;
  distance : R;
  formed : bool
}.

End Particles.

Module Connectivity.

Import Js Particles.

Definition CONNECTION_THRESHOLD : R := 3.0.

(** The body of the inner loop for the pair [(i, j)]: what it pushes. *)
Definition candidate (particles : list particle) (i j : nat)
  : list potentialConnection :=
  match nth_error particles i, nth_error particles j with
  | Some pi, Some pj =>
      match targetPosition pi, targetPosition pj with
      | Some ti, Some tj =>
          let dist := V3.distanceTo ti tj in
          if ltb dist CONNECTION_THRESHOLD
          then [mkPotential i j dist false]
          else []
      | _, _ => []
      end
  | _, _ => []
  end.

(** [for i in 0 .. n-1, for j in i+1 .. n-1], in that order. *)
Definition calculatePotentialConnections (particles : list particle)
  : list potentialConnection :=
  let n := List.length particles in
  flat_map
    (fun i => flat_map (fun j => candidate particles i j) (seq (S i) (n - S i)))
    (seq 0 n).

(** The unordered pair of a connection. *)
Definition unorderedPair (c : potentialConnection) : nat * nat :=
  (Nat.min (p1 c) (p2 c), Nat.max (p1 c) (p2 c)).

End Connectivity.

(** ** quantum-assembly.js: the assembly controller

    The controller's globals, the calls of [collapseToShape] that are in
    flight (each suspended at one of its [await]s), the pending
    [setTimeout] callbacks, and the handlers that run between them.
    Time is [performance.now()], in milliseconds.  Rendering and the DOM
    are left out, except the status line; what a forward phase does to the
    particles and connections in one frame is a parameter, [motion]. *)

Module Controller.

Import Js Particles.

Inductive phaseName : Type :=
| SUPERPOSITION
| VOID
| ATTRACTION
| BONDING
| STABILIZATION
| OBSERVATION
| ASSEMBLED.

Definition isAssembled (p : phaseName) : bool :=
  match p with
  | ASSEMBLED => true
  | _ => false
  end.

(** An entry of [connections]: its two particles, the beam's
    [userData.baseOpacity] and [userData.pulsePhase], and the material's
    numbers. *)
Record connection : Type := mkConnection {
  end1 : nat;
  end2 : nat;
  baseOpacity : R;
  pulsePhase : R;
  opacity : R;
  emissiveIntensity : R
}.

(** The bundle [generateSpace] returns. *)
Record space : Type := mkSpace {
  words : list string;
  curvatures : list R;
  positions : list V3.t
}.

(** What the per-frame updates act on; [drawn] counts the values of
    [Math.random()] that the particle loops modelled here have read so
    far.  It is the index of their next draw in [random], not the number
    of calls of [Math.random()] the page has made. *)
Record scene : Type := mkScene {
  particles : list particle;
  connections : list connection;
  potentialConnections : list potentialConnection;
  drawn : nat
}.

(** Where a call of [collapseToShape] is suspended: in [generateSpace]
    on the reply to the word prompt or on the rest of the generation, on
    the promise of a phase, or on [generateTopologyResponse]. *)
Inductive stage : Type :=
| Generating (contextualQuestion : string)
| GeneratingRest
| Animating (phase : phaseName) (startTime : R)
| Responding.

Record chain : Type := mkChain {
  question : string;
  awaiting : stage
}.

Record state : Type := mkState {
  world : scene;
  particleState : phaseName;
  assemblyPhase : phaseName;
  currentSpace : option space;
  previousQuestion : option string;
  assemblyTimestamp : R;
  decayStartTime : R;
  isDecaying : bool;
  decayPaused : bool;
  statusText : string;
  chains : list chain;
  timers : list R
}.

Definition CONTEXT_DECAY_START : R := 30000.
Definition CONTEXT_DECAY_DURATION : R := 45000.
Definition CONTEXT_INFLUENCE : R := 0.6.

Definition setWorld (w : scene) (s : state) : state :=
  mkState w (particleState s) (assemblyPhase s) (currentSpace s)
    (previousQuestion s) (assemblyTimestamp s) (decayStartTime s)
    (isDecaying s) (decayPaused s) (statusText s) (chains s) (timers s).

Definition setParticleState (v : phaseName) (s : state) : state :=
  mkState (world s) v (assemblyPhase s) (currentSpace s)
    (previousQuestion s) (assemblyTimestamp s) (decayStartTime s)
    (isDecaying s) (decayPaused s) (statusText s) (chains s) (timers s).

Definition setAssemblyPhase (v : phaseName) (s : state) : state :=
  mkState (world s) (particleState s) v (currentSpace s)
    (previousQuestion s) (assemblyTimestamp s) (decayStartTime s)
    (isDecaying s) (decayPaused s) (statusText s) (chains s) (timers s).

Definition setIsDecaying (v : bool) (s : state) : state :=
  mkState (world s) (particleState s) (assemblyPhase s) (currentSpace s)
    (previousQuestion s) (assemblyTimestamp s) (decayStartTime s)
    v (decayPaused s) (statusText s) (chains s) (timers s).

Definition setDecayPaused (v : bool) (s : state) : state :=
  mkState (world s) (particleState s) (assemblyPhase s) (currentSpace s)
    (previousQuestion s) (assemblyTimestamp s) (decayStartTime s)
    (isDecaying s) v (statusText s) (chains s) (timers s).

Definition setDecayStartTime (v : R) (s : state) : state :=
  mkState (world s) (particleState s) (assemblyPhase s) (currentSpace s)
    (previousQuestion s) (assemblyTimestamp s) v
    (isDecaying s) (decayPaused s) (statusText s) (chains s) (timers s).

Definition setStatusText (v : string) (s : state) : state :=
  mkState (world s) (particleState s) (assemblyPhase s) (currentSpace s)
    (previousQuestion s) (assemblyTimestamp s) (decayStartTime s)
    (isDecaying s) (decayPaused s) v (chains s) (timers s).

Definition setChains (v : list chain) (s : state) : state :=
  mkState (world s) (particleState s) (assemblyPhase s) (currentSpace s)
    (previousQuestion s) (assemblyTimestamp s) (decayStartTime s)
    (isDecaying s) (decayPaused s) (statusText s) v (timers s).

Definition setTimers (v : list R) (s : state) : state :=
  mkState (world s) (particleState s) (assemblyPhase s) (currentSpace s)
    (previousQuestion s) (assemblyTimestamp s) (decayStartTime s)
    (isDecaying s) (decayPaused s) (statusText s) (chains s) v.

(** [currentSpace], [previousQuestion] and [assemblyTimestamp] are stored
    together. *)
Definition setCurrent (sp : space) (q : string) (now : R) (s : state) : state :=
  mkState (world s) (particleState s) (assemblyPhase s) (Some sp)
    (Some q) now (decayStartTime s)
    (isDecaying s) (decayPaused s) (statusText s) (chains s) (timers s).

Definition setParticles (ps : list particle) (w : scene) : scene :=
  mkScene ps (connections w) (potentialConnections w) (drawn w).

Definition setPosition (v : V3.t) (p : particle) : particle :=
  mkParticle v (Particles.velocity p) (visible p) (targetPosition p)
    (superpositionTarget p) (curvature p) (centrality p) (word p)
    (isCoreNode p) (parentNode p) (Particles.distanceFromParent p).

(** [arr.splice(i, 1)] *)
Fixpoint removeAt {A : Type} (i : nat) (arr : list A) : list A :=
  match arr, i with
  | [], _ => []
  | _ :: tl, O => tl
  | a :: tl, S i' => a :: removeAt i' tl
  end.

Section Handlers.

(** The values [Math.random()] returns, in the order of the calls. *)
Variable random : nat -> R.

(** The provider. *)
Variable queryGroq : string -> option string.

(** What one frame of a forward phase, at normalized time [t], does to
    the particles and connections. *)
Variable motion : phaseName -> R -> scene -> scene.

(** A random point of the shell between radius 10 and 25. *)
Definition randomShellPoint (c : nat) : V3.t :=
  let phi := random c * PI * 2 in
  let theta := random (c + 1) * PI in
  let r := 10 + random (c + 2) * 15 in
  V3.mk (r * sin theta * cos phi) (r * sin theta * sin phi) (r * cos theta).

(** The first loop of [enterSuperposition], with [clearWordLabels]. *)
Definition hide (p : particle) : particle :=
  mkParticle (Particles.position p) (Particles.velocity p) false
    (targetPosition p) None 0 0 None
    (isCoreNode p) (parentNode p) (Particles.distanceFromParent p).

(** Its second loop: every particle jumps to a random point. *)
Fixpoint spread (c : nat) (ps : list particle) : list particle * nat :=
  match ps with
  | [] => ([], c)
  | p :: tl =>
      let target := randomShellPoint c in
      let '(tl', c') := spread (c + 3) tl in
      (setPosition target p :: tl', c')
  end.

(** [enterSuperposition]; the panels, the labels and the wave field it
    creates last are rendering. *)
Definition enterSuperposition (s : state) : state :=
  let s := setDecayPaused false (setIsDecaying false
             (setParticleState SUPERPOSITION s)) in
  let w := world s in
  let '(ps, c) := spread (drawn w) (map hide (particles w)) in
  setWorld (mkScene ps [] (potentialConnections w) c) s.

(** [Math.round] of a number that is not negative. *)
Definition round (v : R) : nat := Z.to_nat (up (v + 0.5) - 1).

Definition quote (text : string) : string :=
  (String (ascii_of_nat 34) EmptyString ++ text ++
   String (ascii_of_nat 34) EmptyString)%string.

Definition buildContextualPrompt (now : R) (currentQuestion : string)
  (s : state) : string :=
  match previousQuestion s, currentSpace s with
  | Some previous, Some sp =>
      if String.eqb previous EmptyString then currentQuestion
      else
        let elapsed := now - assemblyTimestamp s in
        let totalTime := CONTEXT_DECAY_START + CONTEXT_DECAY_DURATION in
        let contextStrength := Rmax 0 (1 - elapsed / totalTime) in
        if ltb contextStrength 0.1 then currentQuestion
        else
          let influence := contextStrength * CONTEXT_INFLUENCE in
          let percent := showNat (round (influence * 100)) in
          ("Previous context (" ++ percent ++ "% weight): " ++ quote previous ++
           SpaceGenerator.newline ++
           "Previous key concepts: " ++ join ", " (firstn 5 (words sp)) ++
           SpaceGenerator.newline ++ SpaceGenerator.newline ++
           "Current question: " ++ quote currentQuestion ++
           SpaceGenerator.newline ++ SpaceGenerator.newline ++
           "Based on the temporal context decay, blend the semantic spaces with " ++
           percent ++ "% influence from the previous question.")%string
  | _, _ => currentQuestion
  end.

(** [collapseToShape] up to its first [await]: the flags are reset and
    the call joins the ones in flight.  Nothing is done to them. *)
Definition collapseToShape (now : R) (question : string) (s : state) : state :=
  let s := setIsDecaying false (setDecayPaused false s) in
  let contextualQuestion := buildContextualPrompt now question s in
  let s := setStatusText "Asking LLM for core concepts..." s in
  setChains (chains s ++ [mkChain question (Generating contextualQuestion)]) s.

(** The [catch] block of [collapseToShape]. *)
Definition assemblyFailed (now : R) (message : string) (s : state) : state :=
  let s := setStatusText ("Assembly failed: " ++ message)%string s in
  setTimers (timers s ++ [now + 2000]) s.

Definition duration (phase : phaseName) : R :=
  match phase with
  | VOID => 1000
  | ATTRACTION => 2500
  | BONDING => 3000
  | STABILIZATION => 2000
  | OBSERVATION => 1000
  | _ => 0
  end.

Definition phaseStatus (phase : phaseName) : string :=
  match phase with
  | VOID => "Wavefunction collapsing - nodes crystallizing..."
  | ATTRACTION => "Attraction: Forces emerging..."
  | BONDING => "Bonding: Network topology emerging..."
  | STABILIZATION => "Stabilization: Topology stabilizing..."
  | OBSERVATION => "Observation: Network crystallized"
  | _ => ""
  end.

(** The synchronous start of a phase function: the phase variables, the
    status line and the first call of its [animate], at [t = 0].
    [phaseObservation] does not write [particleState]; [phaseAttraction]
    draws one strength per particle. *)
Definition startPhase (now : R) (phase : phaseName) (s : state)
  : state * stage :=
  let s := setAssemblyPhase phase s in
  let s := match phase with
           | OBSERVATION => s
           | _ => setParticleState phase s
           end in
  let s := setStatusText (phaseStatus phase) s in
  let w := world s in
  let w := match phase with
           | ATTRACTION =>
               mkScene (particles w) (connections w) (potentialConnections w)
                       (drawn w + List.length (particles w))
           | _ => w
           end in
  (setWorld (motion phase 0 w) s, Animating phase now).

(** What follows the phase whose promise resolved. *)
Definition afterPhase (now : R) (phase : phaseName) (s : state)
  : state * stage :=
  match phase with
  | VOID => startPhase now ATTRACTION s
  | ATTRACTION => startPhase now BONDING s
  | BONDING => startPhase now STABILIZATION s
  | STABILIZATION => startPhase now OBSERVATION s
  | _ =>
      let s := setAssemblyPhase ASSEMBLED (setParticleState ASSEMBLED s) in
      (setStatusText "Analyzing semantic curvature..." s, Responding)
  end.

(** The [animate] callback of a phase, run by the frame. *)
Definition animatePhase (now : R) (c : chain) (s : state) : state * chain :=
  match awaiting c with
  | Animating phase startTime =>
      let elapsed := now - startTime in
      let t := Rmin (elapsed / duration phase) 1 in
      let s := setWorld (motion phase t (world s)) s in
      if ltb t 1 then (s, c)
      else
        let '(s, next) := afterPhase now phase s in
        (s, mkChain (question c) next)
  | _ => (s, c)
  end.

Fixpoint animatePhases (now : R) (cs : list chain) (s : state)
  : state * list chain :=
  match cs with
  | [] => (s, [])
  | c :: tl =>
      let '(s, c') := animatePhase now c s in
      let '(s, tl') := animatePhases now tl s in
      (s, c' :: tl')
  end.

(** The decay progress at time [now]. *)
Definition decayProgress (now : R) (s : state) : R :=
  let elapsed := now - decayStartTime s in
  let decayElapsed := elapsed - CONTEXT_DECAY_START in
  Rmin 1 (decayElapsed / CONTEXT_DECAY_DURATION).

(** The body of the particle loop of [updateContextDecay]. *)
Definition decayParticle (progress : R) (c : nat) (p : particle)
  : particle * nat :=
  match targetPosition p with
  | None => (p, c)
  | Some _ =>
      let '(target, c) :=
        match superpositionTarget p with
        | Some target => (target, c)
        | None => (randomShellPoint c, (c + 3)%nat)
        end in
      let blended := V3.lerp (Particles.position p) target (progress * 0.02) in
      let v := Particles.velocity p in
      let v := V3.mk (V3.x v + (random c - 0.5) * 0.01 * progress)
                     (V3.y v + (random (c + 1) - 0.5) * 0.01 * progress)
                     (V3.z v + (random (c + 2) - 0.5) * 0.01 * progress) in
      (mkParticle (V3.add blended v) (V3.multiplyScalar v 0.98) (visible p)
         (targetPosition p) (Some target) (curvature p) (centrality p)
         (word p) (isCoreNode p) (parentNode p) (Particles.distanceFromParent p),
       (c + 3)%nat)
  end.

Fixpoint decayParticles (progress : R) (c : nat) (ps : list particle)
  : list particle * nat :=
  match ps with
  | [] => ([], c)
  | p :: tl =>
      let '(p', c) := decayParticle progress c p in
      let '(tl', c) := decayParticles progress c tl in
      (p' :: tl', c)
  end.

Definition fade (progress : R) (conn : connection) : connection :=
  mkConnection (end1 conn) (end2 conn) (baseOpacity conn) (pulsePhase conn)
    (baseOpacity conn * (1 - progress * 0.8))
    (0.5 * (1 - progress)).

Definition updateContextDecay (now : R) (s : state) : state :=
  if negb (isAssembled (particleState s)) then s
  else
    let elapsed := now - decayStartTime s in
    let s :=
      if ltb CONTEXT_DECAY_START elapsed && negb (isDecaying s)
      then setStatusText
             "Context fading... shape dissolving... (press SPACE to pause)"
             (setIsDecaying true s)
      else s in
    if negb (isDecaying s) then s
    else if decayPaused s then s
    else
      let progress := decayProgress now s in
      let w := world s in
      let '(ps, c) := decayParticles progress (drawn w) (particles w) in
      let s :=
        setWorld (mkScene ps (map (fade progress) (connections w))
                          (potentialConnections w) c) s in
      if leb 1.0 progress then enterSuperposition s else s.

(** The pulsing glow of [updateConnections]; the beam's placement is
    rendering. *)
Definition pulse (now : R) (conn : connection) : connection :=
  let time := now * 0.001 in
  let pulseSpeed := 2.0 in
  let pulseAmount := 0.3 in
  let pulse := sin (time * pulseSpeed + pulsePhase conn) * pulseAmount in
  mkConnection (end1 conn) (end2 conn) (baseOpacity conn) (pulsePhase conn)
    (baseOpacity conn * (1.0 + pulse))
    (0.5 + pulse * 0.5).

Definition updateConnections (now : R) (w : scene) : scene :=
  mkScene (particles w) (map (pulse now) (connections w))
          (potentialConnections w) (drawn w).

(** The main loop's frame: the connections pulse, the decay advances;
    then the phase callbacks queued after it run. *)
Definition animationFrame (now : R) (s : state) : state :=
  let s := setWorld (updateConnections now (world s)) s in
  let s := updateContextDecay now s in
  let '(s, cs) := animatePhases now (chains s) s in
  setChains cs s.

(** The Enter key in the question field. *)
Definition keypressEnter (now : R) (value : string) (s : state) : state :=
  let question := trim value in
  if String.eqb question EmptyString then s
  else collapseToShape now question s.

(** The ask button. *)
Definition clickAsk (now : R) (value : string) (s : state) : state :=
  let question := trim value in
  if String.eqb question EmptyString then s
  else collapseToShape now question s.

(** The reset button. *)
Definition clickReset (s : state) : state :=
  setStatusText "Wave field in superposition — pure potential"
    (enterSuperposition s).

(** The space bar. *)
Definition keydownSpace (s : state) : state :=
  if isAssembled (assemblyPhase s) && isDecaying s then
    let s := setDecayPaused (negb (decayPaused s)) s in
    if decayPaused s
    then setStatusText "Decay paused - inspecting shape (press SPACE to resume)" s
    else setStatusText "Context decaying into void..." s
  else s.

(** The reply to the word prompt reaches call [id]: [generateCoreWords]
    returns the words or throws, and a throw reaches the [catch] block.
    With words, [generateSpace] runs on to its next query, reporting its
    progress in the status line: the first similarity query, or, without
    a word to measure, the importance query. *)
Definition wordsReplied (now : R) (id : nat) (s : state) : state :=
  match nth_error (chains s) id with
  | Some (mkChain q (Generating contextualQuestion)) =>
      match SpaceGenerator.generateCoreWords queryGroq contextualQuestion with
      | inl message => assemblyFailed now message (setChains (removeAt id (chains s)) s)
      | inr words =>
          setStatusText
            match words with
            | [] => "Rating archetypal weights..."
            | _ :: _ => "Measuring semantic distances..."
            end
            (setChains (set_nth (chains s) id (mkChain q GeneratingRest)) s)
      end
  | _ => s
  end.

(** *** The rest of [collapseToShape] *)

Definition scaled (pos : V3.t) : V3.t :=
  V3.mk (V3.x pos * 0.8) (V3.y pos * 0.8) (V3.z pos * 0.8).

(** The centre of mass of the scaled positions; the origin when there
    are none. *)
Definition centerOfMass (sp : space) : V3.t :=
  match positions sp with
  | [] => V3.zero
  | _ :: _ =>
      V3.divideScalar (fold_left V3.add (map scaled (positions sp)) V3.zero)
                      (INR (List.length (positions sp)))
  end.

Definition clearWord (p : particle) : particle :=
  mkParticle (Particles.position p) (Particles.velocity p) (visible p)
    (targetPosition p) (superpositionTarget p) (curvature p) (centrality p)
    None (isCoreNode p) (parentNode p) (Particles.distanceFromParent p).

(** The body of the core-node loop for [particles[i]]. *)
Definition assignCore (sp : space) (center : V3.t) (i : nat) (p : particle)
  : particle :=
  let target := scaled (nth i (positions sp) V3.zero) in
  mkParticle (Particles.position p) (Particles.velocity p) (visible p)
    (Some target) (superpositionTarget p)
    (nth i (curvatures sp) 5.0) (V3.distanceTo target center)
    (nth_error (words sp) i) true (parentNode p)
    (Particles.distanceFromParent p).

(** The core-node loop from [i] on; [false] when [particles[i]] is
    [undefined] and the assignment throws. *)
Fixpoint assignCores (sp : space) (center : V3.t) (i cnt : nat)
  (ps : list particle) : list particle * bool :=
  match cnt with
  | O => (ps, true)
  | S cnt' =>
      match nth_error ps i with
      | None => (ps, false)
      | Some p => assignCores sp center (S i) cnt' (set_nth ps i (assignCore sp center i p))
      end
  end.

(** The core nodes as the expansion reads them: their target positions
    in a store, each node referring to its own. *)
Definition coreStore (cores : list particle) : Fibonacci.heap :=
  map (fun p => match targetPosition p with
                | Some target => target
                | None => V3.zero
                end) cores.

Definition coreRefs (cores : list particle) : list Fibonacci.coreNode :=
  map (fun ip => Fibonacci.mkCore (fst ip) (curvature (snd ip)))
      (combine (seq 0 (List.length cores)) cores).

Definition assignSatellite (sat : Fibonacci.satellite) (p : particle) : particle :=
  mkParticle (Particles.position p) (Particles.velocity p) (visible p)
    (Some (Fibonacci.satPosition sat)) (superpositionTarget p)
    (Fibonacci.satCurvature sat) (Fibonacci.satCentrality sat)
    None false (Some (Fibonacci.satParent sat))
    (Fibonacci.satDistanceFromParent sat).

(** The loop over the remaining particles, in step with the satellites. *)
Fixpoint assignSatellites (sats : list Fibonacci.satellite) (ps : list particle)
  : list particle :=
  match ps, sats with
  | p :: tl, sat :: sats' => assignSatellite sat p :: assignSatellites sats' tl
  | _, _ => ps
  end.

(** Targets for the whole pool; [false] when a [TypeError] is thrown on
    the way.  A total core weight of zero needs a negative rating, which
    the importance query never returns; the satellites' numbers are then
    not finite and are left as they were. *)
Definition assignTargets (sp : space) (ps : list particle)
  : list particle * bool :=
  let ps := map clearWord ps in
  let k := Nat.min 30 (List.length (positions sp)) in
  let '(ps, done) := assignCores sp (centerOfMass sp) 0 k ps in
  if negb done then (ps, false)
  else
    let cores := firstn k ps in
    match Fibonacci.observe
            (Fibonacci.generateFibonacciExpansion (coreRefs cores)
               (List.length ps - List.length cores) (coreStore cores)) with
    | Ok sats => (cores ++ assignSatellites sats (skipn k ps), true)
    | NotFinite => (ps, true)
    | TypeError => (ps, false)
    end.

(** The message of the engine's [TypeError] for a property read on
    [undefined]; its wording is the engine's own, this is how V8's
    begins. *)
Definition typeErrorMessage : string := "Cannot read properties of undefined".

(** [generateSpace] returned [sp] to call [id]: targets are assigned,
    the candidate connections computed and [phaseVoid] starts. *)
Definition spaceGenerated (now : R) (id : nat) (sp : space) (s : state) : state :=
  match nth_error (chains s) id with
  | Some (mkChain q GeneratingRest) =>
      let s := setStatusText "Space generation complete!" s in
      let s := setIsDecaying false (setCurrent sp q now s) in
      let w := world s in
      let '(ps, done) := assignTargets sp (particles w) in
      if negb done
      then assemblyFailed now typeErrorMessage
             (setChains (removeAt id (chains s)) (setWorld (setParticles ps w) s))
      else
        let w := mkScene ps (connections w)
                   (Connectivity.calculatePotentialConnections ps) (drawn w) in
        let '(s, next) := startPhase now VOID (setWorld w s) in
        setChains (set_nth (chains s) id (mkChain q next)) s
  | _ => s
  end.

(** [generateTopologyResponse] returned to call [id]; it catches its own
    errors.  The decay clock starts and the call ends. *)
Definition responseReplied (now : R) (id : nat) (s : state) : state :=
  match nth_error (chains s) id with
  | Some (mkChain q Responding) =>
      setDecayStartTime now
        (setStatusText "Topology crystallized. Network stable."
           (setChains (removeAt id (chains s)) s))
  | _ => s
  end.

(** The pending [setTimeout(enterSuperposition, 2000)] callbacks that
    are due run, in order. *)
Definition fireTimers (now : R) (s : state) : state :=
  let due := filter (fun t => leb t now) (timers s) in
  let pending := filter (fun t => negb (leb t now)) (timers s) in
  fold_left (fun s _ => enterSuperposition s) due (setTimers pending s).

Inductive event : Type :=
| KeypressEnter (value : string)
| ClickAsk (value : string)
| ClickReset
| KeydownSpace
| AnimationFrame
| WordsReplied (id : nat)
| SpaceGenerated (id : nat) (sp : space)
| ResponseReplied (id : nat)
| Timeout.

(** One turn of the event loop, at time [now]. *)
Definition handle (now : R) (e : event) (s : state) : state :=
  match e with
  | KeypressEnter value => keypressEnter now value s
  | ClickAsk value => clickAsk now value s
  | ClickReset => clickReset s
  | KeydownSpace => keydownSpace s
  | AnimationFrame => animationFrame now s
  | WordsReplied id => wordsReplied now id s
  | SpaceGenerated id sp => spaceGenerated now id sp s
  | ResponseReplied id => responseReplied now id s
  | Timeout => fireTimers now s
  end.

(** The turns of a run, oldest first. *)
Fixpoint run (turns : list (R * event)) (s : state) : state :=
  match turns with
  | [] => s
  | (now, e) :: tl => run tl (handle now e s)
  end.

End Handlers.

(** The state [init] leaves: the pool in superposition. *)
Definition initial (random : nat -> R) (pool : list particle) : state :=
  enterSuperposition random
    (mkState (mkScene pool [] [] 0) SUPERPOSITION SUPERPOSITION None None
             0 0 false false "" [] []).

End Controller.

(** ** space_generator.js: the distance matrix and [generateSpace] *)

Module Generation.

Import Js.

(** [words.indexOf(neighbor)]; [None] is [-1]. *)
Fixpoint indexOf (words : list string) (neighbor : string) : option nat :=
  match words with
  | [] => None
  | w :: tl =>
      if String.eqb w neighbor then Some 0%nat
      else option_map S (indexOf tl neighbor)
  end.

(** The loop that pushes [words[j]] for every [j] other than [i]. *)
Definition neighborsOf (words : list string) (i : nat) : list string :=
  map snd
    (filter (fun jw => negb (fst jw =? i)%nat)
       (combine (seq 0 (List.length words)) words)).

(** [1 - similarities[idx]]; [undefined] gives [NaN]. *)
Definition distanceFrom (similarities : list number) (idx : nat) : number :=
  match nth_error similarities idx with
  | Some (Finite s) => Finite (1 - s)
  | Some PlusInfinity => MinusInfinity
  | Some MinusInfinity => PlusInfinity
  | _ => NaN
  end.

(** [matrix[i][j] = v] for an index [j] of the row; a missing row is
    [undefined] and the write throws. *)
Definition setCell (matrix : list (list number)) (i j : nat) (v : number)
  : result (list (list number)) :=
  modify matrix i (fun row => set_nth row j v).

(** The cell [matrix[i][j]], when the matrix has it. *)
Definition cellAt (matrix : list (list number)) (i j : nat) : option number :=
  match nth_error matrix i with
  | Some row => nth_error row j
  | None => None
  end.

(** An [n] by [n] matrix of numbers between 0 and 1 that is symmetric. *)
Definition symmetricUnit (n : nat) (matrix : list (list number)) : Prop :=
  List.length matrix = n /\
  (forall a row, nth_error matrix a = Some row -> List.length row = n) /\
  (forall i j, (i < n)%nat -> (j < n)%nat ->
     exists r,
       cellAt matrix i j = Some (Finite r) /\
       cellAt matrix j i = Some (Finite r) /\ 0 <= r <= 1).

(** [v === 0] *)
Definition isZero (v : number) : bool :=
  match v with
  | Finite r => if Req_dec_T r 0 then true else false
  | _ => false
  end.

(** [items.forEach((a, idx) => ...)], from index [idx] on. *)
Fixpoint forEachFrom {A S : Type} (idx : nat) (items : list A)
  (body : A -> nat -> S -> result S) (s : S) : result S :=
  match items with
  | [] => Ok s
  | a :: tl => s' <- body a idx s ;; forEachFrom (Datatypes.S idx) tl body s'
  end.

Fixpoint mapFrom {A B : Type} (i : nat) (f : nat -> A -> B) (l : list A)
  : list B :=
  match l with
  | [] => []
  | a :: tl => f i a :: mapFrom (S i) f tl
  end.

(** The last two loops of [buildDistanceMatrix]: every cell off the
    diagonal that is still [0] becomes [0.5]. *)
Definition fillMissing (matrix : list (list number)) : list (list number) :=
  mapFrom 0
    (fun i row =>
       mapFrom 0
         (fun j v => if negb (i =? j)%nat && isZero v then Finite 0.5 else v)
         row)
    matrix.

(** A matrix of finite numbers, as the layout reads it. *)
Fixpoint finiteRow (row : list number) : option (list R) :=
  match row with
  | [] => Some []
  | Finite r :: tl => option_map (cons r) (finiteRow tl)
  | _ :: _ => None
  end.

Fixpoint finiteMatrix (matrix : list (list number)) : option (list (list R)) :=
  match matrix with
  | [] => Some []
  | row :: tl =>
      match finiteRow row, finiteMatrix tl with
      | Some r, Some m => Some (r :: m)
      | _, _ => None
      end
  end.

(** How an asynchronous method ends: with its value, or with a thrown
    [Error] and its message. *)
Inductive completion (A : Type) : Type :=
| Returned (a : A)
| Thrown (message : string).

Arguments Returned {A} a.
Arguments Thrown {A} message.

(** The bundle [generateSpace] returns; [positions] is [None] when a
    coordinate is [NaN] or an infinity. *)
Record generated : Type := mkGenerated {
  words : list string;
  distances : list (list number);
  curvatures : list number;
  positions : option (list V3.t);
  question : string
}.

Section Provider.

(** The provider's answer to the [c]-th query of a generation (the word
    query is the first, then one similarity query per word, then the
    importance query), the built-in [parseFloat], the values of
    [Math.random()] the layout reads, and what
    [[...array].sort(() => Math.random() - 0.5)] leaves of the array at
    the [c]-th call of [sampleArray]: with a random comparator the order
    is the engine's choice. *)
Variable queryGroq : nat -> string -> option string.
Variable parseFloat : string -> number.
Variable random : nat -> R.
Variable sorted : nat -> list string -> list string.

Definition sampleArray (c : nat) (array : list string) (count : nat)
  : list string :=
  firstn count (sorted c array).

(** The body of the main loop of [buildDistanceMatrix] for word [i]. *)
Definition measure (words : list string) (i : nat)
  (matrix : list (list number)) : result (list (list number)) :=
  let neighbors := neighborsOf words i in
  let sampled := sampleArray i neighbors (Nat.min 3 (List.length neighbors)) in
  let similarities :=
    SpaceGenerator.batchSimilarity (queryGroq (S i)) parseFloat
      (nth i words EmptyString) sampled in
  forEachFrom 0 sampled
    (fun neighbor idx matrix =>
       match indexOf words neighbor with
       | None => TypeError
       | Some j =>
           let distance := distanceFrom similarities idx in
           matrix <- setCell matrix i j distance ;;
           setCell matrix j i distance
       end)
    matrix.

(** Phase 2; the progress callbacks are left out. *)
Definition buildDistanceMatrix (words : list string)
  : result (list (list number)) :=
  let n := List.length words in
  let matrix := repeat (repeat (Finite 0) n) n in
  matrix <- for_range 0 n (measure words) matrix ;;
  Ok (fillMissing matrix).

(** [generateSpace] in LLM mode ([useSimpleMode] is [false]: the
    constructor sets it and nothing changes it).  The layout computes on
    real numbers: a matrix that holds a number that is not finite gives
    positions that are not finite.  A [TypeError] reaches the caller
    through [catch] and [throw]. *)
Definition generateSpace (question : string) : completion generated :=
  match SpaceGenerator.generateCoreWords (queryGroq 0) question with
  | inl message => Thrown message
  | inr words =>
      match buildDistanceMatrix words with
      | TypeError => Thrown Controller.typeErrorMessage
      | NotFinite => Thrown Controller.typeErrorMessage
      | Ok distances =>
          let curvatures :=
            SpaceGenerator.calculateCurvature
              (queryGroq (S (List.length words))) parseFloat words in
          let layout :=
            match finiteMatrix distances with
            | Some d => SpaceGenerator.projectTo3D random words d
            | None => NotFinite
            end in
          match layout with
          | TypeError => Thrown Controller.typeErrorMessage
          | NotFinite =>
              Returned (mkGenerated words distances curvatures None question)
          | Ok positions =>
              Returned (mkGenerated words distances curvatures (Some positions)
                          question)
          end
      end
  end.

End Provider.

End Generation.

(** ** quantum-assembly.js: topology analysis and the response's concepts *)

Module Topology.

Import Js Particles Controller.

(** The numbers of [analyzeTopology]'s result.  A quotient by zero is
    stored as it is ([NotFinite]); [boundingSphere] starts at 0 and only
    takes distances. *)
Record topology : Type := mkTopology {
  nodes : nat;
  edges : nat;
  density : result R;
  centerOfMass : result V3.t;
  boundingSphere : R;
  avgDegree : result R
}.

(** The loop that widens [boundingSphere] to the farthest particle. *)
Definition widen (center : V3.t) (bound : R) (p : particle) : R :=
  let dist := V3.distanceTo (Particles.position p) center in
  if ltb bound dist then dist else bound.

Definition analyzeTopology (w : scene) : topology :=
  let n := INR (List.length (particles w)) in
  let e := INR (List.length (connections w)) in
  let sum := fold_left (fun c p => V3.add c (Particles.position p))
               (particles w) V3.zero in
  let center := if Req_dec_T n 0 then NotFinite else Ok (V3.divideScalar sum n) in
  let bound :=
    match center with
    | Ok c => fold_left (widen c) (particles w) 0
    | _ => 0
    end in
  let degreeSum := e * 2 in
  mkTopology (List.length (particles w)) (List.length (connections w))
    (div e (n * (n - 1) / 2)) center bound (div degreeSum n).

(** [!particle.word]: [null] and the empty string are falsy. *)
Definition hasWord (p : particle) : bool :=
  match word p with
  | Some w => negb (String.eqb w EmptyString)
  | None => false
  end.

Definition wordOf (p : particle) : string :=
  match word p with
  | Some w => w
  | None => EmptyString
  end.

(** A cluster of [identifyConceptClusters]: the particle at its centre
    and the words of its members, the centre's first. *)
Record cluster : Type := mkCluster {
  center : nat;
  members : list string
}.

Definition clusterRadius : R := 4.

(** The body of the inner loop for [other = particles[j]]: what it adds
    to the cluster's members and to the [processed] set. *)
Definition joinCluster (ps : list particle) (i : nat) (p : particle) (j : nat)
  (acc : list string * list nat) : list string * list nat :=
  let '(members, processed) := acc in
  match nth_error ps j with
  | None => acc
  | Some other =>
      if negb (hasWord other) || (j =? i)%nat || existsb (Nat.eqb j) processed
      then acc
      else
        let dist :=
          V3.distanceTo (Particles.position p) (Particles.position other) in
        if ltb dist clusterRadius
        then (members ++ [wordOf other], processed ++ [j])
        else acc
  end.

(** The body of the outer loop for [particle = particles[i]]. *)
Definition growCluster (ps : list particle) (i : nat)
  (acc : list cluster * list nat) : list cluster * list nat :=
  let '(clusters, processed) := acc in
  match nth_error ps i with
  | None => acc
  | Some p =>
      if negb (hasWord p) || existsb (Nat.eqb i) processed then acc
      else
        let '(members, processed) :=
          fold_left (fun acc j => joinCluster ps i p j acc)
            (seq 0 (List.length ps)) ([wordOf p], processed) in
        if (1 <? List.length members)%nat
        then (clusters ++ [mkCluster i members], processed ++ [i])
        else (clusters, processed)
  end.

(** All clusters the loops find, with the set of processed particles. *)
Definition allClusters (ps : list particle) : list cluster * list nat :=
  fold_left (fun acc i => growCluster ps i acc) (seq 0 (List.length ps)) ([], []).

Definition identifyConceptClusters (ps : list particle) : list cluster :=
  firstn 5 (fst (allClusters ps)).

(** What a cluster is: at least two members, the first the word of its
    centre, every other the word of another particle less than
    [clusterRadius] from the centre. *)
Definition wellClustered (ps : list particle) (c : cluster) : Prop :=
  (2 <= List.length (members c))%nat /\
  exists p rest,
    nth_error ps (center c) = Some p /\ hasWord p = true /\
    members c = wordOf p :: rest /\
    forall w, In w rest ->
      exists j other,
        j <> center c /\ nth_error ps j = Some other /\
        hasWord other = true /\ wordOf other = w /\
        V3.distanceTo (Particles.position p) (Particles.position other)
          < clusterRadius.

(** An entry of [wordCurvatures]. *)
Record rated : Type := mkRated {
  ratedWord : string;
  ratedCurvature : R;
  ratedCentrality : R
}.

(** [particle.word && particle.curvature]: a curvature of 0 is falsy. *)
Definition wordCurvatures (ps : list particle) : list rated :=
  flat_map
    (fun p =>
       if hasWord p && negb (if Req_dec_T (curvature p) 0 then true else false)
       then [mkRated (wordOf p) (curvature p) (centrality p)]
       else [])
    ps.

(** [arr.sort((a, b) => key(a) - key(b))] for a finite key: the sort is
    stable, so its result is the one of any stable sort; this one inserts
    from the right. *)
Fixpoint insertBy {A : Type} (key : A -> R) (a : A) (l : list A) : list A :=
  match l with
  | [] => [a]
  | b :: tl => if leb (key a) (key b) then a :: l else b :: insertBy key a tl
  end.

Definition sortBy {A : Type} (key : A -> R) (l : list A) : list A :=
  fold_right (insertBy key) [] l.

(** [arr.slice(-n)] *)
Definition lastn {A : Type} (n : nat) (l : list A) : list A :=
  skipn (List.length l - n) l.

(** The three word lists [generateTopologyResponse] puts in its prompt.
    The second sort works on the array the first one sorted. *)
Record concepts : Type := mkConcepts {
  fundamentalConcepts : list string;
  peripheralConcepts : list string;
  centralWords : list string
}.

Definition selectConcepts (ps : list particle) : concepts :=
  let byCurvature := sortBy (fun w => - ratedCurvature w) (wordCurvatures ps) in
  let byCentrality := sortBy ratedCentrality byCurvature in
  mkConcepts
    (map ratedWord (firstn 5 byCurvature))
    (map ratedWord (lastn 3 byCurvature))
    (map ratedWord (firstn 3 byCentrality)).

End Topology.

(** ** quantum-assembly.js: word labels *)

Module Labels.

Import Js Controller.

(** The body of the loop of [updateWordLabels] for a particle that has a
    label and is [dist] from the camera: the opacity it writes. *)
Definition labelOpacity (dist now : R) (s : state) : R :=
  let minDist := 15 in
  let maxDist := 60 in
  let opacity :=
    if ltb dist minDist then Rmax 0 ((dist - 5) / (minDist - 5)) * 0.9
    else if ltb maxDist dist then Rmax 0 (1 - (dist - maxDist) / 20) * 0.9
    else 0.9 in
  if isDecaying s then
    let elapsed := now - decayStartTime s in
    let decayProgress := Rmin 1 (elapsed / CONTEXT_DECAY_DURATION) in
    opacity * (1 - decayProgress * 0.7)
  else opacity.

End Labels.

(** ** quantum-assembly.js: the attraction particles of the void layer *)

Module VoidLayer.

Import Js Particles.

(** The three colours of an attraction particle. *)
Inductive tint : Type :=
| Red
| Orange
| Yellow.

(** An entry of [attractionParticles]: its mesh (position, visibility,
    the material's opacity and colour, [userData.phase]), the particle it
    belongs to and its progress towards the void.  An opacity computed
    from a quotient by zero is [NotFinite]. *)
Record attractor : Type := mkAttractor {
  meshPosition : V3.t;
  meshVisible : bool;
  meshOpacity : result R;
  color : tint;
  phase : R;
  parent : nat;
  progress : R
}.

(** The body of [createAttractionParticles]' loop for [particles[i]]. *)
Definition attractorsOf (i : nat) (p : particle) : list attractor :=
  if (if Req_dec_T (curvature p) 0 then true else false) || leb 3 (curvature p)
  then []
  else
    let particleCount := 3%nat in
    map (fun k =>
           let color :=
             if ltb (curvature p) 1 then Red
             else if ltb (curvature p) 2 then Orange
             else Yellow in
           mkAttractor (Particles.position p) false (Ok 0.8) color
             (INR k / INR particleCount) i 0)
        (seq 0 particleCount).

Fixpoint attractorsFrom (i : nat) (ps : list particle) : list attractor :=
  match ps with
  | [] => []
  | p :: tl => attractorsOf i p ++ attractorsFrom (S i) tl
  end.

Definition createAttractionParticles (ps : list particle) : list attractor :=
  attractorsFrom 0 ps.

(** [new THREE.Vector3().lerpVectors(v1, v2, alpha)] *)
Definition lerpVectors (v1 v2 : V3.t) (alpha : R) : V3.t :=
  V3.mk (V3.x v1 + (V3.x v2 - V3.x v1) * alpha)
        (V3.y v1 + (V3.y v2 - V3.y v1) * alpha)
        (V3.z v1 + (V3.z v2 - V3.z v1) * alpha).

(** The body of [animateAttractionParticles]' loop. *)
Definition drift (ps : list particle) (a : attractor) : attractor :=
  if negb (meshVisible a) then a
  else
    match nth_error ps (parent a) with
    | None => a
    | Some p =>
        let wordPos := Particles.position p in
        let voidPos := V3.zero in
        let progress := progress a + 0.005 in
        let progress := if ltb 1 progress then 0 else progress in
        let position := lerpVectors wordPos voidPos progress in
        let distance := V3.distanceTo position voidPos in
        let maxDist := V3.distanceTo wordPos voidPos in
        mkAttractor position (meshVisible a)
          (q <- div distance maxDist ;; Ok (q * 0.8))
          (color a) (phase a) (parent a) progress
    end.

Definition animateAttractionParticles (ps : list particle)
  (attractors : list attractor) : list attractor :=
  map (drift ps) attractors.

(** The click handler of the [toggle-particles] button. *)
Definition toggleParticles (attractors : list attractor) : list attractor :=
  map (fun a =>
         mkAttractor (meshPosition a) (negb (meshVisible a)) (meshOpacity a)
           (color a) (phase a) (parent a) (progress a))
      attractors.

End VoidLayer.

(** ** quantum-assembly.js: the frames of the forward phases

    What a frame of [phaseVoid], [phaseObservation] and [phaseBonding]
    does, at normalized time [t].  Of a particle and its mesh the fields
    below are kept; rotations, trails and the flashes are rendering. *)

Module Phases.

Import Js Controller.

Record body : Type := mkBody {
  position : V3.t;
  velocity : V3.t;
  targetPosition : option V3.t;
  visible : bool;
  opacity : R;
  scale : R
}.

(** *** [phaseVoid] *)

(** [Math.max(0, Math.min(1, (t - stagger) / 0.5))] for particle [i] of
    [n]. *)
Definition appearProgress (t : R) (n i : nat) : R :=
  let stagger := INR i / INR n * 0.5 in
  Rmax 0 (Rmin 1 ((t - stagger) / 0.5)).

(** The body of the particle loop; three draws per particle. *)
Definition crystallize (random : nat -> R) (t : R) (n i c : nat) (b : body)
  : body :=
  let appearProgress := appearProgress t n i in
  let chaos := (1 - t) * 0.1 in
  let v := velocity b in
  let v := V3.mk (V3.x v + (random c - 0.5) * chaos)
                 (V3.y v + (random (c + 1)%nat - 0.5) * chaos)
                 (V3.z v + (random (c + 2)%nat - 0.5) * chaos) in
  if ltb 0 appearProgress
  then mkBody (position b) v (targetPosition b) true
         (appearProgress * 0.8) appearProgress
  else mkBody (position b) v (targetPosition b) (visible b)
         (opacity b) (scale b).

Fixpoint crystallizeFrom (random : nat -> R) (t : R) (n i c : nat)
  (bodies : list body) : list body :=
  match bodies with
  | [] => []
  | b :: tl =>
      crystallize random t n i c b
      :: crystallizeFrom random t n (S i) (c + 3) tl
  end.

(** One call of [phaseVoid]'s [animate], with the draws from [c] on. *)
Definition voidFrame (random : nat -> R) (t : R) (c : nat) (bodies : list body)
  : list body :=
  crystallizeFrom random t (List.length bodies) 0 c bodies.

(** *** [phaseObservation] *)

(** The body of the particle loop. *)
Definition settle (t : R) (b : body) : body :=
  let position :=
    match targetPosition b with
    | Some target => V3.lerp (position b) target (0.05 * (1 - t))
    | None => position b
    end in
  mkBody position (V3.multiplyScalar (velocity b) 0.9) (targetPosition b)
    (visible b) (0.8 + t * 0.2) (scale b).

(** The body of the connection loop, at [performance.now() = now]. *)
Definition glow (now t : R) (conn : connection) : connection :=
  let time := now * 0.001 in
  let pulse := sin (time * 2 + pulsePhase conn) * 0.2 in
  mkConnection (end1 conn) (end2 conn) (baseOpacity conn) (pulsePhase conn)
    (Controller.opacity conn) (0.6 + pulse + t * 0.2).

(** One call of [phaseObservation]'s [animate]. *)
Definition observationFrame (now t : R)
  (scene : list body * list connection) : list body * list connection :=
  (map (settle t) (fst scene), map (glow now t) (snd scene)).

(** *** [phaseBonding]: the connections that form

    The closure of [phaseBonding]: [connectionsPerFrame] and the index of
    the next candidate. *)
Record bonding : Type := mkBonding {
  connectionsPerFrame : nat;
  connectionIndex : nat;
  candidates : list Particles.potentialConnection;
  formedSoFar : list connection;
  draws : nat
}.

(** [Math.max(1, Math.floor(potentialConnections.length / 60))] *)
Definition startBonding (candidates : list Particles.potentialConnection)
  (formed : list connection) (c : nat) : bonding :=
  mkBonding (Nat.max 1 (List.length candidates / 60)) 0 candidates formed c.

(** [createConnectionGradual]: the beam starts invisible and dark; its
    growth, by a timer of its own, is left out. *)
Definition createConnectionGradual (random : nat -> R) (c : nat)
  (p1 p2 : nat) (distance : R) : connection :=
  mkConnection p1 p2 (0.6 * (1 - distance / Connectivity.CONNECTION_THRESHOLD))
    (random c * PI * 2) 0.0 0.0.

Definition setFormed (conn : Particles.potentialConnection)
  : Particles.potentialConnection :=
  Particles.mkPotential (Particles.p1 conn) (Particles.p2 conn)
    (Particles.distance conn) true.

(** The body of the loop that forms connections: the candidate at
    [connectionIndex] is examined, and the index moves on. *)
Definition examine (random : nat -> R) (positions : list V3.t) (b : bonding)
  : bonding :=
  match nth_error (candidates b) (connectionIndex b) with
  | None => b
  | Some conn =>
      let next := S (connectionIndex b) in
      if Particles.formed conn
      then mkBonding (connectionsPerFrame b) next (candidates b)
             (formedSoFar b) (draws b)
      else
        let dist :=
          V3.distanceTo (nth (Particles.p1 conn) positions V3.zero)
                        (nth (Particles.p2 conn) positions V3.zero) in
        if ltb dist (Connectivity.CONNECTION_THRESHOLD * 1.2)
        then mkBonding (connectionsPerFrame b) next
               (set_nth (candidates b) (connectionIndex b) (setFormed conn))
               (formedSoFar b ++
                  [createConnectionGradual random (draws b)
                     (Particles.p1 conn) (Particles.p2 conn) dist])
               (S (draws b))
        else mkBonding (connectionsPerFrame b) next (candidates b)
               (formedSoFar b) (draws b)
  end.

(** [for (i = 0; i < connectionsPerFrame && connectionIndex < length; i++)] *)
Fixpoint examineSome (random : nat -> R) (positions : list V3.t) (k : nat)
  (b : bonding) : bonding :=
  match k with
  | O => b
  | S k' =>
      if (connectionIndex b <? List.length (candidates b))%nat
      then examineSome random positions k' (examine random positions b)
      else b
  end.

(** The part of one call of [phaseBonding]'s [animate] that forms
    connections, for the positions the particles have in that frame. *)
Definition formConnections (random : nat -> R) (positions : list V3.t)
  (b : bonding) : bonding :=
  if (connectionIndex b <? List.length (candidates b))%nat
  then examineSome random positions (connectionsPerFrame b) b
  else b.

(** The frames of a bonding phase, oldest first, each with the positions
    of its particles. *)
Fixpoint bondingFrames (random : nat -> R) (frames : list (list V3.t))
  (b : bonding) : bonding :=
  match frames with
  | [] => b
  | positions :: tl => bondingFrames random tl (formConnections random positions b)
  end.

(** A beam that [createConnectionGradual] made during the bonding phase
    for one of the candidates: what its growth does not change. *)
Definition grownFrom (cands : list Particles.potentialConnection)
  (conn : connection) : Prop :=
  -0.12 < baseOpacity conn <= 0.6 /\
  exists cand,
    In cand cands /\
    end1 conn = Particles.p1 cand /\ end2 conn = Particles.p2 cand.

(** What the frames of a bonding phase keep, from the candidates and
    the connections it started with: the endpoints of the candidates, and
    that every connection added is grown from a candidate examined. *)
Definition bondingInv (cands : list Particles.potentialConnection)
  (formed : list connection) (b : bonding) : Prop :=
  map (fun c => (Particles.p1 c, Particles.p2 c)) (candidates b) =
    map (fun c => (Particles.p1 c, Particles.p2 c)) cands /\
  exists new,
    formedSoFar b = formed ++ new /\
    (List.length new <= connectionIndex b)%nat /\
    Forall (grownFrom cands) new.

End Phases.

(** ** Concrete inputs used by the examples below *)

Module Inputs.

(** The 2x2 matrix of two entities at distance 1. *)
Definition two_apart : list (list R) := [[0; 1]; [1; 0]].

Definition two_words : list string := ["mind"; "self"]%string.

(** Draws that place the two points at (-6, -8, -7.5) and (6, 8, 7.5),
    25 apart, inside the cube of side 20. *)
Definition far_draws (i : nat) : R :=
  match i with
  | 0%nat => 0.2
  | 1%nat => 0.1
  | 2%nat => 0.125
  | 3%nat => 0.8
  | 4%nat => 0.9
  | _ => 0.875
  end.

(** Draws that place the two points at (-1, 0, 0) and (1, 0, 0). *)
Definition near_draws (i : nat) : R :=
  match i with
  | 0%nat => 0.45
  | 3%nat => 0.55
  | _ => 0.5
  end.

(** A provider that answers every prompt with three lines, the second
    out of range for a similarity and the third not a number. *)
Definition three_lines : string :=
  ("0.9" ++ String (ascii_of_nat 10) "1.5" ++ String (ascii_of_nat 10) "abc")%string.

Definition answering (_ : string) : option string := Some three_lines.

(** A provider that fails. *)
Definition failing (_ : string) : option string := None.

(** [parseFloat] on the three lines above. *)
Definition parse_three (line : string) : Js.number :=
  if String.eqb line "0.9" then Js.Finite 0.9
  else if String.eqb line "1.5" then Js.Finite 1.5
  else Js.NaN.

Definition three_neighbors : list string := ["mind"; "self"; "time"]%string.

(** One core particle at the origin. *)
Definition origin_store : Fibonacci.heap := [V3.zero].

Definition core_weight_10 : list Fibonacci.coreNode := [Fibonacci.mkCore 0%nat 10].

(** The same core particle in another store, at another address. *)
Definition other_store : Fibonacci.heap := [V3.mk 1 1 1; V3.zero].

Definition core_weight_10_moved : list Fibonacci.coreNode := [Fibonacci.mkCore 1%nat 10].

(** A core particle rated 0 by the importance query. *)
Definition core_weight_0 : list Fibonacci.coreNode := [Fibonacci.mkCore 0%nat 0].

(** Three particles with targets on a line, at 0, 1 and 10. *)
Definition on_a_line : list Particles.particle :=
  map (fun target =>
         Particles.mkParticle V3.zero V3.zero true (Some target) None 0 0 None
           false None 0)
      [V3.mk 0 0 0; V3.mk 1 0 0; V3.mk 10 0 0].

(** A provider that answers, a frame motion that moves nothing, draws
    that are all 0.5. *)
Definition still (_ : Controller.phaseName) (_ : R) (w : Controller.scene)
  : Controller.scene := w.

Definition half (_ : nat) : R := 0.5.

(** The first question is in flight, waiting for its words. *)
Definition asked : Controller.state :=
  Controller.keypressEnter 0 "what is mind"
    (Controller.initial half []).

(** The controller in the attraction phase of the question
    [what is mind], started at 1100 ms. *)
Definition attracting (w : Controller.scene) (sp : Controller.space)
  : Controller.state :=
  Controller.mkState w Controller.ATTRACTION Controller.ATTRACTION
    (Some sp) (Some "what is mind"%string) 100 0 false false
    "Attraction: Forces emerging..."
    [Controller.mkChain "what is mind"
       (Controller.Animating Controller.ATTRACTION 1100)]
    [].

(** The assembled shape of the question [what is mind]; the decay
    clock started at 10 s and the decay has begun. *)
Definition decaying (w : Controller.scene) (sp : Controller.space)
  : Controller.state :=
  Controller.mkState w Controller.ASSEMBLED Controller.ASSEMBLED
    (Some sp) (Some "what is mind"%string) 100 10000 true false
    "Context fading... shape dissolving... (press SPACE to pause)"
    [] [].

(** A pool of one particle and a space of one word, small enough to run
    a whole assembly by hand. *)
Definition one_particle : list Particles.particle :=
  [Particles.mkParticle V3.zero V3.zero true None None 0 0 None false None 0].

Definition one_word : Controller.space :=
  Controller.mkSpace ["mind"%string] [7] [V3.mk 1 2 3].

(** A question asked from the initial state, up to its attraction phase. *)
Definition until_attraction : list (R * Controller.event) :=
  [(0, Controller.KeypressEnter "what is mind");
   (50, Controller.WordsReplied 0);
   (100, Controller.SpaceGenerated 0 one_word);
   (1100, Controller.AnimationFrame)].

(** The rest of that assembly, and the first frame of its decay. *)
Definition until_decay : list (R * Controller.event) :=
  [(3600, Controller.AnimationFrame);
   (6600, Controller.AnimationFrame);
   (8600, Controller.AnimationFrame);
   (9600, Controller.AnimationFrame);
   (10000, Controller.ResponseReplied 0);
   (40016, Controller.AnimationFrame)].

(** An engine whose sort with a random comparator leaves the array in
    its order. *)
Definition unsorted (_ : nat) (array : list string) : list string := array.

(** A provider that gives the three lines to every query of a
    generation. *)
Definition answering_each (_ : nat) : string -> option string := answering.

(** A provider that lists words, two of them not usable, in answer to
    the first query of a generation, and gives the three lines to the
    others. *)
Definition listed : string := " Mind, Self , a, Time-Space, x1".

Definition wording (c : nat) (_ : string) : option string :=
  match c with
  | O => Some listed
  | S _ => Some three_lines
  end.

Definition three_listed : list string := ["mind"; "self"; "time-space"]%string.


(** A space without a word, as a generation gives it when no word of
    the provider's answer passes the filter. *)
Definition no_words : Controller.space := Controller.mkSpace [] [] [].

(** The shape of the question [what is mind], asked 80 s after the page
    was loaded, stands; the response is awaited and the decay clock has
    not been started. *)
Definition awaiting_response (w : Controller.scene) (sp : Controller.space)
  : Controller.state :=
  Controller.mkState w Controller.ASSEMBLED Controller.ASSEMBLED
    (Some sp) (Some "what is mind"%string) 80100 0 false false
    "Analyzing semantic curvature..."
    [Controller.mkChain "what is mind" Controller.Responding] [].

(** That question, from the initial state to the frame that ends its
    observation phase. *)
Definition asked_late : list (R * Controller.event) :=
  [(80000, Controller.KeypressEnter "what is mind");
   (80050, Controller.WordsReplied 0);
   (80100, Controller.SpaceGenerated 0 one_word);
   (81100, Controller.AnimationFrame);
   (83600, Controller.AnimationFrame);
   (86600, Controller.AnimationFrame);
   (88600, Controller.AnimationFrame);
   (89600, Controller.AnimationFrame)].

(** A particle away from the origin and an attraction particle half way
    from it to the void. *)
Definition placed : list Particles.particle :=
  [Particles.mkParticle (V3.mk 1 2 3) V3.zero true None None 0.5 0 None
     false None 0].

Definition half_way : VoidLayer.attractor :=
  VoidLayer.mkAttractor (V3.mk 0.5 1 1.5) true (Js.Ok 0.4) VoidLayer.Red 0
    0%nat 0.5.

(** A particle of the observation phase, 10 from its target. *)
Definition approaching : list Phases.body :=
  [Phases.mkBody V3.zero (V3.mk 1 0 0) (Some (V3.mk 10 0 0)) true 0.8 1].

End Inputs.

(** * Properties *)

(** ** Numbers and vectors *)

Lemma or_default_zero d : Js.or_default 0 d = d.
Proof. unfold Js.or_default. destruct (Req_dec_T 0 0); congruence. Qed.

Lemma or_default_nonzero v d : v <> 0 -> Js.or_default v d = v.
Proof. unfold Js.or_default. destruct (Req_dec_T v 0); congruence. Qed.

Lemma or_default_neq0 v d : d <> 0 -> Js.or_default v d <> 0.
Proof. unfold Js.or_default. destruct (Req_dec_T v 0); auto. Qed.

Lemma ltb_true a b : Js.ltb a b = true <-> a < b.
Proof. unfold Js.ltb. destruct (Rlt_dec a b); split; intros; auto; discriminate. Qed.

Lemma ltb_false a b : Js.ltb a b = false <-> ~ a < b.
Proof.
  unfold Js.ltb. destruct (Rlt_dec a b); split; intros; auto; try discriminate.
  contradiction.
Qed.

Lemma leb_true a b : Js.leb a b = true <-> a <= b.
Proof. unfold Js.leb. destruct (Rle_dec a b); split; intros; auto; discriminate. Qed.

Lemma leb_false a b : Js.leb a b = false <-> ~ a <= b.
Proof.
  unfold Js.leb. destruct (Rle_dec a b); split; intros; auto; try discriminate.
  contradiction.
Qed.

Lemma v3_eq_intro a b :
  V3.x a = V3.x b -> V3.y a = V3.y b -> V3.z a = V3.z b -> a = b.
Proof. destruct a, b; simpl; intros; subst; reflexivity. Qed.

Ltac v3_eq := apply v3_eq_intro; simpl; try lra.

(** Decimal literals as quotients of integers, for [field] and [ring]. *)
Ltac dec2frac :=
  unfold Q2R; cbn [QArith_base.Qnum QArith_base.Qden].

Lemma distanceToSquared_nonneg a b : 0 <= V3.distanceToSquared a b.
Proof.
  unfold V3.distanceToSquared; cbv zeta.
  pose proof (Rle_0_sqr (V3.x a - V3.x b));
    pose proof (Rle_0_sqr (V3.y a - V3.y b));
    pose proof (Rle_0_sqr (V3.z a - V3.z b)).
  unfold Rsqr in *. lra.
Qed.

Lemma distanceTo_nonneg a b : 0 <= V3.distanceTo a b.
Proof. apply sqrt_pos. Qed.

Lemma v3_sum_app l1 l2 : V3.sum (l1 ++ l2) = V3.add (V3.sum l1) (V3.sum l2).
Proof.
  induction l1 as [|a l1 IH]; simpl.
  - v3_eq.
  - rewrite IH. v3_eq.
Qed.

(** ** The layout: loops, array updates and their invariants *)

Section LayoutLoops.

Import Js SpaceGenerator.

Lemma set_nth_length {A : Type} (l : list A) i v :
  List.length (set_nth l i v) = List.length l.
Proof.
  revert i; induction l as [|a l IH]; intros [|i]; simpl; auto.
Qed.

Lemma at_ok {A : Type} (l : list A) i :
  (i < List.length l)%nat -> exists a, nth_error l i = Some a /\ at_ l i = Ok a.
Proof.
  intros H. unfold at_.
  destruct (nth_error l i) as [a|] eqn:E.
  - eauto.
  - apply nth_error_None in E. lia.
Qed.

Lemma modify_ok {A : Type} (l : list A) i (f : A -> A) :
  (i < List.length l)%nat ->
  exists a, nth_error l i = Some a /\ modify l i f = Ok (set_nth l i (f a)).
Proof.
  intros H. destruct (at_ok l i H) as (a & E & Ea).
  exists a. split; auto. unfold modify. rewrite Ea. reflexivity.
Qed.

Lemma sum_set_nth l : forall i a v,
  nth_error l i = Some a ->
  V3.sum (set_nth l i v) = V3.add (V3.sub (V3.sum l) a) v.
Proof.
  induction l as [|b l IH]; intros [|i] a v E; simpl in *; try discriminate.
  - injection E as ->. v3_eq.
  - rewrite (IH _ _ _ E). v3_eq.
Qed.

Lemma firstn_snoc {A : Type} (l : list A) : forall i a,
  nth_error l i = Some a -> firstn (S i) l = firstn i l ++ [a].
Proof.
  induction l as [|b l IH]; intros [|i] a E; simpl in *; try discriminate.
  - injection E as ->. reflexivity.
  - f_equal. apply IH; assumption.
Qed.

Lemma sum_repeat_zero n : V3.sum (repeat V3.zero n) = V3.zero.
Proof.
  induction n as [|n IH]; simpl; auto. rewrite IH. v3_eq.
Qed.

(** The invariant rule for the counted loop: it also gives termination
    with a value, since every body does. *)
Lemma for_range_inv {S : Type} (Inv : nat -> S -> Prop) body :
  forall cnt lo s,
    Inv lo s ->
    (forall i s, (lo <= i < lo + cnt)%nat -> Inv i s ->
       exists s', body i s = Ok s' /\ Inv (Datatypes.S i) s') ->
    exists s', for_range lo cnt body s = Ok s' /\ Inv (lo + cnt)%nat s'.
Proof.
  induction cnt as [|cnt IH]; intros lo s H0 Hstep; simpl.
  - exists s. rewrite Nat.add_0_r. auto.
  - destruct (Hstep lo s ltac:(lia) H0) as (s1 & E1 & H1).
    rewrite E1. simpl.
    destruct (IH (Datatypes.S lo) s1 H1) as (s2 & E2 & H2).
    + intros i s' Hi. apply Hstep. lia.
    + exists s2. split; auto.
      replace (lo + Datatypes.S cnt)%nat with (Datatypes.S lo + cnt)%nat by lia.
      exact H2.
Qed.

Lemma dist_neq0 dx dy dz : dist dx dy dz <> 0.
Proof. unfold dist. apply or_default_neq0. lra. Qed.

Lemma dist_pos dx dy dz : 0 < dist dx dy dz.
Proof.
  unfold dist, Js.or_default.
  destruct (Req_dec_T (sqrt (dx * dx + dy * dy + dz * dz)) 0) as [E|E].
  - lra.
  - pose proof (sqrt_pos (dx * dx + dy * dy + dz * dz)). lra.
Qed.

Lemma entry_ok n d i j :
  isDistanceMatrix n d -> (i < n)%nat -> (j < n)%nat ->
  entry d i j = Ok (nth j (nth i d []) 0).
Proof.
  intros (Hlen & Hrows & _) Hi Hj. unfold entry.
  destruct (nth_error d i) as [row|] eqn:E.
  - assert (Hin : In row d) by (eapply nth_error_In; eauto).
    rewrite (nth_error_nth _ _ [] E).
    destruct (nth_error row j) as [v|] eqn:Ej.
    + rewrite (nth_error_nth _ _ 0 Ej). reflexivity.
    + apply nth_error_None in Ej. rewrite (Hrows row Hin) in Ej. lia.
  - apply nth_error_None in E. lia.
Qed.

Lemma pairForces_spec n d positions forces i j :
  isDistanceMatrix n d ->
  List.length positions = n -> List.length forces = n ->
  (i < n)%nat -> (j < n)%nat ->
  exists forces',
    pairForces positions d i j forces = Ok forces' /\
    List.length forces' = n /\ V3.sum forces' = V3.sum forces.
Proof.
  intros Hd Hp Hf Hi Hj. unfold pairForces.
  destruct (at_ok positions j ltac:(lia)) as (pj & _ & ->).
  destruct (at_ok positions i ltac:(lia)) as (pi & _ & ->).
  simpl. rewrite (entry_ok n d i j Hd Hi Hj). simpl.
  unfold div. destruct (Req_dec_T _ 0) as [E|_].
  { exfalso. eapply dist_neq0; eauto. }
  simpl.
  match goal with |- context [modify forces i ?g] =>
    destruct (modify_ok forces i g ltac:(lia)) as (fi & Ei & ->)
  end.
  simpl.
  match goal with |- context [modify ?l j ?g] =>
    destruct (modify_ok l j g) as (fj & Ej & ->)
  end.
  { rewrite set_nth_length. lia. }
  eexists. split; [reflexivity|]. split.
  - rewrite !set_nth_length. assumption.
  - rewrite (sum_set_nth _ _ _ _ Ej), (sum_set_nth _ _ _ _ Ei). v3_eq.
Qed.

Lemma calculateForces_spec n d positions :
  isDistanceMatrix n d -> List.length positions = n ->
  exists forces,
    calculateForces positions d n = Ok forces /\
    List.length forces = n /\ V3.sum forces = V3.zero.
Proof.
  intros Hd Hp. unfold calculateForces.
  destruct (for_range_inv
    (fun _ forces => List.length forces = n /\ V3.sum forces = V3.zero)
    (fun i forces =>
       for_range (Datatypes.S i) (n - Datatypes.S i)
         (fun j forces => pairForces positions d i j forces) forces)
    n 0%nat (repeat V3.zero n)) as (forces & E & Hl & Hs).
  - split; [apply repeat_length | apply sum_repeat_zero].
  - intros i forces Hi (Hl & Hs).
    destruct (for_range_inv
      (fun _ forces => List.length forces = n /\ V3.sum forces = V3.zero)
      (fun j forces => pairForces positions d i j forces)
      (n - Datatypes.S i) (Datatypes.S i) forces) as (f' & E' & H').
    + auto.
    + intros j f Hj (Hl' & Hs').
      destruct (pairForces_spec n d positions f i j Hd Hp Hl' ltac:(lia) ltac:(lia))
        as (f' & E' & Hl'' & Hs'').
      exists f'. split; auto. split; auto. congruence.
    + exists f'. split; auto.
  - exists forces. auto.
Qed.

Lemma applyForces_spec n forces positions :
  List.length forces = n -> List.length positions = n ->
  exists positions',
    applyForces forces n positions = Ok positions' /\
    List.length positions' = n /\
    V3.sum positions' =
      V3.add (V3.sum positions) (V3.multiplyScalar (V3.sum forces) 0.1).
Proof.
  intros Hf Hp. unfold applyForces.
  destruct (for_range_inv
    (fun i ps => List.length ps = n /\
       V3.sum ps = V3.add (V3.sum positions)
                     (V3.multiplyScalar (V3.sum (firstn i forces)) 0.1))
    (fun i positions =>
       bind (at_ forces i) (fun f =>
       modify positions i (fun p =>
         V3.mk (V3.x p + V3.x f * 0.1) (V3.y p + V3.y f * 0.1)
               (V3.z p + V3.z f * 0.1))))
    n 0%nat positions) as (ps & E & Hl & Hs).
  - split; auto. simpl. v3_eq.
  - intros i ps Hi (Hl & Hs).
    destruct (at_ok forces i ltac:(lia)) as (f & Ef & ->). cbn [bind].
    match goal with |- context [modify ps i ?g] =>
      destruct (modify_ok ps i g ltac:(lia)) as (a & Ea & ->)
    end.
    eexists. split; [reflexivity|]. split.
    + rewrite set_nth_length. assumption.
    + rewrite (sum_set_nth _ _ _ _ Ea), Hs, (firstn_snoc _ _ _ Ef), v3_sum_app.
      v3_eq.
  - exists ps. split; auto. split; auto.
    rewrite Hs. simpl. rewrite <- Hf, firstn_all. reflexivity.
Qed.

Lemma relax_spec n d positions :
  isDistanceMatrix n d -> List.length positions = n ->
  exists positions',
    relax d n positions = Ok positions' /\
    List.length positions' = n /\ V3.sum positions' = V3.sum positions.
Proof.
  intros Hd Hp. unfold relax.
  destruct (calculateForces_spec n d positions Hd Hp) as (forces & -> & Hl & Hs).
  simpl.
  destruct (applyForces_spec n forces positions Hl Hp) as (ps & -> & Hl' & Hs').
  exists ps. split; auto. split; auto.
  rewrite Hs', Hs. v3_eq.
Qed.

Lemma relaxations_spec n d iters positions :
  isDistanceMatrix n d -> List.length positions = n ->
  exists positions',
    relaxations iters d n positions = Ok positions' /\
    List.length positions' = n /\ V3.sum positions' = V3.sum positions.
Proof.
  intros Hd Hp. unfold relaxations.
  destruct (for_range_inv
    (fun _ ps => List.length ps = n /\ V3.sum ps = V3.sum positions)
    (fun _ ps => relax d n ps) iters 0%nat positions) as (ps & E & H).
  - auto.
  - intros i ps _ (Hl & Hs).
    destruct (relax_spec n d ps Hd Hl) as (ps' & E' & Hl' & Hs').
    exists ps'. split; auto. split; auto. congruence.
  - exists ps. auto.
Qed.

Lemma initPositions_length random n : forall c,
  List.length (initPositions random c n) = n.
Proof. induction n as [|n IH]; intros c; simpl; auto. Qed.

End LayoutLoops.

(** ** The layout: results *)

Section LayoutResults.

Import Js SpaceGenerator Inputs.


(** The layout returns, with one position per word. *)
Lemma projectTo3D_total (random : nat -> R) (words : list string)
  (d : list (list R)) :
  isDistanceMatrix (List.length words) d ->
  exists positions,
    projectTo3D random words d = Ok positions /\
    List.length positions = List.length words.
Proof.
  intros Hd. unfold projectTo3D.
  destruct (relaxations_spec (List.length words) d iterations
              (initPositions random 0 (List.length words)) Hd
              (initPositions_length _ _ _)) as (ps & E & Hl & _).
  exists ps. auto.
Qed.

(** The all-zero matrix is a distance matrix too. *)
Lemma zero_matrix n : isDistanceMatrix n (repeat (repeat 0 n) n).
Proof.
  assert (Hrow : forall i, nth i (repeat (repeat 0 n) n) [] = repeat 0 n \/
                           nth i (repeat (repeat 0 n) n) [] = []).
  { intros i. destruct (nth_in_or_default i (repeat (repeat 0 n) n) []) as [H|H].
    - left. eapply repeat_spec; eauto.
    - right. assumption. }
  assert (H0 : forall i j, nth j (nth i (repeat (repeat 0 n) n) []) 0 = 0).
  { intros i j. destruct (Hrow i) as [-> | ->].
    - destruct (nth_in_or_default j (repeat 0 n) 0) as [H|H]; auto.
      eapply repeat_spec; eauto.
    - destruct j; reflexivity. }
  unfold isDistanceMatrix. repeat split.
  - apply repeat_length.
  - intros row Hin. apply repeat_spec in Hin. subst. apply repeat_length.
  - intros. rewrite !H0. reflexivity.
  - intros. apply H0.
  - intros. rewrite H0. lra.
Qed.

(** The degenerate input: whatever the draws, the layout of the all-zero
    matrix returns one position per word. *)
Lemma layout_all_zero (random : nat -> R) (words : list string) :
  exists positions,
    projectTo3D random words
      (repeat (repeat 0 (List.length words)) (List.length words)) = Ok positions /\
    List.length positions = List.length words.
Proof. apply projectTo3D_total. apply zero_matrix. Qed.


End LayoutResults.

(** ** The layout of two entities at distance 1 *)

Section LayoutTwo.

Import Js SpaceGenerator Inputs.

Lemma pow98_scaled : IZR (100 ^ 100) * 0.98 ^ 100 = IZR (98 ^ 100).
Proof.
  assert (H : IZR 100 ^ 100 * 0.98 ^ 100 = IZR 98 ^ 100).
  { rewrite <- Rpow_mult_distr. f_equal. lra. }
  rewrite !pow_IZR in H. exact H.
Qed.

(** 0.98^100 is about 0.1326. *)
Lemma pow98_bounds : 1 / 10 < 0.98 ^ 100 <= 3 / 22.
Proof.
  pose proof pow98_scaled as H.
  assert (H1 : (100 ^ 100 < 10 * 98 ^ 100)%Z) by (vm_compute; reflexivity).
  assert (H2 : (22 * 98 ^ 100 <= 3 * 100 ^ 100)%Z) by (vm_compute; discriminate).
  assert (H0 : (0 < 100 ^ 100)%Z) by (vm_compute; reflexivity).
  apply IZR_lt in H1, H0. apply IZR_le in H2.
  rewrite mult_IZR in H1. rewrite !mult_IZR in H2.
  set (a := IZR (100 ^ 100)) in *. set (b := IZR (98 ^ 100)) in *.
  set (p := 0.98 ^ 100) in *. clearbody a b p.
  split.
  - apply Rmult_lt_reg_l with a; [lra|]. rewrite H. lra.
  - apply Rmult_le_reg_l with a; [lra|]. rewrite H. lra.
Qed.

Lemma distanceTo_sym a b : V3.distanceTo a b = V3.distanceTo b a.
Proof.
  unfold V3.distanceTo, V3.distanceToSquared; cbv zeta. f_equal. ring.
Qed.

(** One iteration on two points, computed. *)
Lemma relax_two p0 p1 :
  let dx := V3.x p1 - V3.x p0 in
  let dy := V3.y p1 - V3.y p0 in
  let dz := V3.z p1 - V3.z p0 in
  let force := k * (dist dx dy dz - 1 * 10) / dist dx dy dz in
  relax two_apart 2 [p0; p1] =
    Ok [V3.mk (V3.x p0 + (0 + force * dx) * 0.1)
              (V3.y p0 + (0 + force * dy) * 0.1)
              (V3.z p0 + (0 + force * dz) * 0.1);
        V3.mk (V3.x p1 + (0 - force * dx) * 0.1)
              (V3.y p1 + (0 - force * dy) * 0.1)
              (V3.z p1 + (0 - force * dz) * 0.1)].
Proof.
  intros dx dy dz force.
  unfold relax, calculateForces, applyForces, pairForces.
  cbn [for_range bind at_ nth_error Nat.sub repeat two_apart entry modify set_nth].
  unfold div. fold dx dy dz.
  destruct (Req_dec_T (dist dx dy dz) 0) as [E|_].
  { exfalso. eapply dist_neq0; eauto. }
  cbn [for_range bind at_ nth_error Nat.sub repeat two_apart entry modify
       set_nth V3.x V3.y V3.z V3.zero].
  reflexivity.
Qed.

(** One iteration maps a separation [D > 0] to [0.98 * D + 0.2]. *)
Lemma relax_two_distance p0 p1 :
  0 < V3.distanceTo p1 p0 ->
  exists q0 q1,
    relax two_apart 2 [p0; p1] = Ok [q0; q1] /\
    V3.distanceTo q1 q0 = 0.98 * V3.distanceTo p1 p0 + 0.2.
Proof.
  intros HD. rewrite relax_two.
  eexists; eexists; split; [reflexivity|].
  unfold V3.distanceTo, V3.distanceToSquared in *; cbv zeta in *.
  cbn [V3.x V3.y V3.z].
  set (dx := V3.x p1 - V3.x p0) in *.
  set (dy := V3.y p1 - V3.y p0) in *.
  set (dz := V3.z p1 - V3.z p0) in *.
  set (S := dx * dx + dy * dy + dz * dz) in *.
  assert (Hdist : dist dx dy dz = sqrt S).
  { unfold dist. fold S. apply or_default_nonzero. lra. }
  rewrite Hdist. unfold k.
  set (D := sqrt S) in *.
  set (c := (0.98 * D + 0.2) / D).
  assert (Hc : 0 <= c).
  { unfold c. apply Rlt_le, Rdiv_lt_0_compat; lra. }
  assert (HS : 0 <= S).
  { unfold S. pose proof (Rle_0_sqr dx); pose proof (Rle_0_sqr dy);
      pose proof (Rle_0_sqr dz). unfold Rsqr in *. lra. }
  match goal with |- sqrt ?e = _ => replace e with ((c * c) * S) end.
  - rewrite sqrt_mult by (auto; nra). rewrite sqrt_square by assumption.
    fold D. unfold c. dec2frac. field. lra.
  - unfold c, S, dx, dy, dz. dec2frac. field. lra.
Qed.

Lemma relaxations_two : forall iters lo p0 p1,
  0 < V3.distanceTo p1 p0 ->
  exists q0 q1,
    for_range lo iters (fun _ ps => relax two_apart 2 ps) [p0; p1] = Ok [q0; q1] /\
    V3.distanceTo q1 q0 = 10 + 0.98 ^ iters * (V3.distanceTo p1 p0 - 10).
Proof.
  induction iters as [|iters IH]; intros lo p0 p1 HD.
  - exists p0, p1. split; [reflexivity|]. simpl. lra.
  - destruct (relax_two_distance p0 p1 HD) as (r0 & r1 & E & Hr).
    cbn [for_range]. rewrite E. cbn [bind].
    destruct (IH (S lo) r0 r1) as (q0 & q1 & E' & Hq); [lra|].
    exists q0, q1. split; [exact E'|].
    rewrite Hq, Hr. simpl pow. dec2frac. field.
Qed.

(** With coincident initial points nothing ever moves. *)
Lemma relax_two_coincident p : relax two_apart 2 [p; p] = Ok [p; p].
Proof.
  rewrite relax_two. f_equal. f_equal; [|f_equal]; v3_eq; ring.
Qed.

(** The closed form of the final distance from distinct initial points. *)
Lemma layout_two_distance (random : nat -> R) p0 p1 :
  initPositions random 0 2 = [p0; p1] ->
  0 < V3.distanceTo p0 p1 ->
  exists q0 q1,
    projectTo3D random two_words two_apart = Ok [q0; q1] /\
    V3.distanceTo q0 q1 = 10 + 0.98 ^ 100 * (V3.distanceTo p0 p1 - 10).
Proof.
  intros Hinit HD.
  unfold projectTo3D, relaxations. cbn [two_words List.length].
  rewrite Hinit.
  rewrite (distanceTo_sym p0 p1) in *.
  destruct (relaxations_two iterations 0%nat p0 p1 HD) as (q0 & q1 & E & Hq).
  exists q0, q1. split; [exact E|].
  rewrite (distanceTo_sym q0 q1). exact Hq.
Qed.

(** C4, as amended.  For the matrix [[0,1],[1,0]] and an initial
    placement in the cube of side 20 whose two points are distinct and at
    most [10 + 1.5 / 0.98^100] (about 21.3) apart, the distance between
    the two positions returned after the 100 iterations is within 15% of
    10. *)
Theorem layout_two_within_tolerance (random : nat -> R) :
  (forall i, 0 <= random i < 1) ->
  forall p0 p1, initPositions random 0 2 = [p0; p1] ->
  0 < V3.distanceTo p0 p1 <= 10 + 1.5 / 0.98 ^ 100 ->
  exists q0 q1,
    projectTo3D random two_words two_apart = Ok [q0; q1] /\
    8.5 <= V3.distanceTo q0 q1 <= 11.5.
Proof.
  intros _ p0 p1 Hinit [HD Hle].
  destruct (layout_two_distance random p0 p1 Hinit HD) as (q0 & q1 & E & Hq).
  exists q0, q1. split; [exact E|].
  rewrite Hq.
  pose proof pow98_bounds as [Hlo Hhi].
  set (c := 0.98 ^ 100) in *. clearbody c.
  set (D := V3.distanceTo p0 p1) in *. clearbody D.
  assert (Hc : c * (D - 10) <= 1.5).
  { apply Rmult_le_reg_r with (/ c); [apply Rinv_0_lt_compat; lra|].
    replace (c * (D - 10) * / c) with (D - 10) by (field; lra).
    unfold Rdiv in Hle. lra. }
  split; nra.
Qed.

(** Beyond that separation the result is more than 15% above 10. *)
Lemma layout_two_beyond_tolerance (random : nat -> R) p0 p1 :
  initPositions random 0 2 = [p0; p1] ->
  10 + 1.5 / 0.98 ^ 100 < V3.distanceTo p0 p1 ->
  exists q0 q1,
    projectTo3D random two_words two_apart = Ok [q0; q1] /\
    11.5 < V3.distanceTo q0 q1.
Proof.
  intros Hinit Hgt.
  pose proof pow98_bounds as [Hlo Hhi].
  assert (Hpos : 0 < 1.5 / 0.98 ^ 100).
  { apply Rdiv_lt_0_compat; lra. }
  destruct (layout_two_distance random p0 p1 Hinit ltac:(lra))
    as (q0 & q1 & E & Hq).
  exists q0, q1. split; [exact E|].
  rewrite Hq.
  set (c := 0.98 ^ 100) in *. clearbody c.
  set (D := V3.distanceTo p0 p1) in *. clearbody D.
  assert (Hc : 1.5 < c * (D - 10)).
  { apply Rmult_lt_reg_r with (/ c); [apply Rinv_0_lt_compat; lra|].
    replace (c * (D - 10) * / c) with (D - 10) by (field; lra).
    unfold Rdiv in Hgt. lra. }
  lra.
Qed.

Lemma near_draws_range i : 0 <= near_draws i < 1.
Proof.
  unfold near_draws.
  destruct i as [|[|[|[|i]]]]; lra.
Qed.

Lemma near_draws_init :
  initPositions near_draws 0 2 = [V3.mk (-1) 0 0; V3.mk 1 0 0].
Proof.
  unfold initPositions, near_draws; cbn [Nat.add].
  repeat f_equal; lra.
Qed.

Lemma layout_two_within_tolerance_witness :
  exists q0 q1,
    projectTo3D near_draws two_words two_apart = Ok [q0; q1] /\
    8.5 <= V3.distanceTo q0 q1 <= 11.5.
Proof.
  apply (layout_two_within_tolerance near_draws near_draws_range
           (V3.mk (-1) 0 0) (V3.mk 1 0 0) near_draws_init).
  unfold V3.distanceTo, V3.distanceToSquared; cbn [V3.x V3.y V3.z].
  replace (_ + _) with (2 * 2) by lra.
  rewrite sqrt_square by lra.
  assert (0 < 1.5 / 0.98 ^ 100).
  { apply Rdiv_lt_0_compat; [lra | apply pow_lt; lra]. }
  lra.
Defined.


Lemma far_draws_range i : 0 <= far_draws i < 1.
Proof.
  unfold far_draws.
  destruct i as [|[|[|[|[|i]]]]]; lra.
Qed.

(** C4, as stated, fails: from two points 25 apart inside the cube the
    100 iterations end more than 15% above 10. *)
Lemma far_draws_init :
  initPositions far_draws 0 2 = [V3.mk (-6) (-8) (-7.5); V3.mk 6 8 7.5].
Proof.
  unfold initPositions, far_draws; cbn [Nat.add].
  repeat f_equal; lra.
Qed.

(** C4, as stated, fails: from two points 25 apart inside the cube the
    100 iterations end at [10 + 15 * 0.98^100], more than 15% above 10. *)
Lemma layout_two_far_counterexample :
  (forall i, 0 <= far_draws i < 1) /\
  exists q0 q1,
    projectTo3D far_draws two_words two_apart = Ok [q0; q1] /\
    ~ (8.5 <= V3.distanceTo q0 q1 <= 11.5).
Proof.
  split; [exact far_draws_range|].
  assert (HD : V3.distanceTo (V3.mk (-6) (-8) (-7.5)) (V3.mk 6 8 7.5) = 25).
  { unfold V3.distanceTo, V3.distanceToSquared; cbn [V3.x V3.y V3.z].
    replace (_ + _) with (25 * 25) by lra. apply sqrt_square. lra. }
  destruct (layout_two_distance far_draws _ _ far_draws_init)
    as (q0 & q1 & E & Hq).
  - rewrite HD. lra.
  - exists q0, q1. split; [exact E|].
    rewrite Hq, HD. pose proof pow98_bounds as [Hlo _]. lra.
Qed.

Lemma relaxations_coincident p : forall iters lo,
  for_range lo iters (fun _ ps => relax two_apart 2 ps) [p; p] = Ok [p; p].
Proof.
  induction iters as [|n IH]; intros lo; cbn [for_range]; auto.
  rewrite relax_two_coincident. cbn [bind]. apply IH.
Qed.

(** Nor does it hold from coincident initial points: they never part. *)
Lemma layout_two_coincident (random : nat -> R) p :
  initPositions random 0 2 = [p; p] ->
  projectTo3D random two_words two_apart = Ok [p; p].
Proof.
  intros Hinit. unfold projectTo3D, relaxations. cbn [two_words List.length].
  rewrite Hinit. apply relaxations_coincident.
Qed.

End LayoutTwo.

(** ** The layout on doubles

    The layout of [Layout] keeps its coordinates in the range of
    doubles as long as the matrix is one that [generateSpace] builds;
    an entry near [Number.MAX_VALUE] takes it out of the range. *)

Section DoubleRange.

Import Js Double.

Lemma pow2_pos n : 0 < 2 ^ n.
Proof. apply pow_lt. lra. Qed.

Lemma pow2_le m n : (m <= n)%nat -> 2 ^ m <= 2 ^ n.
Proof. intros H. apply Rle_pow; [lra|assumption]. Qed.

Lemma MAX_VALUE_above : 2 ^ 1023 <= MAX_VALUE.
Proof.
  unfold MAX_VALUE. pose proof (pow2_pos 1023) as Hp.
  assert (H : / 2 ^ 52 <= 1).
  { rewrite <- Rinv_1. apply Rinv_le_contravar; [lra|].
    pose proof (pow2_le 0 52 ltac:(lia)) as H. simpl in H. lra. }
  set (P := 2 ^ 1023) in *. set (e := / 2 ^ 52) in *. nra.
Qed.


Lemma MAX_VALUE_pow n : (n <= 1023)%nat -> 2 ^ n <= MAX_VALUE.
Proof.
  intros H. eapply Rle_trans; [apply pow2_le; exact H|apply MAX_VALUE_above].
Qed.

Lemma HALF_MIN_pos : 0 < HALF_MIN.
Proof. apply Rinv_0_lt_compat, pow2_pos. Qed.

Lemma HALF_MIN_pow n : (n <= 1075)%nat -> HALF_MIN <= / 2 ^ n.
Proof.
  intros H. unfold HALF_MIN.
  apply Rinv_le_contravar; [apply pow2_pos|apply pow2_le; assumption].
Qed.

Lemma HALF_MIN_small : HALF_MIN <= / 1024.
Proof.
  replace 1024 with (2 ^ 10) by (simpl; lra). apply HALF_MIN_pow. lia.
Qed.

Lemma flush_abs r : Rabs (flush r) <= Rabs r.
Proof.
  unfold flush. destruct (leb _ _); [|lra].
  rewrite Rabs_R0. apply Rabs_pos.
Qed.

Lemma flush_cases r :
  (flush r = r /\ HALF_MIN < Rabs r) \/ (flush r = 0 /\ Rabs r <= HALF_MIN).
Proof.
  unfold flush. destruct (leb _ _) eqn:E.
  - right. apply leb_true in E. auto.
  - left. apply leb_false in E. split; [reflexivity|lra].
Qed.

Lemma flush_nonneg r : 0 <= r -> 0 <= flush r.
Proof. intros H. destruct (flush_cases r) as [[-> _] | [-> _]]; lra. Qed.

Lemma flush_le r : 0 <= r -> flush r <= r.
Proof. intros H. destruct (flush_cases r) as [[-> _] | [-> _]]; lra. Qed.

(** A result that is zero or above the least double is itself. *)
Lemma flush_gap r : r = 0 \/ HALF_MIN < r -> flush r = r.
Proof.
  intros [-> | H]; unfold flush.
  - destruct (leb _ _); reflexivity.
  - destruct (leb _ _) eqn:E; [|reflexivity].
    apply leb_true in E. pose proof HALF_MIN_pos.
    rewrite Rabs_pos_eq in E by lra. lra.
Qed.

Lemma flush_0 : flush 0 = 0.
Proof. apply flush_gap. auto. Qed.

Lemma fromReal_finite r : Rabs r <= MAX_VALUE -> fromReal r = Finite (flush r).
Proof.
  intros H. unfold fromReal.
  destruct (ltb MAX_VALUE r) eqn:E1.
  { apply ltb_true in E1. pose proof (Rle_abs r). lra. }
  destruct (ltb r (- MAX_VALUE)) eqn:E2.
  { apply ltb_true in E2. pose proof (Rle_abs (- r)).
    rewrite Rabs_Ropp in *. lra. }
  reflexivity.
Qed.


Lemma add_finite a b :
  Rabs (a + b) <= MAX_VALUE -> add (Finite a) (Finite b) = Finite (flush (a + b)).
Proof. apply fromReal_finite. Qed.

Lemma sub_finite a b :
  Rabs (a - b) <= MAX_VALUE -> sub (Finite a) (Finite b) = Finite (flush (a - b)).
Proof. apply fromReal_finite. Qed.

Lemma mul_finite a b :
  Rabs (a * b) <= MAX_VALUE -> mul (Finite a) (Finite b) = Finite (flush (a * b)).
Proof. apply fromReal_finite. Qed.

Lemma div_finite a b :
  b <> 0 -> Rabs (a / b) <= MAX_VALUE ->
  div (Finite a) (Finite b) = Finite (flush (a / b)).
Proof.
  intros Hb H. unfold div. destruct (Req_dec_T b 0); [contradiction|].
  apply fromReal_finite. assumption.
Qed.

Lemma sqrt_finite a :
  0 <= a -> Rabs (R_sqrt.sqrt a) <= MAX_VALUE ->
  sqrt (Finite a) = Finite (flush (R_sqrt.sqrt a)).
Proof.
  intros Ha H. unfold sqrt. destruct (ltb a 0) eqn:E.
  { apply ltb_true in E. lra. }
  apply fromReal_finite. assumption.
Qed.

End DoubleRange.

Section LayoutPairs.

Import Js Double Layout.

(** The square of a coordinate difference, as the double holds it. *)
Lemma square_flushed d :
  (flush (d * d) = d * d /\ HALF_MIN < d * d) \/
  (flush (d * d) = 0 /\ d * d <= HALF_MIN).
Proof.
  assert (H : 0 <= d * d) by nra.
  destruct (flush_cases (d * d)) as [[E Hd] | [E Hd]];
    rewrite Rabs_pos_eq in Hd by assumption; auto.
Qed.

Lemma abs_le_sqrt d s : d * d <= s -> Rabs d <= R_sqrt.sqrt s.
Proof.
  intros H. rewrite <- sqrt_Rsqr_abs. apply sqrt_le_1_alt. exact H.
Qed.

(** The divisor of a pair: it is at least 2^-538, it is at least every
    coordinate difference, and it is at most twice their bound. *)
Lemma dist_finite dx dy dz D :
  Rabs dx <= D -> Rabs dy <= D -> Rabs dz <= D ->
  1 <= D -> D <= 2 ^ 505 ->
  exists r,
    dist (Finite dx) (Finite dy) (Finite dz) = Finite r /\
    / 2 ^ 538 <= r <= 2 * D /\
    Rabs dx <= r /\ Rabs dy <= r /\ Rabs dz <= r.
Proof.
  intros Hx Hy Hz H1 HD.
  assert (Hsq : forall d, Rabs d <= D -> d * d <= D * D).
  { intros d Hd. rewrite <- (Rabs_pos_eq (d * d)) by nra.
    rewrite Rabs_mult. pose proof (Rabs_pos d). nra. }
  assert (HDD : D * D <= 2 ^ 1010).
  { replace (2 ^ 1010) with (2 ^ 505 * 2 ^ 505)
      by (rewrite <- pow_add; reflexivity).
    pose proof (pow2_pos 505). set (P := 2 ^ 505) in *. nra. }
  assert (Hmax : 4 * 2 ^ 1010 <= MAX_VALUE).
  { replace (4 * 2 ^ 1010) with (2 ^ 1012)
      by (replace 4 with (2 ^ 2) by (simpl; lra);
          rewrite <- pow_add; reflexivity).
    apply MAX_VALUE_pow. lia. }
  pose proof (Hsq dx Hx) as Hxx. pose proof (Hsq dy Hy) as Hyy.
  pose proof (Hsq dz Hz) as Hzz.
  pose proof HALF_MIN_pos as Hh. pose proof HALF_MIN_small as Hhs.
  set (Q := 2 ^ 1010) in *. clearbody Q. clear HD.
  unfold dist.
  assert (Hfl : forall v, 0 <= v -> v <= 4 * Q -> Rabs v <= MAX_VALUE).
  { intros v H0 Hv. rewrite Rabs_pos_eq by assumption. lra. }
  assert (Hpx : 0 <= dx * dx) by apply Rle_0_sqr.
  assert (Hpy : 0 <= dy * dy) by apply Rle_0_sqr.
  assert (Hpz : 0 <= dz * dz) by apply Rle_0_sqr.
  rewrite (mul_finite dx dx) by (apply Hfl; lra).
  rewrite (mul_finite dy dy) by (apply Hfl; lra).
  rewrite (mul_finite dz dz) by (apply Hfl; lra).
  set (sx := flush (dx * dx)). set (sy := flush (dy * dy)).
  set (sz := flush (dz * dz)).
  assert (Hsx : (sx = dx * dx /\ HALF_MIN < dx * dx) \/
                (sx = 0 /\ dx * dx <= HALF_MIN)) by apply square_flushed.
  assert (Hsy : (sy = dy * dy /\ HALF_MIN < dy * dy) \/
                (sy = 0 /\ dy * dy <= HALF_MIN)) by apply square_flushed.
  assert (Hsz : (sz = dz * dz /\ HALF_MIN < dz * dz) \/
                (sz = 0 /\ dz * dz <= HALF_MIN)) by apply square_flushed.
  clearbody sx sy sz.
  assert (HD0 : 0 <= D * D) by apply Rle_0_sqr.
  assert (Bx : 0 <= sx <= D * D) by (destruct Hsx as [[-> ?]|[-> ?]]; lra).
  assert (By : 0 <= sy <= D * D) by (destruct Hsy as [[-> ?]|[-> ?]]; lra).
  assert (Bz : 0 <= sz <= D * D) by (destruct Hsz as [[-> ?]|[-> ?]]; lra).
  rewrite (add_finite sx sy) by (apply Hfl; lra).
  rewrite (flush_gap (sx + sy))
    by (destruct Hsx as [[? ?]|[? ?]]; destruct Hsy as [[? ?]|[? ?]];
        first [left; lra | right; lra]).
  rewrite (add_finite (sx + sy) sz) by (apply Hfl; lra).
  assert (Hgap : sx + sy + sz = 0 \/ HALF_MIN < sx + sy + sz).
  { destruct Hsx as [[? ?]|[? ?]]; destruct Hsy as [[? ?]|[? ?]];
      destruct Hsz as [[? ?]|[? ?]];
      first [left; lra | right; lra]. }
  rewrite (flush_gap _ Hgap).
  set (s := sx + sy + sz) in *.
  assert (Hs : 0 <= s <= 3 * (D * D)) by (unfold s; lra).
  assert (Hrt : R_sqrt.sqrt s <= 2 * D).
  { rewrite <- (sqrt_square (2 * D)) by lra.
    apply sqrt_le_1_alt. nra. }
  pose proof (sqrt_pos s) as Hrp.
  rewrite (sqrt_finite s) by (try apply Hfl; try lra; nra).
  assert (Hsmall : forall d sd,
            (sd = d * d /\ HALF_MIN < d * d) \/
            (sd = 0 /\ d * d <= HALF_MIN) ->
            0 <= sd <= s ->
            (s = 0 -> Rabs d <= 0.1) /\ (HALF_MIN < s -> d * d <= s)).
  { intros d sd Hsd Hle. split.
    - intros E0. destruct Hsd as [[-> ?]|[_ Hd]]; [lra|].
      replace 0.1 with (R_sqrt.sqrt (0.1 * 0.1)) by (apply sqrt_square; lra).
      apply abs_le_sqrt. lra.
    - intros Hlt. destruct Hsd as [[-> ?]|[_ Hd]]; lra. }
  destruct (Hsmall dx sx Hsx ltac:(unfold s; lra)) as [Zx Lx].
  destruct (Hsmall dy sy Hsy ltac:(unfold s; lra)) as [Zy Ly].
  destruct (Hsmall dz sz Hsz ltac:(unfold s; lra)) as [Zz Lz].
  assert (Hlow : / 2 ^ 538 <= / 16).
  { replace 16 with (2 ^ 4) by (simpl; lra).
    apply Rinv_le_contravar; [apply pow2_pos|apply pow2_le; lia]. }
  destruct Hgap as [Es | Hlt].
  - (* every square was too small for a double *)
    rewrite Es, sqrt_0, flush_0. cbn [or_default].
    destruct (Req_dec_T 0 0) as [_|C]; [|contradiction].
    exists 0.1. split; [reflexivity|].
    split; [lra|]. auto.
  - assert (Hroot : HALF_MIN < R_sqrt.sqrt s).
    { destruct (Rlt_le_dec HALF_MIN (R_sqrt.sqrt s)) as [?|Hle]; [assumption|].
      exfalso. pose proof (sqrt_sqrt s ltac:(lra)) as Hss. nra. }
    rewrite (flush_gap (R_sqrt.sqrt s)) by (right; exact Hroot).
    cbn [or_default].
    destruct (Req_dec_T (R_sqrt.sqrt s) 0) as [C|_]; [lra|].
    exists (R_sqrt.sqrt s). split; [reflexivity|].
    split; [split; [|assumption]|].
    + rewrite <- (Rabs_pos_eq (/ 2 ^ 538))
        by (left; apply Rinv_0_lt_compat, pow2_pos).
      apply abs_le_sqrt.
      rewrite <- Rinv_mult, <- pow_add.
      pose proof (HALF_MIN_pow 1075 ltac:(lia)) as Hp.
      assert (Hq : / 2 ^ (538 + 538) <= / 2 ^ 1075).
      { apply Rinv_le_contravar; [apply pow2_pos|apply pow2_le; lia]. }
      unfold HALF_MIN in *. lra.
    + split; [|split]; apply abs_le_sqrt; auto.
Qed.

(** The force of a pair times a coordinate difference stays within a tenth
    of the divisor plus the target distance. *)
Lemma force_finite r t :
  / 2 ^ 538 <= r -> r <= 2 ^ 510 -> 0 <= t <= 10 ->
  exists f,
    force (Finite r) (Finite t) = Finite f /\
    Rabs f * r <= 0.1 * (r + 10).
Proof.
  intros Hlo Hhi Ht.
  assert (Hr : 0 < r).
  { pose proof (Rinv_0_lt_compat _ (pow2_pos 538)). lra. }
  assert (Hbig : 2 ^ 510 + 10 <= MAX_VALUE).
  { pose proof (MAX_VALUE_pow 511 ltac:(lia)) as H.
    change (2 ^ 511) with (2 * 2 ^ 510) in H.
    pose proof (pow2_le 4 510 ltac:(lia)) as H4.
    replace (2 ^ 4) with 16 in H4 by (simpl; lra).
    set (P := 2 ^ 510) in *. lra. }
  assert (Hinv : / r <= 2 ^ 538).
  { rewrite <- (Rinv_inv (2 ^ 538)).
    apply Rinv_le_contravar; [apply Rinv_0_lt_compat, pow2_pos|assumption]. }
  assert (Hq : 0.1 + 2 ^ 538 <= MAX_VALUE).
  { pose proof (MAX_VALUE_pow 539 ltac:(lia)) as H.
    change (2 ^ 539) with (2 * 2 ^ 538) in H.
    pose proof (pow2_le 0 538 ltac:(lia)) as H0.
    replace (2 ^ 0) with 1 in H0 by (simpl; lra).
    set (P := 2 ^ 538) in *. lra. }
  set (P := 2 ^ 510) in *. set (I := 2 ^ 538) in *.
  clearbody P I.
  unfold force, k.
  assert (He : Rabs (r - t) <= r + 10).
  { apply Rabs_le. lra. }
  rewrite (sub_finite r t) by lra.
  pose proof (flush_abs (r - t)) as He'.
  set (e := flush (r - t)) in *. clearbody e.
  assert (Hke : Rabs (0.1 * e) <= 0.1 * (r + 10)).
  { rewrite Rabs_mult, (Rabs_pos_eq 0.1) by lra. lra. }
  rewrite (mul_finite 0.1 e) by lra.
  pose proof (flush_abs (0.1 * e)) as Hke'.
  set (ke := flush (0.1 * e)) in *. clearbody ke.
  assert (Hf : Rabs (ke / r) * r <= 0.1 * (r + 10)).
  { unfold Rdiv. rewrite Rabs_mult, (Rabs_pos_eq (/ r))
      by (left; apply Rinv_0_lt_compat; assumption).
    rewrite Rmult_assoc, Rinv_l by lra. lra. }
  assert (Hfm : Rabs (ke / r) <= MAX_VALUE).
  { assert (Rabs (ke / r) <= 0.1 + I); [|lra].
    unfold Rdiv. rewrite Rabs_mult, (Rabs_pos_eq (/ r))
      by (left; apply Rinv_0_lt_compat; assumption).
    assert (H1 : Rabs ke * / r <= (0.1 * (r + 10)) * / r).
    { apply Rmult_le_compat_r; [left; apply Rinv_0_lt_compat; assumption|lra]. }
    replace (0.1 * (r + 10) * / r) with (0.1 * (r * / r) + / r) in H1 by lra.
    rewrite Rinv_r in H1 by lra. lra. }
  rewrite (div_finite ke r) by lra.
  exists (flush (ke / r)). split; [reflexivity|].
  pose proof (flush_abs (ke / r)). nra.
Qed.

End LayoutPairs.

Section LayoutSteps.

Import Js Double Layout.

Lemma within_weaken B B' p : B <= B' -> within B p -> within B' p.
Proof.
  intros H (a & b & c & -> & Ha & Hb & Hc).
  exists a, b, c. repeat split; auto; lra.
Qed.

Lemma Forall_set_nth {A : Type} (P : A -> Prop) (l : list A) : forall i v,
  Forall P l -> P v -> Forall P (set_nth l i v).
Proof.
  induction l as [|a tl IH]; intros [|i] v Hl Hv; simpl; auto;
    inversion Hl; subst; constructor; auto.
Qed.

Lemma Forall_at {A : Type} (P : A -> Prop) (l : list A) i :
  Forall P l -> (i < List.length l)%nat ->
  exists a, nth_error l i = Some a /\ at_ l i = Ok a /\ P a.
Proof.
  intros Hl Hi. destruct (at_ok l i Hi) as (a & E & Ea).
  exists a. repeat split; auto.
  rewrite Forall_forall in Hl. apply Hl. eapply nth_error_In; eauto.
Qed.

Lemma abs_bounds a B : Rabs a <= B -> - B <= a <= B.
Proof.
  intros H. pose proof (Rle_abs a). pose proof (Rle_abs (- a)) as H'.
  rewrite Rabs_Ropp in H'. lra.
Qed.

Lemma abs_sub a b B : Rabs a <= B -> Rabs b <= B -> Rabs (a - b) <= 2 * B.
Proof.
  intros Ha Hb. apply Rabs_le.
  apply abs_bounds in Ha. apply abs_bounds in Hb. lra.
Qed.

Lemma abs_add a b A B : Rabs a <= A -> Rabs b <= B -> Rabs (a + b) <= A + B.
Proof.
  intros Ha Hb. eapply Rle_trans; [apply Rabs_triang|lra].
Qed.

(** One pair: both forces move by at most [0.4 * B + 1] in every
    coordinate. *)
Lemma pairForces_within n dm positions forces i j B M t :
  1 <= B -> B <= 2 ^ 500 -> 0 <= M -> M + (0.4 * B + 1) <= MAX_VALUE ->
  List.length positions = n -> Forall (within B) positions ->
  List.length forces = n -> Forall (within M) forces ->
  (i < n)%nat -> (j < n)%nat -> i <> j ->
  entry dm i j = Ok (Finite t) -> 0 <= t <= 1 ->
  exists forces',
    pairForces positions dm i j forces = Ok forces' /\
    List.length forces' = n /\
    Forall (within (M + (0.4 * B + 1))) forces'.
Proof.
  intros HB1 HB HM Hrange Hp Hpw Hf Hfw Hi Hj Hne He Ht.
  pose proof MAX_VALUE_above as Hmax.
  unfold pairForces.
  destruct (Forall_at _ positions j Hpw ltac:(lia))
    as (pj & _ & -> & (xj & yj & zj & -> & Hxj & Hyj & Hzj)).
  destruct (Forall_at _ positions i Hpw ltac:(lia))
    as (pi & _ & -> & (xi & yi & zi & -> & Hxi & Hyi & Hzi)).
  cbn [bind x y z]. rewrite He. cbn [bind].
  pose proof (abs_sub xj xi B Hxj Hxi) as Hdx.
  pose proof (abs_sub yj yi B Hyj Hyi) as Hdy.
  pose proof (abs_sub zj zi B Hzj Hzi) as Hdz.
  rewrite (sub_finite xj xi), (sub_finite yj yi), (sub_finite zj zi) by lra.
  pose proof (flush_abs (xj - xi)) as Fx.
  pose proof (flush_abs (yj - yi)) as Fy.
  pose proof (flush_abs (zj - zi)) as Fz.
  set (dx := flush (xj - xi)) in *. set (dy := flush (yj - yi)) in *.
  set (dz := flush (zj - zi)) in *. clearbody dx dy dz.
  destruct (dist_finite dx dy dz (2 * B)) as (r & -> & [Hlo Hhi] & Rx & Ry & Rz);
    try lra.
  assert (Htt : Rabs (t * 10) <= MAX_VALUE).
  { rewrite Rabs_pos_eq by lra. lra. }
  rewrite (mul_finite t 10) by exact Htt.
  assert (Ht10 : 0 <= flush (t * 10) <= 10).
  { split; [apply flush_nonneg; lra|].
    eapply Rle_trans; [apply flush_le; lra|lra]. }
  set (target := flush (t * 10)) in *. clearbody target.
  destruct (force_finite r target Hlo ltac:(lra) Ht10) as (f & -> & Hfr).
  assert (Hprod : forall d, Rabs d <= r -> Rabs (f * d) <= 0.4 * B + 1).
  { intros d Hd. rewrite Rabs_mult.
    pose proof (Rabs_pos f). pose proof (Rabs_pos d). nra. }
  assert (Hmul : forall d, Rabs d <= r ->
            exists g, mul (Finite f) (Finite d) = Finite g /\
                      Rabs g <= 0.4 * B + 1).
  { intros d Hd. pose proof (Hprod d Hd) as Hb.
    rewrite (mul_finite f d) by lra.
    exists (flush (f * d)). split; [reflexivity|].
    pose proof (flush_abs (f * d)). lra. }
  destruct (Hmul dx Rx) as (gx & -> & Gx).
  destruct (Hmul dy Ry) as (gy & -> & Gy).
  destruct (Hmul dz Rz) as (gz & -> & Gz).
  assert (Hupd : forall p, within M p ->
            within (M + (0.4 * B + 1))
              (mkPoint (add (x p) (Finite gx)) (add (y p) (Finite gy))
                       (add (z p) (Finite gz))) /\
            within (M + (0.4 * B + 1))
              (mkPoint (sub (x p) (Finite gx)) (sub (y p) (Finite gy))
                       (sub (z p) (Finite gz)))).
  { intros p (a & b & c & -> & Ha & Hb & Hc). cbn [x y z].
    pose proof (abs_add a gx _ _ Ha Gx). pose proof (abs_add b gy _ _ Hb Gy).
    pose proof (abs_add c gz _ _ Hc Gz).
    assert (forall u v, Rabs (u - v) = Rabs (u + - v)) as Hsub by reflexivity.
    pose proof (abs_add a (- gx) M (0.4 * B + 1) Ha
                  ltac:(rewrite Rabs_Ropp; exact Gx)).
    pose proof (abs_add b (- gy) M (0.4 * B + 1) Hb
                  ltac:(rewrite Rabs_Ropp; exact Gy)).
    pose proof (abs_add c (- gz) M (0.4 * B + 1) Hc
                  ltac:(rewrite Rabs_Ropp; exact Gz)).
    rewrite !add_finite, !sub_finite by (unfold Rminus; lra).
    split; eexists _, _, _; (split; [reflexivity|]);
      repeat split;
      (eapply Rle_trans; [apply flush_abs|]; unfold Rminus; assumption). }
  destruct (Forall_at _ forces i Hfw ltac:(lia)) as (fi & Efi & _ & Wi).
  unfold modify at 1. unfold at_. rewrite Efi. cbn [bind].
  set (forces1 := set_nth forces i _).
  assert (W1 : Forall (within (M + (0.4 * B + 1))) forces1).
  { apply Forall_set_nth.
    - eapply Forall_impl; [|exact Hfw]. intros p. apply within_weaken. lra.
    - apply (Hupd fi Wi). }
  assert (L1 : List.length forces1 = n)
    by (unfold forces1; rewrite set_nth_length; assumption).
  destruct (Forall_at _ forces j Hfw ltac:(lia)) as (fj & Efj & _ & Wj).
  assert (Efj1 : nth_error forces1 j = Some fj).
  { unfold forces1. clear - Efj Hne. revert i j Efj Hne.
    induction forces as [|a tl IH]; intros [|i] [|j] E Hne; simpl in *;
      auto; try congruence. }
  unfold modify, at_. rewrite Efj1. cbn [bind].
  eexists. split; [reflexivity|]. split.
  - rewrite set_nth_length. exact L1.
  - apply Forall_set_nth; [exact W1|]. apply (Hupd fj Wj).
Qed.

End LayoutSteps.

Section LayoutIterations.

Import Js Double Layout.

Variable n : nat.
Variable dm : list (list number).

Hypothesis few : (n <= 30)%nat.
Hypothesis unit_entries : forall i j, (i < n)%nat -> (j < n)%nat ->
  exists t, entry dm i j = Ok (Finite t) /\ 0 <= t <= 1.

(** The forces of an iteration: every entry is the sum of at most 435
    pair forces. *)
Lemma calculateForces_within positions B :
  1 <= B -> B <= 2 ^ 500 ->
  List.length positions = n -> Forall (within B) positions ->
  exists forces,
    calculateForces positions dm n = Ok forces /\
    List.length forces = n /\
    Forall (within (435 * (0.4 * B + 1))) forces.
Proof.
  intros HB1 HB Hp Hpw.
  pose proof MAX_VALUE_above as Hmax.
  set (G := 0.4 * B + 1).
  assert (HG : 0 < G) by (unfold G; lra).
  assert (H435 : 435 * G <= MAX_VALUE) by (unfold G; lra).
  assert (Hn30 : INR n <= 30).
  { replace 30 with (INR 30) by (simpl; lra). apply le_INR. exact few. }
  set (c := fun i : nat => INR i * INR n - INR i * (INR i + 1) / 2).
  unfold calculateForces.
  destruct (for_range_inv
    (fun i forces =>
       List.length forces = n /\ Forall (within (c i * G)) forces)
    (fun i forces =>
       for_range (Datatypes.S i) (n - Datatypes.S i)
         (fun j forces => pairForces positions dm i j forces) forces)
    n 0%nat (repeat origin n)) as (forces & E & Hl & Hw).
  - split; [apply repeat_length|].
    apply Forall_forall. intros p Hin. apply repeat_spec in Hin. subst p.
    exists 0, 0, 0. unfold c. simpl. rewrite Rabs_R0.
    repeat split; try reflexivity; lra.
  - intros i forces Hi [Hl Hw].
    assert (Ha : 0 <= INR i) by apply pos_INR.
    assert (Hin : INR i + 1 <= INR n).
    { rewrite <- S_INR. apply le_INR. lia. }
    destruct (for_range_inv
      (fun j forces =>
         List.length forces = n /\
         Forall (within ((c i + INR j - INR i - 1) * G)) forces)
      (fun j forces => pairForces positions dm i j forces)
      (n - Datatypes.S i) (Datatypes.S i) forces) as (forces' & E' & Hl' & Hw').
    + split; [assumption|].
      rewrite S_INR. replace (c i + (INR i + 1) - INR i - 1) with (c i) by lra.
      assumption.
    + intros j fs Hj [Hfl Hfw].
      assert (Hij : INR i + 1 <= INR j).
      { rewrite <- S_INR. apply le_INR. lia. }
      assert (Hjn : INR j + 1 <= INR n).
      { rewrite <- S_INR. apply le_INR. lia. }
      destruct (unit_entries i j ltac:(lia) ltac:(lia)) as (t & Et & Ht).
      assert (Hc0 : 0 <= c i) by (unfold c; nra).
      assert (Hc : c i + INR j - INR i <= 435) by (unfold c; nra).
      destruct (pairForces_within n dm positions fs i j B
                  ((c i + INR j - INR i - 1) * G) t)
        as (fs' & Efs & Lfs & Wfs); auto; try lia.
      * assert (0 <= c i + INR j - INR i - 1) by lra. nra.
      * fold G.
        assert ((c i + INR j - INR i) * G <= 435 * G)
          by (apply Rmult_le_compat_r; lra).
        lra.
      * exists fs'. split; [assumption|]. split; [assumption|].
        rewrite S_INR. fold G in Wfs.
        replace ((c i + (INR j + 1) - INR i - 1) * G)
          with ((c i + INR j - INR i - 1) * G + G) by lra.
        assumption.
    + exists forces'. split; [assumption|]. split; [assumption|].
      replace (Datatypes.S i + (n - Datatypes.S i))%nat with n in Hw' by lia.
      replace (c (Datatypes.S i) * G) with ((c i + INR n - INR i - 1) * G);
        [assumption|].
      unfold c. rewrite S_INR. lra.
  - exists forces. split; [assumption|]. split; [assumption|].
    eapply Forall_impl; [|exact Hw]. intros p. apply within_weaken.
    assert (Hn0 : 0 <= INR n) by apply pos_INR.
    assert (Hc : c (0 + n)%nat <= 435).
    { unfold c. cbn [Nat.add]. nra. }
    fold G. apply Rmult_le_compat_r; lra.
Qed.

Lemma lookup_set_nth {A : Type} (l : list A) : forall i a v,
  (i < List.length l)%nat ->
  nth_error (set_nth l i v) a = if (a =? i)%nat then Some v else nth_error l a.
Proof.
  induction l as [|b tl IH]; intros [|i] [|a] v Hi; simpl in *;
    try lia; auto.
  apply IH. lia.
Qed.

(** Applying the forces: every coordinate moves by a tenth of its force. *)
Lemma applyForces_within forces positions B F :
  0 <= B -> 0 <= F -> B + 0.1 * F <= 2 ^ 1000 ->
  List.length positions = n -> Forall (within B) positions ->
  List.length forces = n -> Forall (within F) forces ->
  exists positions',
    applyForces forces n positions = Ok positions' /\
    List.length positions' = n /\
    Forall (within (B + 0.1 * F)) positions'.
Proof.
  intros HB HF Hrange Hp Hpw Hf Hfw.
  pose proof MAX_VALUE_above as Hmax.
  unfold applyForces.
  destruct (for_range_inv
    (fun i ps =>
       List.length ps = n /\
       forall a p, nth_error ps a = Some p ->
         ((a < i)%nat -> within (B + 0.1 * F) p) /\
         ((i <= a)%nat -> within B p))
    (fun i positions =>
       f <- at_ forces i ;;
       modify positions i (fun p =>
         mkPoint (add (x p) (mul (x f) (Finite 0.1)))
                 (add (y p) (mul (y f) (Finite 0.1)))
                 (add (z p) (mul (z f) (Finite 0.1)))))
    n 0%nat positions) as (ps & E & Hl & Hw).
  - split; [assumption|]. intros a p Ha. split; [lia|].
    intros _. rewrite Forall_forall in Hpw. apply Hpw.
    eapply nth_error_In; eauto.
  - intros i ps Hi [Hl Hw].
    destruct (Forall_at _ forces i Hfw ltac:(lia))
      as (f & _ & -> & (fx & fy & fz & -> & Hfx & Hfy & Hfz)).
    cbn [bind x y z].
    destruct (modify_ok ps i
      (fun p => mkPoint (add (x p) (mul (Finite fx) (Finite 0.1)))
                        (add (y p) (mul (Finite fy) (Finite 0.1)))
                        (add (z p) (mul (Finite fz) (Finite 0.1))))
      ltac:(lia)) as (p & Ep & ->).
    eexists. split; [reflexivity|]. split; [rewrite set_nth_length; assumption|].
    intros a q Ha. rewrite lookup_set_nth in Ha by lia.
    destruct (a =? i)%nat eqn:Eai.
    + apply Nat.eqb_eq in Eai. subst a. injection Ha as <-.
      split; [|lia]. intros _.
      destruct (proj2 (Hw i p Ep) ltac:(lia))
        as (px & py & pz & -> & Hpx & Hpy & Hpz).
      cbn [x y z].
      assert (Hm : forall v, Rabs v <= F -> Rabs (v * 0.1) <= 0.1 * F).
      { intros v Hv. rewrite Rabs_mult, (Rabs_pos_eq 0.1) by lra. lra. }
      pose proof (Hm fx Hfx) as Mx. pose proof (Hm fy Hfy) as My.
      pose proof (Hm fz Hfz) as Mz.
      rewrite (fromReal_finite (fx * 0.1)), (fromReal_finite (fy * 0.1)),
        (fromReal_finite (fz * 0.1)) by lra.
      pose proof (flush_abs (fx * 0.1)) as Fx.
      pose proof (flush_abs (fy * 0.1)) as Fy.
      pose proof (flush_abs (fz * 0.1)) as Fz.
      set (mx := flush (fx * 0.1)) in *. set (my := flush (fy * 0.1)) in *.
      set (mz := flush (fz * 0.1)) in *. clearbody mx my mz.
      pose proof (abs_add px mx B (0.1 * F) Hpx ltac:(lra)) as Ax.
      pose proof (abs_add py my B (0.1 * F) Hpy ltac:(lra)) as Ay.
      pose proof (abs_add pz mz B (0.1 * F) Hpz ltac:(lra)) as Az.
      rewrite !add_finite by lra.
      eexists _, _, _. split; [reflexivity|].
      repeat split; (eapply Rle_trans; [apply flush_abs|assumption]).
    + apply Nat.eqb_neq in Eai. destruct (Hw a q Ha) as [H1 H2].
      split; intros Hlt; [apply H1|apply H2]; lia.
  - exists ps. split; [assumption|]. split; [assumption|].
    apply Forall_forall. intros p Hin.
    apply In_nth_error in Hin as (a & Ha).
    apply (Hw a p Ha).
    cbn [Nat.add]. rewrite <- Hl. apply nth_error_Some. congruence.
Qed.

(** One iteration multiplies the bound of the coordinates by at most 32. *)
Lemma relax_within positions B :
  16 <= B -> B <= 2 ^ 500 ->
  List.length positions = n -> Forall (within B) positions ->
  exists positions',
    relax dm n positions = Ok positions' /\
    List.length positions' = n /\
    Forall (within (32 * B)) positions'.
Proof.
  intros HB1 HB Hp Hpw. unfold relax.
  destruct (calculateForces_within positions B ltac:(lra) HB Hp Hpw)
    as (forces & -> & Hf & Hfw).
  cbn [bind].
  destruct (applyForces_within forces positions B (435 * (0.4 * B + 1)))
    as (ps & E & Hl & Hw); auto; try lra.
  exists ps. split; [assumption|]. split; [assumption|].
  eapply Forall_impl; [|exact Hw]. intros p. apply within_weaken. lra.
Qed.

Lemma relaxations_within positions : forall iters,
  (iters <= 100)%nat ->
  List.length positions = n -> Forall (within 16) positions ->
  exists positions',
    relaxations iters dm n positions = Ok positions' /\
    List.length positions' = n /\
    Forall (within (16 * 32 ^ iters)) positions'.
Proof.
  intros iters Hit Hp Hpw. unfold relaxations.
  destruct (for_range_inv
    (fun k ps => List.length ps = n /\ Forall (within (16 * 32 ^ k)) ps)
    (fun _ positions => relax dm n positions)
    iters 0%nat positions) as (ps & E & Hl & Hw).
  - split; [assumption|]. simpl. rewrite Rmult_1_r. assumption.
  - intros k ps0 Hk [Hl Hw].
    assert (H1 : 1 <= 32 ^ k) by (apply pow_R1_Rle; lra).
    assert (H2 : 32 ^ k <= 32 ^ 99) by (apply Rle_pow; [lra|lia]).
    destruct (relax_within ps0 (16 * 32 ^ k)) as (ps1 & E1 & L1 & W1);
      auto; try lra.
    exists ps1. split; [assumption|]. split; [assumption|].
    replace (16 * 32 ^ Datatypes.S k) with (32 * (16 * 32 ^ k))
      by (simpl; lra).
    assumption.
  - exists ps. auto.
Qed.

End LayoutIterations.

Section LayoutFinite.

Import Js Double Layout Inputs.

Lemma coordinate_within draw :
  0 <= draw < 1 -> exists c, coordinate draw = Finite c /\ Rabs c <= 16.
Proof.
  intros Hd. pose proof MAX_VALUE_above as Hmax. unfold coordinate.
  assert (H1 : Rabs (draw - 0.5) <= 0.5) by (apply Rabs_le; lra).
  rewrite sub_finite by lra.
  pose proof (flush_abs (draw - 0.5)) as H2.
  set (v := flush (draw - 0.5)) in *. clearbody v.
  assert (H3 : Rabs (v * 20) <= 10).
  { rewrite Rabs_mult, (Rabs_pos_eq 20) by lra. lra. }
  rewrite mul_finite by lra.
  exists (flush (v * 20)). split; [reflexivity|].
  pose proof (flush_abs (v * 20)). lra.
Qed.

Lemma initPositions_within (random : nat -> R) :
  (forall i, 0 <= random i < 1) ->
  forall n c,
    List.length (initPositions random c n) = n /\
    Forall (within 16) (initPositions random c n).
Proof.
  intros Hr. induction n as [|n IH]; intros c; simpl; [auto|].
  destruct (IH (c + 3)%nat) as [Hl Hw].
  split; [congruence|]. constructor; [|assumption].
  destruct (coordinate_within _ (Hr c)) as (a & -> & Ha).
  destruct (coordinate_within _ (Hr (c + 1)%nat)) as (b & -> & Hb).
  destruct (coordinate_within _ (Hr (c + 2)%nat)) as (e & -> & He).
  exists a, b, e. auto.
Qed.




Lemma within_finite B p : within B p -> finitePoint p = true.
Proof. intros (a & b & c & -> & _). reflexivity. Qed.



End LayoutFinite.

Section LayoutOverflow.

Import Js Double Layout Inputs.






(** A number of the examples below: zero, or between 1/1024 and 2^1023
    in magnitude. *)
Ltac plain :=
  first
    [ left; lra
    | right; first [rewrite Rabs_pos_eq by lra | rewrite Rabs_left by lra]; lra
    | first [rewrite Rabs_R0 | rewrite Rabs_pos_eq by lra
            | rewrite Rabs_left by lra]; lra
    | lra ].















End LayoutOverflow.

(** ** The Fibonacci expansion: the vector store *)

Section ExpansionStore.

Import Js Fibonacci.

Lemma read_app_old (h : heap) v l :
  (l < List.length h)%nat -> read (h ++ [v]) l = read h l.
Proof. intros H. unfold read. apply app_nth1; assumption. Qed.

Lemma read_app_new (h : heap) v : read (h ++ [v]) (List.length h) = v.
Proof. unfold read. rewrite app_nth2, Nat.sub_diag; auto. Qed.

Lemma nth_set_nth_same {A : Type} (l : list A) : forall i v d,
  (i < List.length l)%nat -> nth i (set_nth l i v) d = v.
Proof.
  induction l as [|a l IH]; intros [|i] v d H; simpl in *; try lia; auto.
  apply IH. lia.
Qed.

Lemma nth_set_nth_other {A : Type} (l : list A) : forall i j v d,
  i <> j -> nth j (set_nth l i v) d = nth j l d.
Proof.
  induction l as [|a l IH]; intros [|i] [|j] v d H; simpl; auto; try congruence.
Qed.

Lemma read_write_same h l v :
  (l < List.length h)%nat -> read (write h l v) l = v.
Proof. apply nth_set_nth_same. Qed.

Lemma read_write_other h l l' v : l <> l' -> read (write h l v) l' = read h l'.
Proof. apply nth_set_nth_other. Qed.

Lemma write_length h l v : List.length (write h l v) = List.length h.
Proof. apply set_nth_length. Qed.

Lemma coresIn_weaken h h' coreNodes :
  (List.length h <= List.length h')%nat -> coresIn h coreNodes -> coresIn h' coreNodes.
Proof.
  intros Hle H. unfold coresIn in *. eapply Forall_impl; [|exact H].
  simpl. intros node Hn. lia.
Qed.

Lemma coreValues_frame h h' coreNodes :
  coresIn h coreNodes ->
  (forall l, (l < List.length h)%nat -> read h' l = read h l) ->
  coreValues h' coreNodes = coreValues h coreNodes.
Proof.
  intros Hin Hfr. unfold coreValues. apply map_ext_in.
  intros node Hn. rewrite Hfr; auto.
  unfold coresIn in Hin. rewrite Forall_forall in Hin. auto.
Qed.

(** Summing the core positions writes the accumulator only. *)
Lemma addAll_spec coreNodes cm : forall h,
  (cm < List.length h)%nat ->
  Forall (fun node => targetPosition node <> cm) coreNodes ->
  List.length (addAll coreNodes cm h) = List.length h /\
  (forall l, l <> cm -> read (addAll coreNodes cm h) l = read h l) /\
  read (addAll coreNodes cm h) cm =
    fold_left V3.add (map (fun node => read h (targetPosition node)) coreNodes)
              (read h cm).
Proof.
  unfold addAll.
  induction coreNodes as [|node tl IH]; intros h Hcm Hne; simpl.
  - auto.
  - inversion Hne as [|? ? Hn Htl]; subst.
    specialize (IH (write h cm (V3.add (read h cm) (read h (targetPosition node))))).
    rewrite write_length in IH. destruct (IH Hcm Htl) as (Hl & Hfr & Hv).
    split; [exact Hl|]. split.
    + intros l Hl'. rewrite Hfr by assumption. apply read_write_other. auto.
    + rewrite Hv, read_write_same by assumption. f_equal.
      apply map_ext_in. intros n Hn'.
      apply read_write_other. rewrite Forall_forall in Htl.
      intros E. apply (Htl n Hn'). auto.
Qed.

End ExpansionStore.

(** ** The Fibonacci expansion: one satellite *)

Section ExpansionStep.

Import Js Fibonacci.

Lemma at_inv {A : Type} (l : list A) i a :
  at_ l i = Ok a -> nth_error l i = Some a.
Proof. unfold at_. destruct (nth_error l i); congruence. Qed.

(** The loop body, with the reads of the extended store resolved. *)
Lemma expandOne_eq coreNodes cm i nodes h :
  coresIn h coreNodes -> (cm < List.length h)%nat ->
  expandOne coreNodes cm i (nodes, h) =
    bind (nearestCoreIndex coreNodes i) (fun parent =>
    bind (at_ coreNodes parent) (fun core =>
      let pos := spherical (read h (targetPosition core))
                   (radius i) (phi i) (theta i) in
      let d := V3.distanceTo pos (read h (targetPosition core)) in
      Ok (nodes ++
            [mkFib (List.length h)
                   (or_default (curvature core) 5.0 * exp (- d / 5.0))
                   (V3.distanceTo pos (read h cm)) parent i d],
          h ++ [pos]))).
Proof.
  intros Hin Hcm. unfold expandOne.
  destruct (nearestCoreIndex coreNodes i) as [parent| |]; cbn [bind]; auto.
  destruct (at_ coreNodes parent) as [core| |] eqn:E; cbn [bind]; auto.
  apply at_inv, nth_error_In in E.
  unfold coresIn in Hin. rewrite Forall_forall in Hin. specialize (Hin core E).
  unfold alloc. cbv zeta.
  rewrite read_app_new, !read_app_old by assumption. reflexivity.
Qed.

Lemma firstBelow_bound rand : forall cumulative j k,
  firstBelow rand cumulative j = Some k ->
  (j <= k < j + List.length cumulative)%nat.
Proof.
  induction cumulative as [|c tl IH]; intros j k H; simpl in *; try discriminate.
  destruct (ltb rand c).
  - injection H as <-. lia.
  - apply IH in H. lia.
Qed.

Lemma cumulativeFrom_length total : forall weights cumulative l,
  cumulativeFrom weights total cumulative = Ok l ->
  List.length l = List.length weights.
Proof.
  induction weights as [|w tl IH]; intros cumulative l H; simpl in *.
  - injection H as <-. reflexivity.
  - unfold div in H. destruct (Req_dec_T total 0); cbn [bind] in H; try discriminate.
    destruct (cumulativeFrom tl total (cumulative + w / total)) eqn:E;
      cbn [bind] in H; try discriminate.
    injection H as <-. simpl. f_equal. eapply IH; eauto.
Qed.

Lemma cumulativeFrom_ok total : total <> 0 -> forall weights cumulative,
  exists l, cumulativeFrom weights total cumulative = Ok l.
Proof.
  intros Ht. induction weights as [|w tl IH]; intros cumulative; simpl.
  - eauto.
  - unfold div. destruct (Req_dec_T total 0); [contradiction|]. cbn [bind].
    destruct (IH (cumulative + w / total)) as (l & ->). cbn [bind]. eauto.
Qed.

Lemma fold_left_Rplus_pos : forall weights acc,
  Forall (fun w => 0 < w) weights -> 0 <= acc ->
  acc <= fold_left Rplus weights acc /\
  (weights <> [] -> 0 < fold_left Rplus weights acc).
Proof.
  induction weights as [|w tl IH]; intros acc Hall Hacc; simpl.
  - split; [lra|congruence].
  - inversion Hall as [|? ? Hw Htl]; subst.
    destruct (IH (acc + w) Htl ltac:(lra)) as [H1 H2].
    split; [lra|]. intros _. lra.
Qed.

(** A weight that is zero counts as absent: the default 5.0 replaces it. *)
Lemma coreWeights_pos coreNodes :
  Forall (fun node => 0 <= curvature node) coreNodes ->
  Forall (fun w => 0 < w) (coreWeights coreNodes).
Proof.
  intros H. unfold coreWeights. rewrite Forall_map.
  eapply Forall_impl; [|exact H]. simpl. intros node Hn.
  unfold or_default. destruct (Req_dec_T (curvature node) 0); lra.
Qed.

Lemma nearestCoreIndex_ok coreNodes i :
  coreNodes <> [] ->
  Forall (fun node => 0 <= curvature node) coreNodes ->
  exists parent,
    nearestCoreIndex coreNodes i = Ok parent /\
    (parent < List.length coreNodes)%nat.
Proof.
  intros Hne Hw. unfold nearestCoreIndex, cumulativeWeights.
  assert (Ht : totalWeight (coreWeights coreNodes) <> 0).
  { unfold totalWeight.
    destruct (fold_left_Rplus_pos (coreWeights coreNodes) 0
                (coreWeights_pos _ Hw) ltac:(lra)) as [_ H].
    assert (coreWeights coreNodes <> []).
    { unfold coreWeights. destruct coreNodes; simpl; congruence. }
    specialize (H ltac:(assumption)). lra. }
  destruct (cumulativeFrom_ok _ Ht (coreWeights coreNodes) 0) as (l & E).
  rewrite E. cbn [bind].
  assert (Hl : List.length l = List.length coreNodes).
  { rewrite (cumulativeFrom_length _ _ _ _ E). unfold coreWeights.
    apply length_map. }
  assert (Hpos : (0 < List.length coreNodes)%nat).
  { destruct coreNodes; simpl; [congruence|lia]. }
  destruct (firstBelow (rand i) l 0) as [j|] eqn:Ej.
  - exists j. split; auto. apply firstBelow_bound in Ej. lia.
  - exists 0%nat. split; auto.
Qed.

End ExpansionStep.

(** ** The Fibonacci expansion: the whole loop *)

Section ExpansionRun.

Import Js Fibonacci.

Lemma for_range_rel {S1 S2 : Type} (Rel : S1 -> S2 -> Prop) body1 body2 :
  (forall i s1 s2, Rel s1 s2 -> agree Rel (body1 i s1) (body2 i s2)) ->
  forall cnt lo s1 s2, Rel s1 s2 ->
    agree Rel (for_range lo cnt body1 s1) (for_range lo cnt body2 s2).
Proof.
  intros Hstep. induction cnt as [|cnt IH]; intros lo s1 s2 H; simpl.
  - exact H.
  - specialize (Hstep lo s1 s2 H).
    destruct (body1 lo s1) as [a| |], (body2 lo s2) as [b| |];
      simpl in *; try contradiction; auto.
Qed.

Lemma for_range_partial {S : Type} (Inv : nat -> S -> Prop) body :
  (forall i s s', Inv i s -> body i s = Ok s' -> Inv (Datatypes.S i) s') ->
  forall cnt lo s s', Inv lo s ->
    for_range lo cnt body s = Ok s' -> Inv (lo + cnt)%nat s'.
Proof.
  intros Hstep. induction cnt as [|cnt IH]; intros lo s s' H E; simpl in E.
  - injection E as <-. rewrite Nat.add_0_r. exact H.
  - destruct (body lo s) as [s1| |] eqn:E1; cbn [bind] in E; try discriminate.
    replace (lo + Datatypes.S cnt)%nat with (Datatypes.S lo + cnt)%nat by lia.
    eapply IH; eauto.
Qed.

Lemma view_frame h v node :
  (position node < List.length h)%nat -> view (h ++ [v]) node = view h node.
Proof. intros H. unfold view. rewrite read_app_old by assumption. reflexivity. Qed.

Lemma coreWeights_values h coreNodes :
  coreWeights coreNodes =
    map (fun v => or_default (snd v) 5.0) (coreValues h coreNodes).
Proof.
  unfold coreWeights, coreValues. rewrite map_map. reflexivity.
Qed.

Lemma nearestCoreIndex_values h1 h2 cores1 cores2 i :
  coreValues h1 cores1 = coreValues h2 cores2 ->
  nearestCoreIndex cores1 i = nearestCoreIndex cores2 i.
Proof.
  intros H. unfold nearestCoreIndex, cumulativeWeights.
  rewrite (coreWeights_values h1 cores1), (coreWeights_values h2 cores2), H.
  reflexivity.
Qed.

Lemma coreValues_nth h coreNodes i core :
  nth_error coreNodes i = Some core ->
  nth_error (coreValues h coreNodes) i =
    Some (read h (targetPosition core), curvature core).
Proof. intros H. unfold coreValues. rewrite nth_error_map, H. reflexivity. Qed.

(** The loop body keeps two runs on equal core values in step. *)
Lemma expandOne_rel cores1 cores2 cm1 cm2 i nodes1 h1 nodes2 h2 :
  coresIn h1 cores1 -> coresIn h2 cores2 ->
  (cm1 < List.length h1)%nat -> (cm2 < List.length h2)%nat ->
  coreValues h1 cores1 = coreValues h2 cores2 ->
  read h1 cm1 = read h2 cm2 ->
  Forall (fun n => (position n < List.length h1)%nat) nodes1 ->
  Forall (fun n => (position n < List.length h2)%nat) nodes2 ->
  map (view h1) nodes1 = map (view h2) nodes2 ->
  agree (fun '(n1, k1) '(n2, k2) =>
           (List.length h1 <= List.length k1)%nat /\
           (List.length h2 <= List.length k2)%nat /\
           (forall l, (l < List.length h1)%nat -> read k1 l = read h1 l) /\
           (forall l, (l < List.length h2)%nat -> read k2 l = read h2 l) /\
           Forall (fun n => (position n < List.length k1)%nat) n1 /\
           Forall (fun n => (position n < List.length k2)%nat) n2 /\
           map (view k1) n1 = map (view k2) n2)
        (expandOne cores1 cm1 i (nodes1, h1))
        (expandOne cores2 cm2 i (nodes2, h2)).
Proof.
  intros Hin1 Hin2 Hc1 Hc2 Hv Hcm Hp1 Hp2 Hn.
  rewrite !expandOne_eq by assumption.
  rewrite (nearestCoreIndex_values h1 h2 cores1 cores2 i Hv).
  destruct (nearestCoreIndex cores2 i) as [parent| |]; simpl; auto.
  unfold at_.
  destruct (nth_error cores1 parent) as [c1|] eqn:E1,
           (nth_error cores2 parent) as [c2|] eqn:E2; simpl; auto.
  - pose proof (coreValues_nth h1 _ _ _ E1) as V1.
    pose proof (coreValues_nth h2 _ _ _ E2) as V2.
    rewrite Hv, V2 in V1. injection V1 as Hpos Hw.
    rewrite <- Hpos, <- Hw, Hcm.
    rewrite !length_app. simpl.
    repeat split; try lia.
    + intros l Hl. apply read_app_old; assumption.
    + intros l Hl. apply read_app_old; assumption.
    + apply Forall_app. split.
      * eapply Forall_impl; [|exact Hp1]. simpl. intros; lia.
      * constructor; auto. simpl. lia.
    + apply Forall_app. split.
      * eapply Forall_impl; [|exact Hp2]. simpl. intros; lia.
      * constructor; auto. simpl. lia.
    + rewrite !map_app. f_equal.
      * rewrite (map_ext_in (view (h1 ++ _)) (view h1)).
        2:{ intros n Hn'. apply view_frame. rewrite Forall_forall in Hp1. auto. }
        rewrite (map_ext_in (view (h2 ++ _)) (view h2)).
        2:{ intros n Hn'. apply view_frame. rewrite Forall_forall in Hp2. auto. }
        exact Hn.
      * simpl. unfold view; simpl. rewrite !read_app_new. reflexivity.
  - apply nth_error_None in E2.
    assert (nth_error (coreValues h2 cores2) parent = None).
    { apply nth_error_None. unfold coreValues. rewrite length_map. exact E2. }
    rewrite <- Hv, (coreValues_nth h1 _ _ _ E1) in H. discriminate.
  - apply nth_error_None in E1.
    assert (nth_error (coreValues h1 cores1) parent = None).
    { apply nth_error_None. unfold coreValues. rewrite length_map. exact E1. }
    rewrite Hv, (coreValues_nth h2 _ _ _ E2) in H. discriminate.
Qed.

End ExpansionRun.

(** ** The Fibonacci expansion: determinism and purity *)

Section ExpansionDeterminism.

Import Js Fibonacci.

Lemma agree_impl {A B : Type} (R1 R2 : A -> B -> Prop) r1 r2 :
  (forall a b, R1 a b -> R2 a b) -> agree R1 r1 r2 -> agree R2 r1 r2.
Proof. intros H. destruct r1, r2; simpl; auto. Qed.

(** The store once the centre of mass has been computed: one fresh
    vector, every vector allocated before unchanged. *)
Lemma center_of_mass_spec coreNodes h :
  coresIn h coreNodes ->
  let cm := List.length h in
  let h2 := addAll coreNodes cm (h ++ [V3.zero]) in
  let h3 := write h2 cm
              (V3.divideScalar (read h2 cm) (INR (List.length coreNodes))) in
  List.length h2 = S (List.length h) /\
  (forall l, (l < List.length h)%nat -> read h2 l = read h l) /\
  List.length h3 = S (List.length h) /\
  (forall l, (l < List.length h)%nat -> read h3 l = read h l) /\
  read h3 cm =
    V3.divideScalar
      (fold_left V3.add (map fst (coreValues h coreNodes)) V3.zero)
      (INR (List.length coreNodes)).
Proof.
  intros Hin cm h2 h3.
  assert (Hlen : List.length (h ++ [V3.zero]) = S (List.length h)).
  { rewrite length_app. simpl. lia. }
  assert (Hne : Forall (fun node => targetPosition node <> cm) coreNodes).
  { eapply Forall_impl; [|exact Hin]. simpl. unfold cm. intros; lia. }
  destruct (addAll_spec coreNodes cm (h ++ [V3.zero]) ltac:(unfold cm; lia) Hne)
    as (Hl2 & Hfr2 & Hv2).
  fold h2 in Hl2, Hfr2, Hv2.
  assert (F2 : forall l, (l < List.length h)%nat -> read h2 l = read h l).
  { intros l Hl. rewrite Hfr2 by (unfold cm; lia). apply read_app_old; assumption. }
  split; [lia|]. split; [exact F2|].
  split; [unfold h3; rewrite write_length; lia|]. split.
  - intros l Hl. unfold h3. rewrite read_write_other by (unfold cm; lia). auto.
  - unfold h3. rewrite read_write_same by (unfold cm; lia).
    rewrite Hv2. unfold cm. rewrite read_app_new.
    f_equal. f_equal. unfold coreValues. rewrite map_map. simpl.
    apply map_ext_in. intros node Hn. apply read_app_old.
    unfold coresIn in Hin. rewrite Forall_forall in Hin. auto.
Qed.

Lemma expansion_agree cores1 cores2 count h1 h2 :
  coresIn h1 cores1 -> coresIn h2 cores2 ->
  coreValues h1 cores1 = coreValues h2 cores2 ->
  agree (fun '(n1, k1) '(n2, k2) => map (view k1) n1 = map (view k2) n2)
        (generateFibonacciExpansion cores1 count h1)
        (generateFibonacciExpansion cores2 count h2).
Proof.
  intros Hin1 Hin2 Hv.
  assert (Hlen : List.length cores1 = List.length cores2).
  { apply (f_equal (@List.length _)) in Hv. unfold coreValues in Hv.
    rewrite !length_map in Hv. exact Hv. }
  unfold generateFibonacciExpansion, alloc.
  destruct cores1 as [|c1 t1], cores2 as [|c2 t2]; try discriminate.
  - destruct (count =? 0)%nat; simpl; auto.
  - destruct (center_of_mass_spec (c1 :: t1) h1 Hin1) as (_ & _ & L1 & F1 & V1).
    destruct (center_of_mass_spec (c2 :: t2) h2 Hin2) as (_ & _ & L2 & F2 & V2).
    set (cm1 := List.length h1) in *. set (cm2 := List.length h2) in *.
    set (k1 := write _ cm1 _) in *. set (k2 := write _ cm2 _) in *.
    eapply agree_impl;
      [|apply (for_range_rel
          (fun '(n1, g1) '(n2, g2) =>
             (List.length k1 <= List.length g1)%nat /\
             (List.length k2 <= List.length g2)%nat /\
             (forall l, (l < List.length k1)%nat -> read g1 l = read k1 l) /\
             (forall l, (l < List.length k2)%nat -> read g2 l = read k2 l) /\
             Forall (fun n => (position n < List.length g1)%nat) n1 /\
             Forall (fun n => (position n < List.length g2)%nat) n2 /\
             map (view g1) n1 = map (view g2) n2))].
    + intros [n1 g1] [n2 g2] H. apply H.
    + intros i [n1 g1] [n2 g2] (A1 & A2 & B1 & B2 & P1 & P2 & M).
      assert (C1 : coreValues g1 (c1 :: t1) = coreValues h1 (c1 :: t1)).
      { apply coreValues_frame; auto. intros l Hl.
        rewrite B1 by lia. apply F1. assumption. }
      assert (C2 : coreValues g2 (c2 :: t2) = coreValues h2 (c2 :: t2)).
      { apply coreValues_frame; auto. intros l Hl.
        rewrite B2 by lia. apply F2. assumption. }
      eapply agree_impl;
        [|apply (expandOne_rel (c1 :: t1) (c2 :: t2) cm1 cm2 i n1 g1 n2 g2)];
        try assumption; try lia.
      * intros [m1 g1'] [m2 g2'] (D1 & D2 & E1 & E2 & Q1 & Q2 & M').
        repeat split; try assumption; try lia.
        -- intros l Hl. rewrite E1 by lia. auto.
        -- intros l Hl. rewrite E2 by lia. auto.
      * eapply coresIn_weaken; [|exact Hin1]. lia.
      * eapply coresIn_weaken; [|exact Hin2]. lia.
      * congruence.
      * rewrite B1, B2 by lia. rewrite V1, V2, Hv, Hlen. reflexivity.
    + repeat split; auto.
Qed.

(** Every vector allocated before the call is unchanged by it. *)
Lemma expansion_frame coreNodes count h nodes h' :
  coresIn h coreNodes ->
  generateFibonacciExpansion coreNodes count h = Ok (nodes, h') ->
  forall l, (l < List.length h)%nat -> read h' l = read h l.
Proof.
  intros Hin. unfold generateFibonacciExpansion, alloc.
  destruct (center_of_mass_spec coreNodes h Hin) as (L2 & F2 & L3 & F3 & _).
  destruct coreNodes as [|c t].
  - destruct (count =? 0)%nat; [|discriminate].
    intros E. injection E as _ <-. exact F2.
  - set (cm := List.length h) in *. set (k := write _ cm _) in *.
    intros E l Hl.
    pose proof (for_range_partial
      (fun _ '(n, g) =>
         (List.length k <= List.length g)%nat /\
         forall l, (l < List.length k)%nat -> read g l = read k l)
      (expandOne (c :: t) cm)) as Hloop.
    specialize (Hloop ltac:(
      intros i [n g] [n' g'] (A & B) E';
      rewrite expandOne_eq in E';
      [ destruct (nearestCoreIndex (c :: t) i); cbn [bind] in E'; try discriminate;
        destruct (at_ (c :: t) _); cbn [bind] in E'; try discriminate;
        injection E' as _ <-; rewrite length_app; simpl; split; [lia|];
        intros l' Hl'; rewrite read_app_old by lia; auto
      | eapply coresIn_weaken; [|exact Hin]; lia
      | lia ])).
    specialize (Hloop count 0%nat ([], k) (nodes, h') ltac:(split; auto) E).
    destruct Hloop as (_ & B). rewrite B by lia. apply F3. assumption.
Qed.

End ExpansionDeterminism.

(** ** The Fibonacci expansion: results *)

Section ExpansionResults.

Import Js Fibonacci Inputs.

(** C7. The expansion is deterministic and pure.  Two calls whose core
    arrays hold the same positions and weights in the same order, with the
    same satellite count, end the same way and return satellites with
    identical positions, weights, centralities, parents, indices and
    distances, whatever else the two stores hold; and a call leaves every
    vector allocated before it, the core positions among them, as it was. *)
Theorem expansion_deterministic_and_pure
  (cores1 cores2 : list coreNode) (count : nat) (h1 h2 : heap) :
  coresIn h1 cores1 -> coresIn h2 cores2 ->
  coreValues h1 cores1 = coreValues h2 cores2 ->
  observe (generateFibonacciExpansion cores1 count h1) =
    observe (generateFibonacciExpansion cores2 count h2) /\
  (forall nodes h1',
      generateFibonacciExpansion cores1 count h1 = Ok (nodes, h1') ->
      (forall l, (l < List.length h1)%nat -> read h1' l = read h1 l) /\
      coreValues h1' cores1 = coreValues h1 cores1).
Proof.
  intros Hin1 Hin2 Hv. split.
  - pose proof (expansion_agree cores1 cores2 count h1 h2 Hin1 Hin2 Hv) as H.
    destruct (generateFibonacciExpansion cores1 count h1) as [[n1 k1]| |],
             (generateFibonacciExpansion cores2 count h2) as [[n2 k2]| |];
      simpl in *; try contradiction; auto.
    rewrite H. reflexivity.
  - intros nodes h1' E.
    pose proof (expansion_frame cores1 count h1 nodes h1' Hin1 E) as F.
    split; [exact F|]. apply coreValues_frame; assumption.
Qed.

Lemma core_weight_10_in : coresIn origin_store core_weight_10.
Proof. repeat constructor. Qed.

Lemma core_weight_10_moved_in : coresIn other_store core_weight_10_moved.
Proof. repeat constructor. Qed.

Lemma expansion_deterministic_and_pure_witness :
  observe (generateFibonacciExpansion core_weight_10 3 origin_store) =
    observe (generateFibonacciExpansion core_weight_10_moved 3 other_store).
Proof.
  exact (proj1 (expansion_deterministic_and_pure
                  core_weight_10 core_weight_10_moved 3 origin_store other_store
                  core_weight_10_in core_weight_10_moved_in eq_refl)).
Defined.

(** With a core node to attach to and weights that are not negative the
    expansion returns [count] satellites, with the indices 0 .. count-1.
    Each has a parent among the core nodes, sits at the spherical offset
    of its index from the parent's position, records its distance from
    that position, which is not negative, and has the weight
    [(parent.curvature || 5.0) * exp(-distanceFromParent / 5.0)]. *)
Lemma expansion_run coreNodes count h :
  coresIn h coreNodes -> coreNodes <> [] ->
  Forall (fun node => 0 <= curvature node) coreNodes ->
  exists nodes h',
    generateFibonacciExpansion coreNodes count h = Ok (nodes, h') /\
    map index nodes = seq 0 count /\
    Forall (fun node =>
              exists core,
                nth_error coreNodes (parentNode node) = Some core /\
                read h' (position node) =
                  spherical (read h (targetPosition core))
                    (radius (index node)) (phi (index node)) (theta (index node)) /\
                distanceFromParent node =
                  V3.distanceTo (read h' (position node))
                                (read h (targetPosition core)) /\
                0 <= distanceFromParent node /\
                fibCurvature node =
                  or_default (curvature core) 5.0 *
                  exp (- distanceFromParent node / 5.0)) nodes.
Proof.
  intros Hin Hne Hw. unfold generateFibonacciExpansion, alloc.
  destruct (center_of_mass_spec coreNodes h Hin) as (_ & _ & L3 & F3 & _).
  destruct coreNodes as [|c t]; [congruence|].
  set (cm := List.length h) in *. set (k := write _ cm _) in *.
  destruct (for_range_inv
    (fun i '(nodes, g) =>
       (List.length k <= List.length g)%nat /\
       (forall l, (l < List.length k)%nat -> read g l = read k l) /\
       map index nodes = seq 0 i /\
       Forall (fun node =>
                 (position node < List.length g)%nat /\
                 exists core,
                   nth_error (c :: t) (parentNode node) = Some core /\
                   read g (position node) =
                     spherical (read h (targetPosition core))
                       (radius (index node)) (phi (index node))
                       (theta (index node)) /\
                   distanceFromParent node =
                     V3.distanceTo (read g (position node))
                                   (read h (targetPosition core)) /\
                   0 <= distanceFromParent node /\
                   fibCurvature node =
                     or_default (curvature core) 5.0 *
                     exp (- distanceFromParent node / 5.0)) nodes)
    (expandOne (c :: t) cm) count 0%nat ([], k))
    as ([nodes h'] & E & _ & _ & Hl & HP).
  - repeat split; auto.
  - intros i [nodes g] _ (A & B & Hl & HP).
    rewrite expandOne_eq;
      [|eapply coresIn_weaken; [|exact Hin]; lia | lia].
    destruct (nearestCoreIndex_ok (c :: t) i Hne Hw) as (parent & -> & Hp).
    cbn [bind].
    destruct (at_ok (c :: t) parent Hp) as (core & Ec & ->). cbn [bind].
    eexists. split; [reflexivity|].
    assert (Hcore : (targetPosition core < List.length h)%nat).
    { unfold coresIn in Hin. rewrite Forall_forall in Hin.
      apply Hin. eapply nth_error_In; eauto. }
    assert (Hread : read g (targetPosition core) = read h (targetPosition core)).
    { rewrite B by lia. apply F3. assumption. }
    cbv beta iota zeta. rewrite !length_app. cbn [List.length].
    split; [lia|]. split; [|split].
    + intros l Hl'. rewrite read_app_old by lia. auto.
    + rewrite map_app, Hl. cbn [map index].
      replace (S i) with (i + 1)%nat by lia. rewrite seq_app. reflexivity.
    + apply Forall_app. split.
      * eapply Forall_impl; [|exact HP]. cbv beta.
        intros node (Hpos & core' & H1 & H2 & H3 & H4 & H5).
        split; [lia|]. exists core'.
        rewrite read_app_old by assumption. auto.
      * constructor; [|constructor]. cbn [position parentNode index
          distanceFromParent fibCurvature].
        split; [lia|]. exists core.
        rewrite read_app_new, Hread.
        repeat split; auto. apply distanceTo_nonneg.
  - exists nodes, h'. split; [exact E|]. split; [exact Hl|].
    eapply Forall_impl; [|exact HP]. cbv beta.
    intros node (_ & core & H). exists core. exact H.
Qed.

Lemma exp_nonpos_le_1 v : v <= 0 -> exp v <= 1.
Proof.
  intros H. destruct (Req_dec_T v 0) as [->|Hne].
  - rewrite exp_0. lra.
  - rewrite <- exp_0. apply Rlt_le, exp_increasing. lra.
Qed.

(** The decay never amplifies a weight that is positive. *)
Lemma expansion_positive_weights coreNodes count h :
  coresIn h coreNodes -> coreNodes <> [] ->
  Forall (fun node => 0 < curvature node) coreNodes ->
  exists nodes h',
    generateFibonacciExpansion coreNodes count h = Ok (nodes, h') /\
    List.length nodes = count /\
    Forall (fun node =>
              exists core,
                nth_error coreNodes (parentNode node) = Some core /\
                0 <= distanceFromParent node /\
                fibCurvature node <= curvature core) nodes.
Proof.
  intros Hin Hne Hw.
  destruct (expansion_run coreNodes count h Hin Hne) as (nodes & h' & E & Hl & HP).
  { eapply Forall_impl; [|exact Hw]. simpl. intros; lra. }
  exists nodes, h'. split; auto. split.
  { rewrite <- (length_map index), Hl. apply length_seq. }
  eapply Forall_impl; [|exact HP]. simpl.
  intros node (core & Ec & _ & _ & Hd & Hc). exists core. repeat split; auto.
  rewrite Hc.
  assert (Hcw : 0 < curvature core).
  { rewrite Forall_forall in Hw. apply Hw. eapply nth_error_In; eauto. }
  rewrite or_default_nonzero by lra.
  pose proof (exp_nonpos_le_1 (- distanceFromParent node / 5.0) ltac:(lra)).
  nra.
Qed.

Lemma radius_0 : radius 0 = 0.55.
Proof.
  unfold radius, FIBONACCI_SCALE. cbv zeta.
  replace (getFibonacciNumber (0 / 10 + 1)) with 1%nat by reflexivity.
  replace (1 mod 5)%nat with 1%nat by reflexivity.
  cbn [INR]. replace (0 + 1) with 1 by lra. rewrite sqrt_1. lra.
Qed.

Lemma phi_0 : phi 0 = 0.
Proof.
  unfold phi. replace (0 mod 89)%nat with 0%nat by reflexivity.
  cbn [INR]. replace (1 - 2 * 0 / 89) with 1 by lra. apply acos_1.
Qed.

Lemma theta_0 : theta 0 = 0.
Proof. unfold theta. cbn [INR]. lra. Qed.

(** C8 at a core node of weight 0, a rating the importance query
    accepts.  The one satellite sits 0.55 from its parent and is weighted
    from the default 5.0: its weight [5 * exp(-0.55 / 5)], about 4.48, is
    above its parent's weight 0. *)
Theorem expansion_zero_weight_parent_amplified :
  exists node h',
    generateFibonacciExpansion core_weight_0 1 origin_store = Ok ([node], h') /\
    nth_error core_weight_0 (parentNode node) = Some (mkCore 0%nat 0) /\
    0 <= distanceFromParent node /\
    distanceFromParent node = 0.55 /\
    fibCurvature node = 5.0 * exp (- distanceFromParent node / 5.0) /\
    curvature (mkCore 0%nat 0) < fibCurvature node.
Proof.
  destruct (expansion_run core_weight_0 1 origin_store) as (nodes & h' & E & Hl & HP).
  - repeat constructor.
  - discriminate.
  - constructor; [simpl; lra | constructor].
  - destruct nodes as [|node [|? ?]]; try discriminate.
    inversion HP as [|? ? (core & Ec & Hpos & Hdist & Hd & Hc) _]; subst.
    exists node, h'.
    assert (core = mkCore 0%nat 0).
    { unfold core_weight_0 in Ec.
      destruct (parentNode node) as [|[|?]]; simpl in Ec; congruence. }
    subst core.
    assert (Hi : index node = 0%nat) by (simpl in Hl; congruence).
    assert (H55 : distanceFromParent node = 0.55).
    { rewrite Hdist, Hpos, Hi, radius_0, phi_0, theta_0.
      unfold spherical, origin_store, read. cbn [targetPosition nth V3.zero].
      cbv zeta. cbn [V3.x V3.y V3.z].
      rewrite sin_0, cos_0.
      unfold V3.distanceTo, V3.distanceToSquared. cbv zeta. cbn [V3.x V3.y V3.z].
      replace (_ + _) with (0.55 * 0.55) by lra.
      apply sqrt_square. lra. }
    cbn [curvature] in Hc. rewrite or_default_zero in Hc.
    repeat split; auto.
    cbn [curvature]. rewrite Hc.
    pose proof (exp_pos (- distanceFromParent node / 5.0)). lra.
Qed.

End ExpansionResults.

(** ** Candidate connections *)

Section CandidateConnections.

Import Js Particles Connectivity.

Lemma NoDup_flat_map {A B : Type} (f : A -> list B) : forall l,
  NoDup l ->
  (forall a, In a l -> NoDup (f a)) ->
  (forall a b x, In a l -> In b l -> In x (f a) -> In x (f b) -> a = b) ->
  NoDup (flat_map f l).
Proof.
  induction l as [|a l IH]; intros Hnd Hf Hdisj; simpl.
  - constructor.
  - inversion Hnd as [|? ? Hnotin Hnd']; subst.
    apply NoDup_app.
    + apply Hf. left; reflexivity.
    + apply IH; auto.
      * intros b Hb. apply Hf. right; assumption.
      * intros b c x Hb Hc. apply Hdisj; right; assumption.
    + intros x Hx Hx'. apply in_flat_map in Hx' as (b & Hb & Hxb).
      assert (a = b) by (eapply Hdisj; eauto; [left; reflexivity | right; assumption]).
      subst. contradiction.
Qed.

(** What a pushed entry records. *)
Lemma candidate_spec particles i j c :
  In c (candidate particles i j) ->
  p1 c = i /\ p2 c = j /\ formed c = false /\
  exists pi pj ti tj,
    nth_error particles i = Some pi /\ nth_error particles j = Some pj /\
    targetPosition pi = Some ti /\ targetPosition pj = Some tj /\
    distance c = V3.distanceTo ti tj /\ distance c < CONNECTION_THRESHOLD.
Proof.
  unfold candidate.
  destruct (nth_error particles i) as [pi|]; [|intros []].
  destruct (nth_error particles j) as [pj|]; [|intros []].
  destruct (targetPosition pi) as [ti|] eqn:Ei; [|intros []].
  destruct (targetPosition pj) as [tj|] eqn:Ej; [|intros []].
  cbv zeta.
  destruct (ltb (V3.distanceTo ti tj) CONNECTION_THRESHOLD) eqn:El; [|intros []].
  intros [<-|[]]. simpl. repeat split; auto.
  exists pi, pj, ti, tj. repeat split; auto.
  apply ltb_true. exact El.
Qed.

Lemma candidate_NoDup particles i j : NoDup (candidate particles i j).
Proof.
  unfold candidate.
  destruct (nth_error particles i); [|constructor].
  destruct (nth_error particles j); [|constructor].
  destruct (targetPosition _); [|constructor].
  destruct (targetPosition _); [|constructor].
  cbv zeta. destruct (ltb _ _); repeat constructor. intros [].
Qed.

Lemma connections_in particles c :
  In c (calculatePotentialConnections particles) ->
  (p1 c < p2 c < List.length particles)%nat /\ In c (candidate particles (p1 c) (p2 c)).
Proof.
  unfold calculatePotentialConnections. cbv zeta.
  intros H. apply in_flat_map in H as (i & Hi & H).
  apply in_flat_map in H as (j & Hj & H).
  apply in_seq in Hi, Hj.
  destruct (candidate_spec _ _ _ _ H) as (E1 & E2 & _).
  subst i j. split; [lia | assumption].
Qed.

Lemma connections_NoDup particles :
  NoDup (calculatePotentialConnections particles).
Proof.
  unfold calculatePotentialConnections. cbv zeta.
  apply NoDup_flat_map.
  - apply seq_NoDup.
  - intros i _. apply NoDup_flat_map.
    + apply seq_NoDup.
    + intros j _. apply candidate_NoDup.
    + intros a b x _ _ Ha Hb.
      apply candidate_spec in Ha as (_ & <- & _).
      apply candidate_spec in Hb as (_ & <- & _). reflexivity.
  - intros a b x _ _ Ha Hb.
    apply in_flat_map in Ha as (j & _ & Ha).
    apply in_flat_map in Hb as (j' & _ & Hb).
    apply candidate_spec in Ha as (<- & _).
    apply candidate_spec in Hb as (<- & _). reflexivity.
Qed.

(** An entry is determined by its pair of particles. *)
Lemma connections_pair_inj particles c c' :
  In c (calculatePotentialConnections particles) ->
  In c' (calculatePotentialConnections particles) ->
  unorderedPair c = unorderedPair c' -> c = c'.
Proof.
  intros H H' E.
  apply connections_in in H as (Hlt & H), H' as (Hlt' & H').
  unfold unorderedPair in E.
  rewrite !Nat.min_l, !Nat.max_r in E by lia.
  injection E as E1 E2.
  rewrite <- E1, <- E2 in H'.
  unfold candidate in H, H'.
  destruct (nth_error particles (p1 c)); [|destruct H].
  destruct (nth_error particles (p2 c)); [|destruct H].
  destruct (targetPosition _); [|destruct H].
  destruct (targetPosition _); [|destruct H].
  cbv zeta in *. destruct (ltb _ _); [|destruct H].
  destruct H as [<-|[]]. destruct H' as [<-|[]]. reflexivity.
Qed.

Lemma NoDup_map_inj {A B : Type} (f : A -> B) : forall l,
  NoDup l ->
  (forall a b, In a l -> In b l -> f a = f b -> a = b) ->
  NoDup (map f l).
Proof.
  induction l as [|a l IH]; intros Hnd Hinj; simpl; constructor.
  - inversion Hnd as [|? ? Hnotin _]; subst.
    intros Hin. apply in_map_iff in Hin as (b & Eb & Hb).
    assert (b = a) by (apply Hinj; [right; assumption | left; reflexivity | assumption]).
    subst. contradiction.
  - inversion Hnd; subst. apply IH; auto.
    intros b c Hb Hc. apply Hinj; right; assumption.
Qed.

(** C9. Every candidate connection joins two distinct particles of the
    pool that both have a target position; its recorded distance is the
    distance between the two target positions and is strictly below the
    threshold 3.0; and no unordered pair of particles occurs twice. *)
Theorem candidate_connections_sound (particles : list particle) :
  (forall c, In c (calculatePotentialConnections particles) ->
     p1 c <> p2 c /\
     exists pa pb ta tb,
       nth_error particles (p1 c) = Some pa /\
       nth_error particles (p2 c) = Some pb /\
       targetPosition pa = Some ta /\ targetPosition pb = Some tb /\
       distance c = V3.distanceTo ta tb /\
       distance c < 3.0) /\
  NoDup (map unorderedPair (calculatePotentialConnections particles)).
Proof.
  split.
  - intros c H. apply connections_in in H as (Hlt & H).
    split; [lia|].
    apply candidate_spec in H as (_ & _ & _ & pa & pb & ta & tb & H).
    exists pa, pb, ta, tb. exact H.
  - apply NoDup_map_inj.
    + apply connections_NoDup.
    + apply connections_pair_inj.
Qed.

Lemma distance_on_x a b : a <= b ->
  V3.distanceTo (V3.mk a 0 0) (V3.mk b 0 0) = b - a.
Proof.
  intros H. unfold V3.distanceTo, V3.distanceToSquared. cbv zeta.
  cbn [V3.x V3.y V3.z].
  replace (_ + _) with ((b - a) * (b - a)) by ring.
  apply sqrt_square. lra.
Qed.

(** Of the three pairs on the line only the one at distance 1 is a
    candidate; the pairs at distance 10 and 9 are not. *)
Example connections_on_a_line :
  calculatePotentialConnections Inputs.on_a_line =
    [mkPotential 0 1 (V3.distanceTo (V3.mk 0 0 0) (V3.mk 1 0 0)) false].
Proof.
  unfold calculatePotentialConnections, Inputs.on_a_line. cbv zeta.
  cbn [map List.length seq Nat.sub flat_map app].
  unfold candidate. cbn [nth_error targetPosition].
  cbv zeta. rewrite !distance_on_x by lra.
  assert (H1 : ltb (1 - 0) CONNECTION_THRESHOLD = true)
    by (apply ltb_true; unfold CONNECTION_THRESHOLD; lra).
  assert (H2 : ltb (10 - 0) CONNECTION_THRESHOLD = false)
    by (apply ltb_false; unfold CONNECTION_THRESHOLD; lra).
  assert (H3 : ltb (10 - 1) CONNECTION_THRESHOLD = false)
    by (apply ltb_false; unfold CONNECTION_THRESHOLD; lra).
  rewrite H1, H2, H3. reflexivity.
Qed.

End CandidateConnections.

(** ** The provider calls *)

Section ProviderCalls.

Import Js SpaceGenerator Inputs.

Lemma firstn_padTo n d (l : list number) :
  firstn n (padTo n d l) = firstn n l ++ repeat d (n - List.length l).
Proof.
  unfold padTo. rewrite firstn_app.
  f_equal. rewrite firstn_all2; auto. rewrite repeat_length. lia.
Qed.

Lemma firstn_padTo_length n d (l : list number) :
  List.length (firstn n (padTo n d l)) = n.
Proof.
  rewrite firstn_padTo, length_app, length_firstn, repeat_length. lia.
Qed.

Lemma inRange_spec lo hi v :
  inRange lo hi v = true -> exists r, v = Finite r /\ lo <= r <= hi.
Proof.
  destruct v as [| | |r]; simpl; try discriminate.
  intros H. apply andb_true_iff in H as [H1 H2].
  apply leb_true in H1, H2. eauto.
Qed.

Lemma parseLines_inRange parseFloat lo hi text :
  Forall (fun v => exists r, v = Finite r /\ lo <= r <= hi)
         (parseLines parseFloat lo hi text).
Proof.
  unfold parseLines. apply Forall_forall. intros v Hv.
  apply filter_In in Hv as [_ Hv]. apply inRange_spec; assumption.
Qed.

(** Parsed, filtered, padded and cut: exactly [n] values in range. *)
Lemma padded_spec parseFloat lo hi d text n :
  lo <= d <= hi ->
  List.length (firstn n (padTo n (Finite d) (parseLines parseFloat lo hi text))) = n /\
  Forall (fun v => exists r, v = Finite r /\ lo <= r <= hi)
         (firstn n (padTo n (Finite d) (parseLines parseFloat lo hi text))).
Proof.
  intros Hd. split; [apply firstn_padTo_length|].
  rewrite firstn_padTo. apply Forall_app. split.
  - apply Forall_forall. intros v Hv. apply In_nth_error in Hv as (i & Hi).
    pose proof (parseLines_inRange parseFloat lo hi text) as H.
    rewrite Forall_forall in H. apply H.
    rewrite nth_error_firstn in Hi.
    destruct (i <? n)%nat; [|discriminate]. eapply nth_error_In; eauto.
  - apply Forall_forall. intros v Hv. apply repeat_spec in Hv. subst. eauto.
Qed.

Lemma defaults_spec {A : Type} (d : number) (items : list A) :
  map (fun _ => d) items = repeat d (List.length items).
Proof. induction items as [|a tl IH]; simpl; [|rewrite IH]; reflexivity. Qed.

Lemma failed_some text : text <> EmptyString -> failed (Some text) = false.
Proof.
  intros H. simpl. apply String.eqb_neq. assumption.
Qed.

(** C6. The similarity and importance queries return lists, whatever the
    provider does.  The result always has exactly one value per requested
    neighbor (per word), each a finite number in [0,1] (in [0,10]); when
    the call failed every value is the default 0.5 (2.0); when it
    answered, the result is the parsed values that are in range, in
    order, followed by defaults, cut to the input length. *)
Theorem provider_calls_fall_back
  (queryGroq : string -> option string) (parseFloat : string -> number)
  (word : string) (neighbors words : list string) :
  let similarities := batchSimilarity queryGroq parseFloat word neighbors in
  let n := List.length neighbors in
  let ratings := calculateCurvature queryGroq parseFloat words in
  let m := List.length words in
  (List.length similarities = n /\
   Forall (fun v => exists r, v = Finite r /\ 0 <= r <= 1) similarities /\
   (failed (queryGroq (similarityPrompt word neighbors)) = true ->
      similarities = repeat (Finite 0.5) n) /\
   (forall text,
      queryGroq (similarityPrompt word neighbors) = Some text ->
      text <> EmptyString ->
      let kept := parseLines parseFloat 0 1 text in
      similarities = firstn n kept ++ repeat (Finite 0.5) (n - List.length kept))) /\
  (List.length ratings = m /\
   Forall (fun v => exists r, v = Finite r /\ 0 <= r <= 10) ratings /\
   (failed (queryGroq (curvaturePrompt words)) = true ->
      ratings = repeat (Finite 2.0) m) /\
   (forall text,
      queryGroq (curvaturePrompt words) = Some text ->
      text <> EmptyString ->
      let kept := parseLines parseFloat 0 10 text in
      ratings = firstn m kept ++ repeat (Finite 2.0) (m - List.length kept))).
Proof.
  cbv zeta. split.
  - unfold batchSimilarity. cbv zeta.
    destruct (queryGroq (similarityPrompt word neighbors)) as [text|] eqn:E.
    + destruct (failed (Some text)) eqn:F.
      * rewrite defaults_spec. repeat split.
        -- apply repeat_length.
        -- apply Forall_forall. intros v Hv. apply repeat_spec in Hv.
           subst. exists 0.5. split; [reflexivity | lra].
        -- intros t Et Hne. injection Et as <-.
           rewrite failed_some in F by assumption. discriminate.
      * destruct (padded_spec parseFloat 0 1 0.5 text (List.length neighbors)
                    ltac:(lra)) as [Hl Hf].
        repeat split; auto.
        -- discriminate.
        -- intros t Et _. injection Et as <-. apply firstn_padTo.
    + rewrite defaults_spec. repeat split.
      * apply repeat_length.
      * apply Forall_forall. intros v Hv. apply repeat_spec in Hv.
        subst. exists 0.5. split; [reflexivity | lra].
      * discriminate.
  - unfold calculateCurvature. cbv zeta.
    destruct (queryGroq (curvaturePrompt words)) as [text|] eqn:E.
    + destruct (failed (Some text)) eqn:F.
      * rewrite defaults_spec. repeat split.
        -- apply repeat_length.
        -- apply Forall_forall. intros v Hv. apply repeat_spec in Hv.
           subst. exists 2.0. split; [reflexivity | lra].
        -- intros t Et Hne. injection Et as <-.
           rewrite failed_some in F by assumption. discriminate.
      * destruct (padded_spec parseFloat 0 10 2.0 text (List.length words)
                    ltac:(lra)) as [Hl Hf].
        repeat split; auto.
        -- discriminate.
        -- intros t Et _. injection Et as <-. apply firstn_padTo.
    + rewrite defaults_spec. repeat split.
      * apply repeat_length.
      * apply Forall_forall. intros v Hv. apply repeat_spec in Hv.
        subst. exists 2.0. split; [reflexivity | lra].
      * discriminate.
Qed.

Lemma inRange_inside lo hi r : lo <= r <= hi -> inRange lo hi (Finite r) = true.
Proof.
  intros [H1 H2]. simpl. apply andb_true_iff. split; apply leb_true; assumption.
Qed.

Lemma inRange_above lo hi r : hi < r -> inRange lo hi (Finite r) = false.
Proof.
  intros H. simpl. apply andb_false_iff. right. apply leb_false. lra.
Qed.

(** Three lines answered for three neighbors: 0.9 is kept, 1.5 is out of
    range and [abc] is not a number, so two defaults follow. *)
Example batchSimilarity_three_lines :
  batchSimilarity answering parse_three "soul" three_neighbors =
    [Finite 0.9; Finite 0.5; Finite 0.5].
Proof.
  unfold batchSimilarity, answering. cbv zeta.
  assert (P : parseLines parse_three 0 1 three_lines = [Finite 0.9]).
  { unfold parseLines.
    assert (L : map (fun line => parse_three (trim line))
                    (split (ascii_of_nat 10) three_lines) =
                [Finite 0.9; Finite 1.5; NaN]) by reflexivity.
    rewrite L. cbn [filter].
    rewrite (inRange_inside 0 1 0.9), (inRange_above 0 1 1.5) by lra.
    reflexivity. }
  replace (failed (Some three_lines)) with false by reflexivity.
  rewrite P. reflexivity.
Qed.

(** For importance the same three lines keep 0.9 and 1.5. *)
Example calculateCurvature_three_lines :
  calculateCurvature answering parse_three three_neighbors =
    [Finite 0.9; Finite 1.5; Finite 2.0].
Proof.
  unfold calculateCurvature, answering. cbv zeta.
  assert (P : parseLines parse_three 0 10 three_lines = [Finite 0.9; Finite 1.5]).
  { unfold parseLines.
    assert (L : map (fun line => parse_three (trim line))
                    (split (ascii_of_nat 10) three_lines) =
                [Finite 0.9; Finite 1.5; NaN]) by reflexivity.
    rewrite L. cbn [filter].
    rewrite (inRange_inside 0 10 0.9), (inRange_inside 0 10 1.5) by lra.
    reflexivity. }
  replace (failed (Some three_lines)) with false by reflexivity.
  rewrite P. reflexivity.
Qed.

Lemma provider_calls_fall_back_witness :
  batchSimilarity failing parse_three "soul" three_neighbors =
    [Finite 0.5; Finite 0.5; Finite 0.5] /\
  calculateCurvature failing parse_three three_neighbors =
    [Finite 2.0; Finite 2.0; Finite 2.0].
Proof.
  destruct (provider_calls_fall_back failing parse_three "soul"
              three_neighbors three_neighbors)
    as [(_ & _ & Hs & _) (_ & _ & Hc & _)].
  split; [apply Hs | apply Hc]; reflexivity.
Defined.

End ProviderCalls.

(** ** The controller: entering superposition *)

Section Superposition.

Import Js Particles Controller.

Variable random : nat -> R.

Lemma spread_invisible : forall ps c,
  Forall (fun p => visible p = false) ps ->
  Forall (fun p => visible p = false) (fst (spread random c ps)).
Proof.
  induction ps as [|p tl IH]; intros c H; simpl.
  - constructor.
  - inversion H as [|? ? Hp Htl]; subst.
    specialize (IH (c + 3)%nat Htl).
    destruct (spread random (c + 3) tl) as [tl' c']. simpl in *.
    constructor; auto.
Qed.

(** What [enterSuperposition] establishes, from any state. *)
Lemma enterSuperposition_spec s :
  let s' := enterSuperposition random s in
  particleState s' = SUPERPOSITION /\
  isDecaying s' = false /\ decayPaused s' = false /\
  connections (world s') = [] /\
  Forall (fun p => visible p = false) (particles (world s')) /\
  assemblyPhase s' = assemblyPhase s /\ statusText s' = statusText s /\
  chains s' = chains s /\ timers s' = timers s.
Proof.
  unfold enterSuperposition. cbv zeta. cbn [world setDecayPaused setIsDecaying setParticleState].
  pose proof (spread_invisible (map hide (particles (world s))) (drawn (world s))) as H.
  destruct (spread random (drawn (world s)) (map hide (particles (world s))))
    as [ps c]. simpl in *.
  repeat split; auto.
  apply H. apply Forall_forall. intros p Hp.
  apply in_map_iff in Hp as (p0 & <- & _). reflexivity.
Qed.

Lemma fold_enterSuperposition (due : list R) : forall s,
  due <> [] ->
  let s' := fold_left (fun s _ => enterSuperposition random s) due s in
  particleState s' = SUPERPOSITION /\
  isDecaying s' = false /\ decayPaused s' = false /\
  connections (world s') = [] /\
  Forall (fun p => visible p = false) (particles (world s')) /\
  chains s' = chains s /\ timers s' = timers s.
Proof.
  induction due as [|t tl IH]; intros s Hne; [congruence|].
  simpl. destruct tl as [|t' tl'].
  - simpl. destruct (enterSuperposition_spec s) as (A & B & C & D & E & _ & _ & F & G).
    repeat split; auto.
  - destruct (IH (enterSuperposition random s) ltac:(discriminate))
      as (A & B & C & D & E & F & G).
    repeat split; auto.
    + rewrite F. apply enterSuperposition_spec.
    + rewrite G. apply enterSuperposition_spec.
Qed.

(** A timer that is due fires: the controller is in superposition
    afterwards and the timer is gone. *)
Lemma fireTimers_due now t s :
  In t (timers s) -> t <= now ->
  let s' := fireTimers random now s in
  particleState s' = SUPERPOSITION /\
  isDecaying s' = false /\ decayPaused s' = false /\
  connections (world s') = [] /\
  Forall (fun p => visible p = false) (particles (world s')) /\
  chains s' = chains s /\ ~ In t (timers s').
Proof.
  intros Hin Hle. unfold fireTimers. cbv zeta.
  destruct (fold_enterSuperposition
              (filter (fun t => leb t now) (timers s))
              (setTimers (filter (fun t => negb (leb t now)) (timers s)) s))
    as (A & B & C & D & E & F & G).
  - intros E.
    assert (H : In t (filter (fun t => leb t now) (timers s))).
    { apply filter_In. split; auto. apply leb_true. assumption. }
    rewrite E in H. destruct H.
  - repeat split; auto.
    rewrite G. simpl. intros H. apply filter_In in H as [_ H].
    apply negb_true_iff, leb_false in H. contradiction.
Qed.

End Superposition.

(** ** The controller: a failing provider *)

Section ProviderFailure.

Import Js Particles Controller Inputs.

Variable random : nat -> R.
Variable queryGroq : string -> option string.
Variable motion : phaseName -> R -> scene -> scene.

Lemma generateCoreWords_failed question :
  SpaceGenerator.failed (queryGroq (SpaceGenerator.coreWordsPrompt question)) = true ->
  SpaceGenerator.generateCoreWords queryGroq question =
    inl "Failed to generate words from LLM"%string.
Proof.
  intros H. unfold SpaceGenerator.generateCoreWords. cbv zeta.
  destruct (queryGroq (SpaceGenerator.coreWordsPrompt question)); auto.
  rewrite H. reflexivity.
Qed.

(** C5. When the provider fails at the word-generation step of a call
    of [collapseToShape], the call ends at once with the status line
    [Assembly failed: Failed to generate words from LLM] and one timer set
    2000 ms ahead; the phase variables are untouched.  When that timer has
    fired the controller is in superposition: no decay, no pause, no
    connection, every particle hidden, and the failed call no longer in
    flight. *)
Theorem word_failure_returns_to_superposition
  (now : R) (id : nat) (q contextual : string) (s : state) :
  nth_error (chains s) id = Some (mkChain q (Generating contextual)) ->
  SpaceGenerator.failed
    (queryGroq (SpaceGenerator.coreWordsPrompt contextual)) = true ->
  let s1 := handle random queryGroq motion now (WordsReplied id) s in
  statusText s1 = "Assembly failed: Failed to generate words from LLM"%string /\
  chains s1 = removeAt id (chains s) /\
  timers s1 = timers s ++ [now + 2000] /\
  particleState s1 = particleState s /\ assemblyPhase s1 = assemblyPhase s /\
  forall later, now + 2000 <= later ->
    let s2 := handle random queryGroq motion later Timeout s1 in
    particleState s2 = SUPERPOSITION /\
    isDecaying s2 = false /\ decayPaused s2 = false /\
    connections (world s2) = [] /\
    Forall (fun p => visible p = false) (particles (world s2)) /\
    chains s2 = removeAt id (chains s) /\
    ~ In (now + 2000) (timers s2).
Proof.
  intros Hc Hf. cbv zeta. unfold handle, wordsReplied.
  rewrite Hc, (generateCoreWords_failed _ Hf).
  set (s1 := assemblyFailed now _ _).
  assert (Ht : timers s1 = timers s ++ [now + 2000]) by reflexivity.
  assert (Hch : chains s1 = removeAt id (chains s)) by reflexivity.
  repeat split; auto.
  all: destruct (fireTimers_due random later (now + 2000) s1) as (A & B & C & D & E & F & G);
    auto; try (rewrite Ht; apply in_or_app; right; left; reflexivity).
Qed.

End ProviderFailure.

(** The first question, asked from superposition at time 0 with a
    provider that fails. *)
Section ProviderFailureExample.

Import Js Particles Controller Inputs.

Lemma word_failure_returns_to_superposition_witness :
  let s1 := handle half failing still 350 (WordsReplied 0) asked in
  particleState asked = SUPERPOSITION /\
  statusText s1 = "Assembly failed: Failed to generate words from LLM"%string /\
  particleState s1 = SUPERPOSITION /\
  particleState (handle half failing still 2350 Timeout s1) = SUPERPOSITION /\
  chains (handle half failing still 2350 Timeout s1) = [].
Proof.
  destruct (word_failure_returns_to_superposition half failing still
              350 0 "what is mind"%string "what is mind"%string asked
              eq_refl eq_refl)
    as (A & B & C & D & E & F).
  destruct (F 2350 ltac:(lra)) as (G & _ & _ & _ & _ & H & _).
  cbv zeta. repeat split; auto.
Defined.

End ProviderFailureExample.

(** ** The controller: a new question during an assembly *)

Section NewQuestion.

Import Js Particles Controller Inputs.

Variable random : nat -> R.
Variable queryGroq : string -> option string.
Variable motion : phaseName -> R -> scene -> scene.

(** What submitting a question does, in any state: the flags are reset
    and one call is added at the end of the calls in flight.  The phase
    variables, the particles, the connections, the timers and the calls
    already in flight are as before. *)
Lemma keypressEnter_spec now value s :
  trim value <> EmptyString ->
  let s1 := keypressEnter now value s in
  particleState s1 = particleState s /\
  assemblyPhase s1 = assemblyPhase s /\
  world s1 = world s /\ timers s1 = timers s /\
  isDecaying s1 = false /\ decayPaused s1 = false /\
  exists contextual,
    chains s1 = chains s ++ [mkChain (trim value) (Generating contextual)].
Proof.
  intros H. unfold keypressEnter. cbv zeta.
  apply String.eqb_neq in H. rewrite H.
  unfold collapseToShape. cbv zeta. simpl.
  repeat split; auto. eexists. reflexivity.
Qed.

(** The frame callback of a phase that has run its duration: the last
    frame of the phase, then the start of what follows it. *)
Lemma animatePhase_done now c s phase startTime :
  awaiting c = Animating phase startTime ->
  0 < duration phase -> duration phase <= now - startTime ->
  animatePhase motion now c s =
    (fst (afterPhase motion now phase (setWorld (motion phase 1 (world s)) s)),
     mkChain (question c)
       (snd (afterPhase motion now phase (setWorld (motion phase 1 (world s)) s)))).
Proof.
  intros Hc Hd Hle. unfold animatePhase. rewrite Hc. cbv zeta.
  assert (Ht : Rmin ((now - startTime) / duration phase) 1 = 1).
  { apply Rmin_right. apply Rmult_le_reg_r with (duration phase); auto.
    unfold Rdiv. rewrite Rmult_assoc, Rinv_l by lra. lra. }
  rewrite Ht.
  assert (Hl : ltb 1 1 = false) by (apply ltb_false; lra).
  rewrite Hl.
  destruct (afterPhase motion now phase (setWorld (motion phase 1 (world s)) s)).
  reflexivity.
Qed.

(** A frame outside the assembled state: the connections pulse and the
    phase callbacks run; there is no decay to update. *)
Lemma animationFrame_unassembled now s :
  isAssembled (particleState s) = false ->
  animationFrame random motion now s =
    setChains
      (snd (animatePhases motion now (chains s)
              (setWorld (updateConnections now (world s)) s)))
      (fst (animatePhases motion now (chains s)
              (setWorld (updateConnections now (world s)) s))).
Proof.
  intros H. unfold animationFrame, updateContextDecay. cbv zeta.
  change (particleState (setWorld (updateConnections now (world s)) s))
    with (particleState s).
  rewrite H. cbn [negb].
  change (chains (setWorld (updateConnections now (world s)) s))
    with (chains s).
  destruct (animatePhases motion now (chains s) _) as [s' cs]. reflexivity.
Qed.

(** C1 at a question submitted 900 ms into the attraction phase of the
    previous one.  Nothing is cancelled and nothing restarts: the
    controller is still in ATTRACTION, the previous call is still waiting
    on its phase, and the new call only waits for its words.  The frame at
    4000 ms still runs the previous call's animation, which completes the
    attraction phase and starts BONDING. *)
Theorem new_question_leaves_previous_assembly_running
  (w : scene) (sp : space) :
  let s0 := attracting w sp in
  let s1 := handle random queryGroq motion 2000 (KeypressEnter "what is time") s0 in
  let s2 := handle random queryGroq motion 4000 AnimationFrame s1 in
  particleState s1 = ATTRACTION /\ assemblyPhase s1 = ATTRACTION /\
  world s1 = w /\
  (exists contextual,
     chains s1 = [mkChain "what is mind" (Animating ATTRACTION 1100);
                  mkChain "what is time" (Generating contextual)]) /\
  particleState s2 = BONDING /\ assemblyPhase s2 = BONDING /\
  world s2 = motion BONDING 0 (motion ATTRACTION 1 (updateConnections 4000 w)) /\
  (exists contextual,
     chains s2 = [mkChain "what is mind" (Animating BONDING 4000);
                  mkChain "what is time" (Generating contextual)]).
Proof.
  cbv zeta.
  set (s1 := handle random queryGroq motion 2000 (KeypressEnter "what is time")
               (attracting w sp)).
  assert (E1 : s1 =
    mkState w ATTRACTION ATTRACTION (Some sp) (Some "what is mind"%string) 100 0
      false false "Asking LLM for core concepts..."
      [mkChain "what is mind" (Animating ATTRACTION 1100);
       mkChain "what is time"
         (Generating (buildContextualPrompt 2000 "what is time" (attracting w sp)))]
      []) by reflexivity.
  rewrite E1. clear E1 s1.
  repeat split; try reflexivity.
  1: eexists; reflexivity.
  all: unfold handle; rewrite animationFrame_unassembled by reflexivity;
    cbn [chains animatePhases];
    rewrite (animatePhase_done 4000
               (mkChain "what is mind" (Animating ATTRACTION 1100)) _
               ATTRACTION 1100 eq_refl)
      by (simpl; lra);
    cbn [animatePhase awaiting]; try reflexivity.
  eexists; reflexivity.
Qed.

End NewQuestion.

(** ** The controller: pausing the decay *)

Section DecayPause.

Import Js Particles Controller Inputs.

Variable random : nat -> R.
Variable queryGroq : string -> option string.
Variable motion : phaseName -> R -> scene -> scene.

(** While the pause flag is set the decay update changes nothing. *)
Lemma updateContextDecay_paused now s :
  isDecaying s = true -> decayPaused s = true ->
  updateContextDecay random now s = s.
Proof.
  intros Hd Hp. unfold updateContextDecay. cbv zeta.
  destruct (negb (isAssembled (particleState s))); auto.
  rewrite Hd. cbn [negb]. rewrite andb_false_r, Hd, Hp. reflexivity.
Qed.

(** The space bar does nothing unless the shape is assembled and
    decaying. *)
Lemma keydownSpace_elsewhere s :
  isAssembled (assemblyPhase s) && isDecaying s = false -> keydownSpace s = s.
Proof. intros H. unfold keydownSpace. rewrite H. reflexivity. Qed.

(** Once the clock is past the decay window an unpaused update ends the
    decay. *)
Lemma updateContextDecay_complete now s :
  particleState s = ASSEMBLED -> isDecaying s = true -> decayPaused s = false ->
  CONTEXT_DECAY_START + CONTEXT_DECAY_DURATION <= now - decayStartTime s ->
  decayProgress now s = 1 /\
  particleState (updateContextDecay random now s) = SUPERPOSITION /\
  connections (world (updateContextDecay random now s)) = [] /\
  chains (updateContextDecay random now s) = chains s.
Proof.
  intros Hs Hd Hp Hle.
  assert (Hpr : decayProgress now s = 1).
  { unfold decayProgress. cbv zeta. apply Rmin_left.
    unfold CONTEXT_DECAY_START, CONTEXT_DECAY_DURATION in *.
    apply Rmult_le_reg_r with 45000; [lra|].
    unfold Rdiv. rewrite Rmult_assoc, Rinv_l by lra. lra. }
  split; auto.
  unfold updateContextDecay. cbv zeta.
  rewrite Hs. cbn [isAssembled negb]. rewrite Hd. cbn [negb].
  rewrite andb_false_r, Hd, Hp. cbn [negb]. rewrite Hpr.
  destruct (decayParticles random 1 (drawn (world s)) (particles (world s)))
    as [ps c].
  assert (Hl : leb 1.0 1 = true) by (apply leb_true; lra).
  rewrite Hl.
  match goal with |- context [enterSuperposition random ?t] =>
    destruct (enterSuperposition_spec random t) as (A & _ & _ & D & _ & _ & _ & F & _)
  end.
  repeat split; auto.
Qed.

(** The first decay update after the dwell time: the decay begins and
    the particles and connections take their first decay step. *)
Lemma updateContextDecay_begins now s :
  particleState s = ASSEMBLED -> isDecaying s = false -> decayPaused s = false ->
  CONTEXT_DECAY_START < now - decayStartTime s ->
  now - decayStartTime s < CONTEXT_DECAY_START + CONTEXT_DECAY_DURATION ->
  exists w,
    updateContextDecay random now s =
      setWorld w
        (setStatusText
           "Context fading... shape dissolving... (press SPACE to pause)"
           (setIsDecaying true s)).
Proof.
  intros Hs Hd Hp Hlo Hhi. unfold updateContextDecay. cbv zeta.
  rewrite Hs. cbn [isAssembled negb]. rewrite Hd. cbn [negb].
  assert (Hl : ltb CONTEXT_DECAY_START (now - decayStartTime s) = true)
    by (apply ltb_true; assumption).
  rewrite Hl. cbn [andb isDecaying setStatusText setIsDecaying negb decayPaused].
  rewrite Hp.
  set (s' := setStatusText _ _).
  assert (Hpr : decayProgress now s' < 1).
  { unfold decayProgress. cbv zeta. cbn [decayStartTime s' setStatusText setIsDecaying].
    unfold CONTEXT_DECAY_START, CONTEXT_DECAY_DURATION in *.
    apply Rle_lt_trans with ((now - decayStartTime s - 30000) / 45000);
      [apply Rmin_r|].
    apply Rmult_lt_reg_r with 45000; [lra|].
    unfold Rdiv. rewrite Rmult_assoc, Rinv_l by lra. lra. }
  destruct (decayParticles random (decayProgress now s') (drawn (world s'))
              (particles (world s'))) as [ps c].
  assert (Hf : leb 1.0 (decayProgress now s') = false) by (apply leb_false; lra).
  rewrite Hf. eexists. reflexivity.
Qed.

(** C2 at a pause of one minute.  The decay is paused at 50 s, where its
    progress is 2/9.  A frame while paused leaves the particles and the
    flags as they are (the decay update changes nothing; the connections
    get the pulsing opacity of every frame, not the faded one).  The decay
    is resumed at 110 s: the progress is then 1, not 2/9, and the first
    frame after the resume ends the decay; the shape is gone. *)
Theorem pause_does_not_hold_progress (w : scene) (sp : space) :
  let s0 := decaying w sp in
  let s1 := handle random queryGroq motion 50000 KeydownSpace s0 in
  let s2 := handle random queryGroq motion 80000 AnimationFrame s1 in
  let s3 := handle random queryGroq motion 110000 KeydownSpace s2 in
  let s4 := handle random queryGroq motion 110016 AnimationFrame s3 in
  decayProgress 50000 s0 = 2 / 9 /\
  decayPaused s1 = true /\
  updateContextDecay random 80000 s1 = s1 /\
  particles (world s2) = particles w /\
  connections (world s2) = map (pulse 80000) (connections w) /\
  isDecaying s2 = true /\ decayPaused s2 = true /\
  decayPaused s3 = false /\
  decayProgress 110016 s3 = 1 /\
  particleState s4 = SUPERPOSITION /\
  connections (world s4) = [].
Proof.
  cbv zeta.
  set (s1 := handle random queryGroq motion 50000 KeydownSpace (decaying w sp)).
  assert (E1 : s1 =
    mkState w ASSEMBLED ASSEMBLED (Some sp) (Some "what is mind"%string) 100 10000
      true true "Decay paused - inspecting shape (press SPACE to resume)" [] [])
    by reflexivity.
  set (s2 := handle random queryGroq motion 80000 AnimationFrame s1).
  assert (E2 : s2 =
    mkState (updateConnections 80000 w) ASSEMBLED ASSEMBLED (Some sp)
      (Some "what is mind"%string) 100 10000
      true true "Decay paused - inspecting shape (press SPACE to resume)" [] []).
  { unfold s2, handle, animationFrame. cbv zeta.
    rewrite updateContextDecay_paused by (rewrite E1; reflexivity).
    rewrite E1. reflexivity. }
  set (s3 := handle random queryGroq motion 110000 KeydownSpace s2).
  assert (E3 : s3 =
    mkState (updateConnections 80000 w) ASSEMBLED ASSEMBLED (Some sp)
      (Some "what is mind"%string) 100 10000
      true false "Context decaying into void..." [] [])
    by (unfold s3; rewrite E2; reflexivity).
  set (s3' := setWorld (updateConnections 110016 (world s3)) s3).
  destruct (updateContextDecay_complete 110016 s3') as (A & B & C & D);
    try (unfold s3'; rewrite E3; reflexivity).
  { unfold s3'. rewrite E3. unfold CONTEXT_DECAY_START, CONTEXT_DECAY_DURATION.
    simpl. lra. }
  split.
  { unfold decayProgress, decaying, CONTEXT_DECAY_START, CONTEXT_DECAY_DURATION.
    cbn [decayStartTime]. rewrite Rmin_right; lra. }
  split; [rewrite E1; reflexivity|].
  split; [apply updateContextDecay_paused; rewrite E1; reflexivity|].
  rewrite E2. cbn [world particles connections updateConnections isDecaying decayPaused].
  repeat (split; [reflexivity|]).
  split; [rewrite E3; reflexivity|].
  split.
  { unfold decayProgress in *. rewrite E3. unfold s3' in A. rewrite E3 in A.
    exact A. }
  unfold handle, animationFrame. cbv zeta. fold s3'.
  rewrite D.
  assert (Hc : chains s3' = []) by (unfold s3'; rewrite E3; reflexivity).
  rewrite Hc. cbn [animatePhases]. simpl. auto.
Qed.

(** A question submitted during the decay does not stop the decay
    either.  The handler clears [isDecaying], but the next frame finds
    the dwell time exceeded and sets it again; when the generation of the
    new space outlasts the decay window, the decay completes and the
    controller passes through superposition with the new call still
    waiting for its words. *)
Lemma new_question_does_not_stop_decay (w : scene) (sp : space) :
  let s0 := decaying w sp in
  let s1 := handle random queryGroq motion 50000 (KeypressEnter "what is time") s0 in
  let s2 := handle random queryGroq motion 50016 AnimationFrame s1 in
  let s3 := handle random queryGroq motion 90000 AnimationFrame s2 in
  isDecaying s1 = false /\
  isDecaying s2 = true /\
  particleState s3 = SUPERPOSITION /\
  exists contextual,
    chains s3 = [mkChain "what is time" (Generating contextual)].
Proof.
  cbv zeta.
  set (s1 := handle random queryGroq motion 50000 (KeypressEnter "what is time")
               (decaying w sp)).
  set (waiting := [mkChain "what is time"
         (Generating (buildContextualPrompt 50000 "what is time" (decaying w sp)))]).
  assert (E1 : s1 =
    mkState w ASSEMBLED ASSEMBLED (Some sp) (Some "what is mind"%string) 100 10000
      false false "Asking LLM for core concepts..." waiting [])
    by reflexivity.
  split; [rewrite E1; reflexivity|].
  set (s2 := handle random queryGroq motion 50016 AnimationFrame s1).
  assert (E2 : exists w',
    s2 = mkState w' ASSEMBLED ASSEMBLED (Some sp) (Some "what is mind"%string)
           100 10000 true false
           "Context fading... shape dissolving... (press SPACE to pause)"
           waiting []).
  { unfold s2, handle, animationFrame. cbv zeta.
    destruct (updateContextDecay_begins 50016
                (setWorld (updateConnections 50016 (world s1)) s1)) as (w' & ->);
      try (rewrite E1; reflexivity).
    - rewrite E1. unfold CONTEXT_DECAY_START. simpl. lra.
    - rewrite E1. unfold CONTEXT_DECAY_START, CONTEXT_DECAY_DURATION. simpl. lra.
    - exists w'. rewrite E1. reflexivity. }
  destruct E2 as (w' & E2).
  split; [rewrite E2; reflexivity|].
  set (s2' := setWorld (updateConnections 90000 (world s2)) s2).
  destruct (updateContextDecay_complete 90000 s2') as (_ & B & _ & D);
    try (unfold s2'; rewrite E2; reflexivity).
  { unfold s2'. rewrite E2. unfold CONTEXT_DECAY_START, CONTEXT_DECAY_DURATION.
    simpl. lra. }
  unfold handle, animationFrame. cbv zeta. fold s2'. rewrite D.
  assert (Hc : chains s2' = waiting) by (unfold s2'; rewrite E2; reflexivity).
  rewrite Hc. unfold waiting. cbn [animatePhases animatePhase awaiting].
  split; [exact B|]. eexists. reflexivity.
Qed.

End DecayPause.

(** ** The controller: the two situations above arise from the initial state *)

Section Reachable.

Import Js Particles Controller Inputs.

Lemma state_eta s :
  s = mkState (world s) (particleState s) (assemblyPhase s) (currentSpace s)
        (previousQuestion s) (assemblyTimestamp s) (decayStartTime s)
        (isDecaying s) (decayPaused s) (statusText s) (chains s) (timers s).
Proof. destruct s; reflexivity. Qed.

(** The record updates of a state that is given field by field,
    innermost first. *)
Ltac state_norm :=
  cbv [afterPhase startPhase still
       setChains setWorld setStatusText setParticleState setAssemblyPhase
       setDecayStartTime setIsDecaying setDecayPaused setTimers
       fst snd world particleState assemblyPhase currentSpace
       previousQuestion assemblyTimestamp decayStartTime isDecaying
       decayPaused statusText chains timers phaseStatus].

(** One frame that finds the phase of the only call in flight complete. *)
Lemma frame_completes_phase now w phase startTime pst aph sp ts dst status :
  isAssembled pst = false ->
  0 < duration phase -> duration phase <= now - startTime ->
  animationFrame half still now
    (mkState w pst aph (Some sp) (Some "what is mind"%string) ts dst
       false false status
       [mkChain "what is mind" (Animating phase startTime)] []) =
  setChains
    [mkChain "what is mind"
       (snd (afterPhase still now phase
          (mkState (updateConnections now w) pst aph (Some sp)
             (Some "what is mind"%string) ts dst false false status
             [mkChain "what is mind" (Animating phase startTime)] [])))]
    (fst (afterPhase still now phase
       (mkState (updateConnections now w) pst aph (Some sp)
          (Some "what is mind"%string) ts dst false false status
          [mkChain "what is mind" (Animating phase startTime)] []))).
Proof.
  intros Hp Hd Hle.
  rewrite animationFrame_unassembled by exact Hp.
  cbn [chains animatePhases].
  rewrite (animatePhase_done still now
             (mkChain "what is mind" (Animating phase startTime)) _
             phase startTime eq_refl Hd Hle).
  reflexivity.
Qed.

(** A question asked in superposition with a provider that answers
    reaches its attraction phase at the frame that ends the void phase. *)
Lemma attracting_reachable :
  exists w,
    run half answering still until_attraction (initial half one_particle) =
    attracting w one_word.
Proof.
  unfold until_attraction. cbn [run].
  set (s3 := handle half answering still 100 (SpaceGenerated 0 one_word) _).
  assert (E : s3 =
    mkState (world s3) VOID VOID (Some one_word) (Some "what is mind"%string)
      100 0 false false "Wavefunction collapsing - nodes crystallizing..."
      [mkChain "what is mind" (Animating VOID 100)] []).
  { rewrite (state_eta s3) at 1. reflexivity. }
  rewrite E. unfold handle.
  rewrite frame_completes_phase by (simpl; auto; lra).
  eexists. reflexivity.
Qed.

(** The same assembly, run to its end, starts to decay 30 s after the
    decay clock started. *)
Lemma decaying_reachable :
  exists w,
    run half answering still (until_attraction ++ until_decay)
      (initial half one_particle) =
    decaying w one_word.
Proof.
  assert (Happ : forall t1 t2 s,
            run half answering still (t1 ++ t2) s =
            run half answering still t2 (run half answering still t1 s)).
  { induction t1 as [|[now e] t1 IH]; intros; simpl; auto. }
  rewrite Happ. destruct attracting_reachable as (w & ->).
  unfold until_decay, attracting. cbn [run handle].
  rewrite (frame_completes_phase 3600 _ ATTRACTION 1100) by (simpl; auto; lra).
  state_norm.
  rewrite (frame_completes_phase 6600 _ BONDING 3600) by (simpl; auto; lra).
  state_norm.
  rewrite (frame_completes_phase 8600 _ STABILIZATION 6600) by (simpl; auto; lra).
  state_norm.
  rewrite (frame_completes_phase 9600 _ OBSERVATION 8600) by (simpl; auto; lra).
  state_norm. unfold responseReplied. cbn [chains nth_error removeAt]. state_norm.
  unfold animationFrame. cbv zeta.
  match goal with |- context [updateContextDecay half 40016 ?t] =>
    destruct (updateContextDecay_begins half 40016 t) as (w' & ->);
      try reflexivity
  end.
  - unfold CONTEXT_DECAY_START. simpl. lra.
  - unfold CONTEXT_DECAY_START, CONTEXT_DECAY_DURATION. simpl. lra.
  - exists w'. reflexivity.
Qed.

End Reachable.

(** ** The word query *)

Section CoreWords.

Import Js SpaceGenerator.

Lemma trimStart_head s :
  trimStart s = EmptyString \/
  exists c tl, trimStart s = String c tl /\ isSpace c = false.
Proof.
  induction s as [|c tl IH]; simpl; auto.
  destruct (isSpace c) eqn:E; auto. right. eauto.
Qed.

Lemma trimEnd_idempotent s : trimEnd (trimEnd s) = trimEnd s.
Proof.
  induction s as [|c tl IH]; simpl; auto.
  destruct (trimEnd tl) as [|d r] eqn:E.
  - destruct (isSpace c) eqn:Ec; simpl; auto. rewrite Ec. reflexivity.
  - change (trimEnd (String c (String d r))) with
      (match trimEnd (String d r) with
       | EmptyString => if isSpace c then EmptyString else String c EmptyString
       | r0 => String c r0
       end).
    rewrite IH. reflexivity.
Qed.

Lemma trimEnd_head c tl :
  isSpace c = false -> exists r, trimEnd (String c tl) = String c r.
Proof.
  intros Hc. simpl. destruct (trimEnd tl); rewrite ?Hc; eauto.
Qed.

Lemma trim_idempotent s : trim (trim s) = trim s.
Proof.
  unfold trim.
  destruct (trimStart_head s) as [E | (c & tl & E & Hc)]; rewrite E.
  - reflexivity.
  - destruct (trimEnd_head c tl Hc) as (r & Er).
    rewrite Er. simpl trimStart. rewrite Hc. rewrite <- Er.
    apply trimEnd_idempotent.
Qed.

Lemma lowerChar_fixed c :
  (let n := nat_of_ascii c in
   ((97 <=? n) && (n <=? 122))%nat || isSpace c || (n =? 45)%nat) = true ->
  lowerChar c = c.
Proof.
  cbv zeta. unfold lowerChar, isSpace. intros H.
  destruct ((65 <=? nat_of_ascii c) && (nat_of_ascii c <=? 90))%nat eqn:E; auto.
  exfalso.
  apply andb_true_iff in E as [E1 E2].
  apply Nat.leb_le in E1, E2.
  apply orb_true_iff in H as [H | H].
  - apply orb_true_iff in H as [H | H].
    + apply andb_true_iff in H as [H _]. apply Nat.leb_le in H. lia.
    + apply orb_true_iff in H as [H | H].
      * apply andb_true_iff in H as [_ H]. apply Nat.leb_le in H. lia.
      * apply Nat.eqb_eq in H. lia.
  - apply Nat.eqb_eq in H. lia.
Qed.

Lemma wordChars_lower w : wordChars w = true -> toLowerCase w = w.
Proof.
  unfold wordChars. intros H. apply andb_true_iff in H as [_ H].
  induction w as [|c tl IH]; simpl in *; auto.
  apply andb_true_iff in H as [Hc Htl].
  rewrite (lowerChar_fixed c Hc), (IH Htl). reflexivity.
Qed.

Lemma wordChars_ascii w : wordChars w = true -> isAscii w = true.
Proof.
  unfold wordChars, isAscii. intros H. apply andb_true_iff in H as [_ H].
  induction w as [|c tl IH]; simpl in *; auto.
  apply andb_true_iff in H as [Hc Htl].
  rewrite (IH Htl), andb_true_r. apply Nat.ltb_lt.
  unfold isSpace in Hc.
  repeat (apply orb_true_iff in Hc as [Hc | Hc]);
    repeat (apply andb_true_iff in Hc as [? Hc]);
    repeat match goal with
           | H : (_ <=? _)%nat = true |- _ => apply Nat.leb_le in H
           | H : (_ =? _)%nat = true |- _ => apply Nat.eqb_eq in H
           end; lia.
Qed.

Lemma generateCoreWords_thrown queryGroq question message :
  generateCoreWords queryGroq question = inl message ->
  message = "Failed to generate words from LLM"%string /\
  failed (queryGroq (coreWordsPrompt question)) = true.
Proof.
  unfold generateCoreWords.
  destruct (queryGroq (coreWordsPrompt question)) as [text|] eqn:E.
  - destruct (failed (Some text)) eqn:F; [|discriminate].
    intros H. injection H as <-. auto.
  - intros H. injection H as <-. auto.
Qed.

Lemma generateCoreWords_count queryGroq question words :
  generateCoreWords queryGroq question = inr words ->
  (List.length words <= 30)%nat.
Proof.
  unfold generateCoreWords.
  destruct (queryGroq (coreWordsPrompt question)) as [text|]; [|discriminate].
  destruct (failed (Some text)); [discriminate|].
  intros H.
  assert (E : words = firstn 30
                (filter wordChars
                   (filter (fun w => (2 <? String.length w)%nat &&
                                     (String.length w <? 25)%nat)
                      (map trim (split ","%char (toLowerCase text))))))
    by congruence.
  rewrite E, length_firstn. lia.
Qed.

(** X1. For an answer of the provider that is an ASCII string (every
    code unit below 128), [generateCoreWords] throws, with the message
    [Failed to generate words from LLM], exactly when the answer is
    [null] or empty.  Otherwise it returns at most 30 words (possibly
    none), each an ASCII string of 3 to 24 characters, made of lower-case
    letters, white space and hyphens only, and each unchanged by [trim]
    and by [toLowerCase]. *)
Theorem core_words_well_formed
  (queryGroq : string -> option string) (question : string) :
  (forall text, queryGroq (coreWordsPrompt question) = Some text ->
     isAscii text = true) ->
  match generateCoreWords queryGroq question with
  | inl message =>
      message = "Failed to generate words from LLM"%string /\
      failed (queryGroq (coreWordsPrompt question)) = true
  | inr words =>
      failed (queryGroq (coreWordsPrompt question)) = false /\
      (List.length words <= 30)%nat /\
      Forall (fun w =>
                isAscii w = true /\
                (3 <= String.length w <= 24)%nat /\
                wordChars w = true /\
                trim w = w /\ toLowerCase w = w) words
  end.
Proof.
  intros _. unfold generateCoreWords.
  destruct (queryGroq (coreWordsPrompt question)) as [text|] eqn:E;
    [|split; reflexivity].
  destruct (failed (Some text)) eqn:F; [split; reflexivity|].
  split; [reflexivity|]. split.
  - rewrite length_firstn. lia.
  - apply Forall_forall. intros w Hw.
    apply In_nth_error in Hw as (i & Hi).
    rewrite nth_error_firstn in Hi.
    destruct (i <? 30)%nat; [|discriminate].
    apply nth_error_In in Hi.
    apply filter_In in Hi as [Hi Hchars].
    apply filter_In in Hi as [Hi Hlen].
    apply andb_true_iff in Hlen as [H1 H2].
    apply Nat.ltb_lt in H1, H2.
    apply in_map_iff in Hi as (raw & <- & _).
    split; [apply wordChars_ascii; assumption|].
    repeat split; try lia; auto.
    + apply trim_idempotent.
    + apply wordChars_lower. assumption.
Qed.

End CoreWords.

Section CoreWordsExample.

Import Js SpaceGenerator Inputs.

Lemma core_words_well_formed_witness :
  generateCoreWords (wording 0) "what is mind" = inr three_listed /\
  Forall (fun w =>
            isAscii w = true /\
            (3 <= String.length w <= 24)%nat /\
            wordChars w = true /\
            trim w = w /\ toLowerCase w = w) three_listed.
Proof.
  assert (E : generateCoreWords (wording 0) "what is mind" = inr three_listed)
    by (vm_compute; reflexivity).
  split; [exact E|].
  pose proof (core_words_well_formed (wording 0) "what is mind") as T.
  rewrite E in T. apply T.
  intros text H. injection H as <-. vm_compute. reflexivity.
Defined.

End CoreWordsExample.

(** ** The distance matrix *)

Section MatrixCells.

Import Js Generation.

Lemma nth_error_set_nth {A : Type} (l : list A) : forall i k v,
  nth_error (set_nth l i v) k =
    if (k =? i)%nat
    then (if (i <? List.length l)%nat then Some v else None)
    else nth_error l k.
Proof.
  induction l as [|a tl IH]; intros i k v.
  - simpl. destruct (k =? i)%nat; destruct k; reflexivity.
  - destruct i as [|i]; destruct k as [|k]; simpl; try reflexivity.
    rewrite IH. destruct (k =? i)%nat; [|reflexivity].
    change (S i <? S (List.length tl))%nat with (i <? List.length tl)%nat.
    reflexivity.
Qed.

Lemma setCell_spec matrix i j v row :
  nth_error matrix i = Some row -> (j < List.length row)%nat ->
  exists matrix',
    setCell matrix i j v = Ok matrix' /\
    List.length matrix' = List.length matrix /\
    (forall a,
        option_map (@List.length number) (nth_error matrix' a) =
        option_map (@List.length number) (nth_error matrix a)) /\
    (forall a b,
        cellAt matrix' a b =
        if ((a =? i) && (b =? j))%nat then Some v else cellAt matrix a b).
Proof.
  intros Hrow Hj.
  assert (Hi : (i < List.length matrix)%nat).
  { apply nth_error_Some. congruence. }
  unfold setCell, modify, at_. rewrite Hrow. cbn [bind].
  eexists. split; [reflexivity|].
  split; [apply set_nth_length|].
  split.
  - intros a. rewrite nth_error_set_nth.
    destruct (a =? i)%nat eqn:E.
    + apply Nat.eqb_eq in E. subst a.
      apply Nat.ltb_lt in Hi. rewrite Hi, Hrow. simpl.
      rewrite set_nth_length. reflexivity.
    + reflexivity.
  - intros a b. unfold cellAt. rewrite nth_error_set_nth.
    destruct (a =? i)%nat eqn:E.
    + apply Nat.eqb_eq in E. subst a.
      apply Nat.ltb_lt in Hi. rewrite Hi, Hrow.
      rewrite nth_error_set_nth.
      apply Nat.ltb_lt in Hj. rewrite Hj. simpl.
      destruct (b =? j)%nat; reflexivity.
    + reflexivity.
Qed.

Lemma row_of_length n (matrix : list (list Js.number)) i :
  List.length matrix = n ->
  (forall a row, nth_error matrix a = Some row -> List.length row = n) ->
  (i < n)%nat ->
  exists row, nth_error matrix i = Some row /\ List.length row = n.
Proof.
  intros Hlen Hrows Hi.
  destruct (nth_error matrix i) as [row|] eqn:E.
  - exists row. split; eauto.
  - apply nth_error_None in E. lia.
Qed.

(** The two writes of a distance keep the matrix symmetric. *)
Lemma write_pair n matrix i j r :
  symmetricUnit n matrix -> (i < n)%nat -> (j < n)%nat -> 0 <= r <= 1 ->
  exists matrix'',
    (matrix' <- setCell matrix i j (Finite r) ;; setCell matrix' j i (Finite r))
      = Ok matrix'' /\
    symmetricUnit n matrix'' /\
    (forall a, a <> i \/ i <> j ->
       cellAt matrix'' a a = cellAt matrix a a).
Proof.
  intros (Hlen & Hrows & Hcells) Hi Hj Hr.
  destruct (row_of_length n matrix i Hlen Hrows Hi) as (rowi & Ei & Li).
  destruct (setCell_spec matrix i j (Finite r) rowi Ei ltac:(lia))
    as (m1 & E1 & L1 & R1 & C1).
  rewrite E1. cbn [bind].
  assert (Hrows1 : forall a row, nth_error m1 a = Some row -> List.length row = n).
  { intros a row Ha. specialize (R1 a). rewrite Ha in R1. simpl in R1.
    destruct (nth_error matrix a) as [row0|] eqn:E0; [|discriminate].
    simpl in R1. injection R1 as ->. eauto. }
  destruct (row_of_length n m1 j ltac:(lia) Hrows1 Hj) as (rowj & Ej & Lj).
  destruct (setCell_spec m1 j i (Finite r) rowj Ej ltac:(lia))
    as (m2 & E2 & L2 & R2 & C2).
  exists m2. split; [assumption|]. split.
  - split; [lia|]. split.
    + intros a row Ha. specialize (R2 a). rewrite Ha in R2. simpl in R2.
      destruct (nth_error m1 a) as [row0|] eqn:E0; [|discriminate].
      simpl in R2. injection R2 as ->. eauto.
    + intros a b Ha Hb. rewrite !C2, !C1.
      destruct (Hcells a b Ha Hb) as (r0 & A & B & Hr0).
      destruct (a =? j)%nat eqn:Eaj; destruct (b =? i)%nat eqn:Ebi;
        destruct (a =? i)%nat eqn:Eai; destruct (b =? j)%nat eqn:Ebj;
        cbn [andb];
        try (exists r; repeat split; (reflexivity || lra));
        try (exists r0; repeat split; (assumption || lra)).
  - intros a Ha. rewrite C2, C1.
    destruct (a =? j)%nat eqn:Eaj; destruct (a =? i)%nat eqn:Eai;
      cbn [andb]; try reflexivity.
    apply Nat.eqb_eq in Eaj, Eai. subst. destruct Ha; congruence.
Qed.

End MatrixCells.

Section MatrixBuild.

Import Js Generation.

Variable queryGroq : nat -> string -> option string.
Variable parseFloat : string -> number.
Variable sorted : nat -> list string -> list string.

Hypothesis sorted_elements : forall c array x, In x (sorted c array) -> In x array.

Lemma firstn_subset {A : Type} (l : list A) : forall n x,
  In x (firstn n l) -> In x l.
Proof.
  induction l as [|a tl IH]; intros [|n] x H; simpl in *;
    try contradiction.
  destruct H; eauto.
Qed.

Lemma indexOf_In words x :
  In x words ->
  exists j, indexOf words x = Some j /\ nth_error words j = Some x.
Proof.
  induction words as [|w tl IH]; intros Hin; [destruct Hin|].
  simpl. destruct (String.eqb w x) eqn:E.
  - apply String.eqb_eq in E. subst. exists 0%nat. auto.
  - destruct Hin as [-> | Hin]; [rewrite String.eqb_refl in E; discriminate|].
    destruct (IH Hin) as (j & -> & Hj). exists (S j). auto.
Qed.

Lemma combine_seq_In {A : Type} (l : list A) : forall a j w,
  In (j, w) (combine (seq a (List.length l)) l) ->
  (a <= j)%nat /\ nth_error l (j - a) = Some w.
Proof.
  induction l as [|x tl IH]; intros a j w Hin; [destruct Hin|].
  simpl in Hin. destruct Hin as [E | Hin].
  - injection E as <- <-. rewrite Nat.sub_diag. auto.
  - apply IH in Hin as [Hle Hn]. split; [lia|].
    replace (j - a)%nat with (S (j - S a)) by lia. assumption.
Qed.

Lemma neighborsOf_In words i x :
  In x (neighborsOf words i) ->
  exists j, j <> i /\ nth_error words j = Some x.
Proof.
  unfold neighborsOf. intros Hin.
  apply in_map_iff in Hin as ([j w] & <- & Hin).
  apply filter_In in Hin as [Hin Hne]. simpl in *.
  apply combine_seq_In in Hin as [_ Hin]. rewrite Nat.sub_0_r in Hin.
  exists j. split; auto.
  apply negb_true_iff, Nat.eqb_neq in Hne. assumption.
Qed.

Lemma batchSimilarity_values q word neighbors :
  let similarities := SpaceGenerator.batchSimilarity q parseFloat word neighbors in
  List.length similarities = List.length neighbors /\
  Forall (fun v => exists r, v = Finite r /\ 0 <= r <= 1) similarities.
Proof.
  cbv zeta. unfold SpaceGenerator.batchSimilarity.
  assert (D : List.length (map (fun _ : string => Finite 0.5) neighbors) =
              List.length neighbors /\
              Forall (fun v => exists r, v = Finite r /\ 0 <= r <= 1)
                (map (fun _ : string => Finite 0.5) neighbors)).
  { split; [apply length_map|].
    apply Forall_forall. intros v Hv. apply in_map_iff in Hv as (? & <- & _).
    exists 0.5. split; [reflexivity|lra]. }
  destruct (q (SpaceGenerator.similarityPrompt word neighbors)) as [text|];
    [|exact D].
  destruct (SpaceGenerator.failed (Some text)); [exact D|].
  apply padded_spec. lra.
Qed.

Lemma forEachFrom_inv {A S : Type} (Inv : S -> Prop)
  (body : A -> nat -> S -> result S) : forall items idx s,
  Inv s ->
  (forall k a s, nth_error items k = Some a -> Inv s ->
     exists s', body a (idx + k)%nat s = Ok s' /\ Inv s') ->
  exists s', forEachFrom idx items body s = Ok s' /\ Inv s'.
Proof.
  induction items as [|a tl IH]; intros idx s Hs Hbody; simpl.
  - eauto.
  - destruct (Hbody 0%nat a s eq_refl Hs) as (s1 & E1 & H1).
    rewrite Nat.add_0_r in E1. rewrite E1. cbn [bind].
    apply IH; auto.
    intros k b s0 Hk Hs0.
    replace (Datatypes.S idx + k)%nat with (idx + Datatypes.S k)%nat by lia.
    apply Hbody; auto.
Qed.

(** What the loops keep: the matrix is [n] by [n], symmetric, its cells
    are between 0 and 1, and, when no word occurs twice, its diagonal is
    still 0. *)
Lemma measure_spec words i matrix :
  let n := List.length words in
  (i < n)%nat ->
  symmetricUnit n matrix ->
  (NoDup words -> forall a, (a < n)%nat -> cellAt matrix a a = Some (Finite 0)) ->
  exists matrix',
    measure queryGroq parseFloat sorted words i matrix = Ok matrix' /\
    symmetricUnit n matrix' /\
    (NoDup words -> forall a, (a < n)%nat -> cellAt matrix' a a = Some (Finite 0)).
Proof.
  cbv zeta. intros Hi HM Hdiag. unfold measure. cbv zeta.
  set (neighbors := neighborsOf words i).
  set (sampled := sampleArray sorted i neighbors
                    (Nat.min 3 (List.length neighbors))).
  destruct (batchSimilarity_values (queryGroq (S i))
              (nth i words EmptyString) sampled) as [Hlen Hvals].
  set (similarities := SpaceGenerator.batchSimilarity (queryGroq (S i)) parseFloat
                         (nth i words EmptyString) sampled) in *.
  apply (forEachFrom_inv
           (fun m => symmetricUnit (List.length words) m /\
                     (NoDup words -> forall a, (a < List.length words)%nat ->
                        cellAt m a a = Some (Finite 0)))).
  - split; assumption.
  - intros k neighbor m Hk [Hm Hd]. simpl.
    assert (Hin : In neighbor neighbors).
    { apply nth_error_In in Hk. unfold sampled, sampleArray in Hk.
      apply (sorted_elements i). eapply firstn_subset; eauto. }
    destruct (neighborsOf_In words i neighbor Hin) as (j' & Hne & Hj').
    destruct (indexOf_In words neighbor) as (j & Ej & Hj).
    { eapply nth_error_In; eauto. }
    rewrite Ej.
    assert (Hjn : (j < List.length words)%nat).
    { apply nth_error_Some. congruence. }
    assert (Hks : (k < List.length similarities)%nat).
    { rewrite Hlen. apply nth_error_Some. congruence. }
    destruct (nth_error similarities k) as [v|] eqn:Ev;
      [|apply nth_error_None in Ev; lia].
    rewrite Forall_forall in Hvals.
    destruct (Hvals v (nth_error_In _ _ Ev)) as (s & -> & Hs).
    unfold distanceFrom. rewrite Ev.
    destruct (write_pair (List.length words) m i j (1 - s) Hm Hi Hjn ltac:(lra))
      as (m2 & E2 & Hm2 & Hd2).
    exists m2. split; [exact E2|]. split; [assumption|].
    intros Hnd a Ha. rewrite Hd2; auto.
    right. intros <-.
    apply Hne. rewrite NoDup_nth_error in Hnd.
    apply Hnd; [apply nth_error_Some; congruence | congruence].
Qed.

Lemma mapFrom_length {A B : Type} (f : nat -> A -> B) (l : list A) : forall i,
  List.length (mapFrom i f l) = List.length l.
Proof. induction l as [|a tl IH]; intros i; simpl; auto. Qed.

Lemma nth_error_mapFrom {A B : Type} (f : nat -> A -> B) (l : list A) :
  forall i k,
  nth_error (mapFrom i f l) k = option_map (f (i + k)%nat) (nth_error l k).
Proof.
  induction l as [|a tl IH]; intros i [|k]; simpl; auto.
  - rewrite Nat.add_0_r. reflexivity.
  - rewrite IH. replace (S i + k)%nat with (i + S k)%nat by lia. reflexivity.
Qed.

Lemma cellAt_fillMissing matrix i j :
  cellAt (fillMissing matrix) i j =
    option_map
      (fun v => if negb (i =? j)%nat && isZero v then Finite 0.5 else v)
      (cellAt matrix i j).
Proof.
  unfold cellAt, fillMissing. rewrite nth_error_mapFrom.
  destruct (nth_error matrix i) as [row|]; simpl; auto.
  rewrite nth_error_mapFrom. reflexivity.
Qed.

Lemma fillMissing_spec n matrix :
  symmetricUnit n matrix ->
  symmetricUnit n (fillMissing matrix) /\
  (forall a, cellAt (fillMissing matrix) a a = cellAt matrix a a) /\
  (forall i j, (i < n)%nat -> (j < n)%nat -> i <> j ->
     exists r, cellAt (fillMissing matrix) i j = Some (Finite r) /\ 0 < r <= 1).
Proof.
  intros (Hlen & Hrows & Hcells). split; [|split].
  - split; [|split].
    + unfold fillMissing. rewrite mapFrom_length. assumption.
    + intros a row Ha. unfold fillMissing in Ha.
      rewrite nth_error_mapFrom in Ha.
      destruct (nth_error matrix a) as [row0|] eqn:E; [|discriminate].
      simpl in Ha. injection Ha as <-. rewrite mapFrom_length. eauto.
    + intros i j Hi Hj. rewrite !cellAt_fillMissing.
      destruct (Hcells i j Hi Hj) as (r & -> & -> & Hr). simpl.
      rewrite (Nat.eqb_sym j i).
      destruct (negb (i =? j)%nat && (if Req_dec_T r 0 then true else false)).
      * exists 0.5. repeat split; lra.
      * exists r. auto.
  - intros a. rewrite cellAt_fillMissing, Nat.eqb_refl. simpl.
    destruct (cellAt matrix a a); reflexivity.
  - intros i j Hi Hj Hne. rewrite cellAt_fillMissing.
    destruct (Hcells i j Hi Hj) as (r & -> & _ & Hr). simpl.
    apply Nat.eqb_neq in Hne. rewrite Hne. simpl.
    destruct (Req_dec_T r 0).
    + exists 0.5. split; [reflexivity|lra].
    + exists r. split; [reflexivity|lra].
Qed.

Lemma finiteRow_spec row :
  (forall j, (j < List.length row)%nat -> exists r, nth_error row j = Some (Finite r)) ->
  exists l,
    finiteRow row = Some l /\ List.length l = List.length row /\
    forall j r, nth_error row j = Some (Finite r) -> nth_error l j = Some r.
Proof.
  induction row as [|v tl IH]; intros H.
  - exists []. repeat split; auto. intros [|j] r; discriminate.
  - destruct (H 0%nat ltac:(simpl; lia)) as (r0 & E0). simpl in E0.
    injection E0 as ->.
    destruct IH as (l & El & Ll & Hl).
    { intros j Hj. apply (H (S j)). simpl. lia. }
    exists (r0 :: l). simpl. rewrite El. repeat split; simpl; auto.
    intros [|j] r Hj; simpl in *; [congruence|auto].
Qed.

Lemma finiteMatrix_spec n : forall matrix,
  (forall a row, nth_error matrix a = Some row -> List.length row = n) ->
  (forall i j, (i < List.length matrix)%nat -> (j < n)%nat ->
     exists r, cellAt matrix i j = Some (Finite r)) ->
  exists d,
    finiteMatrix matrix = Some d /\ List.length d = List.length matrix /\
    (forall row, In row d -> List.length row = n) /\
    forall i j r, cellAt matrix i j = Some (Finite r) ->
      nth j (nth i d []) 0 = r.
Proof.
  induction matrix as [|row tl IH]; intros Hrows Hcells.
  - exists []. repeat split; auto.
    + intros row [].
    + intros [|i] j r; discriminate.
  - assert (Hrow : List.length row = n) by (apply (Hrows 0%nat); reflexivity).
    destruct (finiteRow_spec row) as (l & El & Ll & Hl).
    { intros j Hj. apply (Hcells 0%nat j); simpl; lia. }
    destruct IH as (d & Ed & Ld & Hd & Hv).
    { intros a r Ha. apply (Hrows (S a)). assumption. }
    { intros i j Hi Hj. apply (Hcells (S i) j); simpl; lia. }
    exists (l :: d). simpl. rewrite El, Ed. repeat split; simpl; auto.
    + intros r [<- | Hr]; [lia | auto].
    + intros [|i] j r Hc; unfold cellAt in Hc; simpl in Hc.
      * apply Hl in Hc. apply nth_error_nth. assumption.
      * apply Hv. assumption.
Qed.

(** The matrix the loops leave. *)
Lemma buildDistanceMatrix_spec (words : list string) :
  let n := List.length words in
  exists matrix,
    buildDistanceMatrix queryGroq parseFloat sorted words = Ok matrix /\
    symmetricUnit n matrix /\
    (forall i j, (i < n)%nat -> (j < n)%nat -> i <> j ->
       exists r, cellAt matrix i j = Some (Finite r) /\ 0 < r <= 1) /\
    (NoDup words -> forall a, (a < n)%nat -> cellAt matrix a a = Some (Finite 0)).
Proof.
  cbv zeta. unfold buildDistanceMatrix. cbv zeta.
  set (n := List.length words).
  destruct (for_range_inv
    (fun _ m => symmetricUnit n m /\
                (NoDup words -> forall a, (a < n)%nat ->
                   cellAt m a a = Some (Finite 0)))
    (measure queryGroq parseFloat sorted words)
    n 0%nat (repeat (repeat (Finite 0) n) n)) as (m & Em & Hm & Hdiag).
  - assert (C : forall i j, (i < n)%nat -> (j < n)%nat ->
                 cellAt (repeat (repeat (Finite 0) n) n) i j = Some (Finite 0)).
    { intros i j Hi Hj. unfold cellAt.
      rewrite (nth_error_repeat _ Hi), (nth_error_repeat _ Hj). reflexivity. }
    split.
    + split; [apply repeat_length|]. split.
      * intros a row Ha. apply nth_error_In, repeat_spec in Ha. subst.
        apply repeat_length.
      * intros i j Hi Hj. exists 0. rewrite !C by assumption.
        repeat split; lra.
    + intros _ a Ha. apply C; assumption.
  - intros i m0 Hi [H1 H2].
    destruct (measure_spec words i m0 ltac:(fold n; lia) H1 H2)
      as (m1 & E1 & A & B).
    exists m1. auto.
  - rewrite Em. cbn [bind].
    destruct (fillMissing_spec n m Hm) as (HF & HFd & HFo).
    exists (fillMissing m). split; [reflexivity|]. split; [assumption|].
    split; [assumption|].
    intros Hnd a Ha. rewrite HFd. apply Hdiag; assumption.
Qed.

Lemma symmetricUnit_finite n matrix :
  symmetricUnit n matrix ->
  exists d,
    finiteMatrix matrix = Some d /\ List.length d = n /\
    (forall row, In row d -> List.length row = n) /\
    forall i j r, cellAt matrix i j = Some (Finite r) ->
      nth j (nth i d []) 0 = r.
Proof.
  intros (Hlen & Hrows & Hcells).
  destruct (finiteMatrix_spec n matrix Hrows) as (d & Ed & Ld & Hd & Hv).
  { intros i j Hi Hj. destruct (Hcells i j ltac:(lia) Hj) as (r & Hr & _).
    eauto. }
  exists d. repeat split; auto. lia.
Qed.

(** X2. Whatever the provider answers and whatever order the random
    sort leaves, [buildDistanceMatrix] returns an N x N matrix of finite
    numbers that is symmetric, with every entry between 0 and 1 and
    every entry off the diagonal above 0 (a pair that was not measured,
    or measured at distance 0, holds 0.5).  When no word occurs twice the
    diagonal is 0 and the matrix is a distance matrix as the layout
    expects it. *)
Theorem distance_matrix_built (words : list string) :
  let n := List.length words in
  exists matrix d,
    buildDistanceMatrix queryGroq parseFloat sorted words = Ok matrix /\
    finiteMatrix matrix = Some d /\
    List.length d = n /\
    (forall row, In row d -> List.length row = n) /\
    (forall i j, (i < n)%nat -> (j < n)%nat ->
       nth j (nth i d []) 0 = nth i (nth j d []) 0 /\
       0 <= nth j (nth i d []) 0 <= 1) /\
    (forall i j, (i < n)%nat -> (j < n)%nat -> i <> j ->
       0 < nth j (nth i d []) 0) /\
    (NoDup words -> SpaceGenerator.isDistanceMatrix n d).
Proof.
  cbv zeta.
  destruct (buildDistanceMatrix_spec words) as (m & Em & Hm & Hoff & Hdiag).
  destruct (symmetricUnit_finite _ m Hm) as (d & Ed & Ld & Hd & Hv).
  destruct Hm as (Hlen & Hrows & Hcells).
  exists m, d.
  split; [assumption|]. split; [assumption|].
  split; [assumption|]. split; [assumption|].
  assert (Hsym : forall i j, (i < List.length words)%nat ->
            (j < List.length words)%nat ->
            nth j (nth i d []) 0 = nth i (nth j d []) 0 /\
            0 <= nth j (nth i d []) 0 <= 1).
  { intros i j Hi Hj. destruct (Hcells i j Hi Hj) as (r & A & B & Hr).
    rewrite (Hv _ _ _ A), (Hv _ _ _ B). split; [reflexivity|assumption]. }
  split; [assumption|]. split.
  - intros i j Hi Hj Hne. destruct (Hoff i j Hi Hj Hne) as (r & A & Hr).
    rewrite (Hv _ _ _ A). lra.
  - intros Hnd. unfold SpaceGenerator.isDistanceMatrix.
    split; [assumption|]. split; [assumption|]. split; [|split].
    + intros i j Hi Hj. apply Hsym; assumption.
    + intros i Hi. apply Hv. apply Hdiag; assumption.
    + intros i j Hi Hj. apply Hsym; assumption.
Qed.

End MatrixBuild.

(** ** The generation of a space *)

Section LayoutSquare.

Import Js SpaceGenerator.

Variable n : nat.
Variable d : list (list R).

Hypothesis rows : List.length d = n.
Hypothesis columns : forall row, In row d -> List.length row = n.

Lemma entry_square i j :
  (i < n)%nat -> (j < n)%nat -> exists v, entry d i j = Ok v.
Proof.
  intros Hi Hj. unfold entry.
  destruct (nth_error d i) as [row|] eqn:E.
  - destruct (nth_error row j) as [v|] eqn:Ej; eauto.
    apply nth_error_None in Ej.
    rewrite (columns row (nth_error_In _ _ E)) in Ej. lia.
  - apply nth_error_None in E. lia.
Qed.

Lemma pairForces_square positions forces i j :
  List.length positions = n -> List.length forces = n ->
  (i < n)%nat -> (j < n)%nat ->
  exists forces',
    pairForces positions d i j forces = Ok forces' /\
    List.length forces' = n.
Proof.
  intros Hp Hf Hi Hj. unfold pairForces.
  destruct (at_ok positions j ltac:(lia)) as (pj & _ & ->).
  destruct (at_ok positions i ltac:(lia)) as (pi & _ & ->).
  simpl. destruct (entry_square i j Hi Hj) as (v & ->). simpl.
  unfold div. destruct (Req_dec_T _ 0) as [E|_].
  { exfalso. eapply dist_neq0; eauto. }
  simpl.
  match goal with |- context [modify forces i ?g] =>
    destruct (modify_ok forces i g ltac:(lia)) as (fi & Ei & ->)
  end.
  simpl.
  match goal with |- context [modify ?l j ?g] =>
    destruct (modify_ok l j g) as (fj & Ej & ->)
  end.
  { rewrite set_nth_length. lia. }
  eexists. split; [reflexivity|].
  rewrite !set_nth_length. assumption.
Qed.

Lemma relax_square positions :
  List.length positions = n ->
  exists positions',
    relax d n positions = Ok positions' /\ List.length positions' = n.
Proof.
  intros Hp. unfold relax, calculateForces.
  destruct (for_range_inv
    (fun _ forces => List.length forces = n)
    (fun i forces =>
       for_range (Datatypes.S i) (n - Datatypes.S i)
         (fun j forces => pairForces positions d i j forces) forces)
    n 0%nat (repeat V3.zero n)) as (forces & E & Hl).
  - apply repeat_length.
  - intros i forces Hi Hl.
    destruct (for_range_inv
      (fun _ forces => List.length forces = n)
      (fun j forces => pairForces positions d i j forces)
      (n - Datatypes.S i) (Datatypes.S i) forces) as (f' & E' & H').
    + auto.
    + intros j f Hj Hl'.
      apply pairForces_square; auto; lia.
    + exists f'. split; auto.
  - rewrite E. cbn [bind].
    destruct (applyForces_spec n forces positions Hl Hp) as (ps & -> & Hl' & _).
    eauto.
Qed.

Lemma projectTo3D_square (random : nat -> R) (words : list string) :
  List.length words = n ->
  exists positions,
    projectTo3D random words d = Ok positions /\
    List.length positions = n.
Proof.
  intros Hw. unfold projectTo3D, relaxations. rewrite Hw.
  destruct (for_range_inv
    (fun _ ps => List.length ps = n)
    (fun _ ps => relax d n ps) iterations 0%nat
    (initPositions random 0 n)) as (ps & E & H).
  - apply initPositions_length.
  - intros i ps _ Hl. apply relax_square. assumption.
  - exists ps. auto.
Qed.

End LayoutSquare.

Section GenerateSpace.

Import Js Generation.

Variable queryGroq : nat -> string -> option string.
Variable parseFloat : string -> number.
Variable random : nat -> R.
Variable sorted : nat -> list string -> list string.

Hypothesis sorted_elements : forall c array x, In x (sorted c array) -> In x array.

Lemma calculateCurvature_values q ws :
  let ratings := SpaceGenerator.calculateCurvature q parseFloat ws in
  List.length ratings = List.length ws /\
  Forall (fun v => exists r, v = Finite r /\ 0 <= r <= 10) ratings.
Proof.
  cbv zeta. unfold SpaceGenerator.calculateCurvature.
  assert (D : List.length (map (fun _ : string => Finite 2.0) ws) =
              List.length ws /\
              Forall (fun v => exists r, v = Finite r /\ 0 <= r <= 10)
                (map (fun _ : string => Finite 2.0) ws)).
  { split; [apply length_map|].
    apply Forall_forall. intros v Hv. apply in_map_iff in Hv as (? & <- & _).
    exists 2.0. split; [reflexivity|lra]. }
  destruct (q (SpaceGenerator.curvaturePrompt ws)) as [text|]; [|exact D].
  destruct (SpaceGenerator.failed (Some text)); [exact D|].
  apply padded_spec. lra.
Qed.

Lemma entry_cellAt (m : list (list number)) i j v :
  cellAt m i j = Some v -> Layout.entry m i j = Ok v.
Proof.
  unfold cellAt, Layout.entry.
  destruct (nth_error m i) as [row|]; [|discriminate].
  intros ->. reflexivity.
Qed.

(** The layout on the range of doubles, from a matrix as
    [buildDistanceMatrix] returns it. *)
Lemma layout_of_unit_matrix (ws : list string) (m : list (list number)) :
  (forall i, 0 <= random i < 1) ->
  (List.length ws <= 30)%nat ->
  symmetricUnit (List.length ws) m ->
  exists qs,
    Layout.projectTo3D random ws m = Ok qs /\
    List.length qs = List.length ws /\
    Forall (fun p => Layout.finitePoint p = true) qs.
Proof.
  intros Hr Hn (_ & _ & Hm). unfold Layout.projectTo3D. cbv zeta.
  destruct (initPositions_within random Hr (List.length ws) 0) as [Hl Hw].
  destruct (relaxations_within (List.length ws) m Hn
              ltac:(intros i j Hi Hj;
                    destruct (Hm i j Hi Hj) as (r & Hc & _ & Hu);
                    exists r; split; [apply entry_cellAt; exact Hc|exact Hu])
              (Layout.initPositions random 0 (List.length ws))
              Layout.iterations
              ltac:(unfold Layout.iterations; lia) Hl Hw)
    as (qs & E & Lqs & Wqs).
  exists qs. split; [assumption|]. split; [assumption|].
  eapply Forall_impl; [|exact Wqs]. intros p. apply within_finite.
Qed.

(** X3. [generateSpace], in the LLM mode the constructor selects, throws
    only when the word query fails, with that query's message.
    Otherwise it returns a bundle whose words are those of
    [generateCoreWords] (at most 30), whose distance matrix is N x N,
    symmetric and within [0, 1], whose curvatures are N finite numbers
    between 0 and 10, whose positions are N points, and whose question
    is the one asked.  With draws in [0, 1) the layout of these words
    and this matrix also stays in the range of doubles: it returns N
    points and every coordinate is finite, neither [NaN] nor an
    infinity. *)
Theorem generation_returns_consistent_space (q : string) :
  match generateSpace queryGroq parseFloat random sorted q with
  | Thrown message =>
      message = "Failed to generate words from LLM"%string /\
      SpaceGenerator.failed
        (queryGroq 0%nat (SpaceGenerator.coreWordsPrompt q)) = true
  | Returned g =>
      let n := List.length (words g) in
      SpaceGenerator.generateCoreWords (queryGroq 0%nat) q = inr (words g) /\
      (n <= 30)%nat /\
      symmetricUnit n (distances g) /\
      List.length (curvatures g) = n /\
      Forall (fun v => exists r, v = Finite r /\ 0 <= r <= 10) (curvatures g) /\
      (exists ps, positions g = Some ps /\ List.length ps = n) /\
      ((forall i, 0 <= random i < 1) ->
       exists qs,
         Layout.projectTo3D random (words g) (distances g) = Ok qs /\
         List.length qs = n /\
         Forall (fun p => Layout.finitePoint p = true) qs) /\
      question g = q
  end.
Proof.
  unfold generateSpace.
  destruct (SpaceGenerator.generateCoreWords (queryGroq 0%nat) q)
    as [message|ws] eqn:Ew.
  - eapply generateCoreWords_thrown; eauto.
  - pose proof (generateCoreWords_count _ _ _ Ew) as Hlen.
    destruct (buildDistanceMatrix_spec queryGroq parseFloat sorted
                sorted_elements ws) as (m & -> & Hsym & _).
    destruct (symmetricUnit_finite _ m Hsym) as (d & -> & Ld & Hd & _).
    destruct (projectTo3D_square (List.length ws) d Ld Hd random ws eq_refl)
      as (ps & -> & Lps).
    destruct (calculateCurvature_values (queryGroq (S (List.length ws))) ws)
      as [Lc Hc].
    cbv zeta. cbn [words distances curvatures positions question].
    split; [reflexivity|]. split; [exact Hlen|]. split; [exact Hsym|].
    split; [exact Lc|]. split; [exact Hc|].
    split; [exists ps; auto|].
    split; [|reflexivity].
    intros Hr. apply layout_of_unit_matrix; assumption.
Qed.

End GenerateSpace.

Section GenerateSpaceExample.

Import Js Particles Controller Inputs Generation.

Lemma distance_matrix_built_witness :
  exists matrix d,
    buildDistanceMatrix answering_each parse_three unsorted three_neighbors
      = Ok matrix /\
    finiteMatrix matrix = Some d /\
    SpaceGenerator.isDistanceMatrix 3 d.
Proof.
  destruct (distance_matrix_built answering_each parse_three unsorted
              (fun _ _ _ H => H) three_neighbors)
    as (m & d & A & B & _ & _ & _ & _ & C).
  exists m, d. split; [exact A|]. split; [exact B|].
  apply C. repeat constructor; simpl; intuition discriminate.
Defined.

Lemma generation_returns_consistent_space_witness :
  exists g ps qs,
    generateSpace wording parse_three near_draws unsorted "what is mind"
      = Returned g /\
    words g = three_listed /\
    symmetricUnit 3 (distances g) /\
    List.length (curvatures g) = 3%nat /\
    Generation.positions g = Some ps /\ List.length ps = 3%nat /\
    Layout.projectTo3D near_draws three_listed (distances g) = Ok qs /\
    List.length qs = 3%nat /\
    Forall (fun p => Layout.finitePoint p = true) qs.
Proof.
  assert (E : SpaceGenerator.generateCoreWords (wording 0) "what is mind"
              = inr three_listed) by (vm_compute; reflexivity).
  pose proof (generation_returns_consistent_space wording parse_three
                near_draws unsorted (fun _ _ _ H => H) "what is mind") as T.
  destruct (generateSpace wording parse_three near_draws unsorted
              "what is mind") as [g|message].
  - cbv zeta in T.
    destruct T as (Ew & _ & Hm & Hc & _ & (ps & Hp & Hl) & Hq & _).
    destruct (Hq near_draws_range) as (qs & Eq & Lq & Fq).
    rewrite E in Ew. injection Ew as Ew.
    rewrite <- Ew in Hm, Hc, Hl, Eq, Lq.
    exists g, ps, qs.
    split; [reflexivity|]. split; [auto|]. split; [exact Hm|].
    split; [exact Hc|]. split; [exact Hp|]. split; [exact Hl|].
    split; [exact Eq|]. split; [exact Lq|exact Fq].
  - destruct T as [_ T]. vm_compute in T. discriminate.
Defined.

End GenerateSpaceExample.

(** ** Fibonacci numbers, orbits and the scattered pool *)

Section FibonacciNumbers.

Import Fibonacci.

Lemma fibLoop_recurrence : forall steps a b,
  fibLoop (S (S steps)) a b = (fibLoop (S steps) a b + fibLoop steps a b)%nat.
Proof.
  induction steps as [|steps IH]; intros a b.
  - simpl. lia.
  - change (fibLoop (S (S (S steps))) a b)
      with (fibLoop (S (S steps)) b (a + b)).
    rewrite IH. reflexivity.
Qed.

(** The loop on binary numbers. *)
Lemma fibLoop_binary : forall steps a b,
  N.of_nat (fibLoop steps a b) =
  snd (Nat.iter steps (fun p : N * N => (snd p, (fst p + snd p)%N))
         (N.of_nat a, N.of_nat b)).
Proof.
  induction steps as [|steps IH]; intros a b; [reflexivity|].
  cbn [fibLoop]. rewrite IH, Nat2N.inj_add, Nat.iter_succ_r. reflexivity.
Qed.

Lemma getFibonacciNumber_binary n :
  N.of_nat (getFibonacciNumber (S n)) =
  snd (Nat.iter n (fun p : N * N => (snd p, (fst p + snd p)%N)) (0%N, 1%N)).
Proof.
  unfold getFibonacciNumber. destruct n as [|n]; [reflexivity|].
  change (S (S n) <=? 1)%nat with false. cbv iota.
  replace (S (S n) - 1)%nat with (S n) by lia.
  apply (fibLoop_binary (S n) 0 1).
Qed.

Lemma getFibonacciNumber_step n :
  getFibonacciNumber (S (S n)) =
    (getFibonacciNumber (S n) + getFibonacciNumber n)%nat.
Proof.
  destruct n as [|[|n]]; try reflexivity.
  unfold getFibonacciNumber.
  change (S (S (S (S n))) <=? 1)%nat with false.
  change (S (S (S n)) <=? 1)%nat with false.
  change (S (S n) <=? 1)%nat with false.
  cbv iota.
  replace (S (S (S (S n))) - 1)%nat with (S (S (S n))) by lia.
  replace (S (S (S n)) - 1)%nat with (S (S n)) by lia.
  replace (S (S n) - 1)%nat with (S n) by lia.
  apply fibLoop_recurrence.
Qed.

(** Up to [n = 78] the numbers are below 2^53: every sum the loop forms
    is an integer that a double holds exactly. *)
Lemma getFibonacciNumber_exact n :
  (n <= 78)%nat -> (N.of_nat (getFibonacciNumber n) < 2 ^ 53)%N.
Proof.
  intros Hn. destruct n as [|n]; [reflexivity|].
  rewrite getFibonacciNumber_binary.
  assert (H : forallb
            (fun k => (snd (Nat.iter k
                              (fun p : N * N => (snd p, (fst p + snd p)%N))
                              (0%N, 1%N)) <? 2 ^ 53)%N)
            (seq 0 78) = true) by (vm_compute; reflexivity).
  rewrite forallb_forall in H.
  apply N.ltb_lt. apply H. apply in_seq. lia.
Qed.

(** X4. Up to [n = 78], [getFibonacciNumber], written as a loop over two
    variables, computes the Fibonacci numbers: 0 at 0, 1 at 1, and from
    there each the sum of the two before.  These numbers are below 2^53,
    so that the doubles the loop adds are the integers themselves; the
    last of them is 8944394323791464.  The next sum is above 2^53: from
    [n = 79] on the doubles of the source are rounded. *)
Theorem getFibonacciNumber_recurrence :
  getFibonacciNumber 0 = 0%nat /\
  getFibonacciNumber 1 = 1%nat /\
  (forall n, (n <= 76)%nat ->
     getFibonacciNumber (S (S n)) =
       (getFibonacciNumber (S n) + getFibonacciNumber n)%nat /\
     (N.of_nat (getFibonacciNumber (S (S n))) < 2 ^ 53)%N) /\
  N.of_nat (getFibonacciNumber 78) = 8944394323791464%N /\
  (2 ^ 53 < N.of_nat (getFibonacciNumber 77 + getFibonacciNumber 78))%N.
Proof.
  split; [reflexivity|]. split; [reflexivity|]. split; [|split].
  - intros n Hn. split; [apply getFibonacciNumber_step|].
    apply getFibonacciNumber_exact. lia.
  - rewrite getFibonacciNumber_binary. vm_compute. reflexivity.
  - rewrite Nat2N.inj_add, !getFibonacciNumber_binary. vm_compute. reflexivity.
Qed.

End FibonacciNumbers.

Section Orbits.

Import Js Fibonacci Inputs.

Lemma spherical_distance c r p t :
  0 <= r -> V3.distanceTo (spherical c r p t) c = r.
Proof.
  intros Hr. unfold V3.distanceTo, V3.distanceToSquared, spherical.
  cbv zeta. cbn [V3.x V3.y V3.z].
  replace (_ + _) with
    (r * r * ((sin p)² * ((sin t)² + (cos t)²) + (cos p)²))
    by (unfold Rsqr; ring).
  rewrite sin2_cos2, Rmult_1_r, sin2_cos2, Rmult_1_r.
  apply sqrt_square. assumption.
Qed.

Lemma radius_bounds i :
  0.5 * sqrt (INR i + 1) <= radius i <= 0.7 * sqrt (INR i + 1).
Proof.
  unfold radius, FIBONACCI_SCALE. cbv zeta.
  set (m := (getFibonacciNumber (i / 10 + 1) mod 5)%nat).
  assert (Hm : (m < 5)%nat) by (apply Nat.mod_upper_bound; lia).
  assert (H0 : 0 <= INR m) by apply pos_INR.
  assert (H4 : INR m <= 4).
  { replace 4 with (INR 4) by (simpl; lra). apply le_INR. lia. }
  pose proof (sqrt_pos (INR i + 1)) as Hs.
  split; nra.
Qed.

Lemma radius_pos i : 0 < radius i.
Proof.
  pose proof (radius_bounds i) as [H _].
  assert (0 < sqrt (INR i + 1)).
  { apply sqrt_lt_R0. pose proof (pos_INR i). lra. }
  lra.
Qed.

(** Every satellite lies at the radius of its index from the target
    position of its parent. *)
Lemma expansion_radius coreNodes count h :
  coresIn h coreNodes -> coreNodes <> [] ->
  Forall (fun node => 0 <= curvature node) coreNodes ->
  exists nodes h',
    generateFibonacciExpansion coreNodes count h = Ok (nodes, h') /\
    List.length nodes = count /\
    forall i node, nth_error nodes i = Some node ->
      index node = i /\
      distanceFromParent node = radius i /\
      exists core,
        nth_error coreNodes (parentNode node) = Some core /\
        V3.distanceTo (read h' (position node)) (read h (targetPosition core))
          = radius i /\
        fibCurvature node =
          or_default (curvature core) 5.0 * exp (- radius i / 5.0).
Proof.
  intros Hin Hne Hw.
  destruct (expansion_run coreNodes count h Hin Hne Hw)
    as (nodes & h' & E & Hidx & HP).
  exists nodes, h'. split; [assumption|].
  assert (Hlen : List.length nodes = count).
  { rewrite <- (length_map index), Hidx. apply length_seq. }
  split; [assumption|].
  intros i node Hi.
  assert (Hi' : index node = i).
  { apply (map_nth_error index) in Hi. rewrite Hidx in Hi.
    assert (Hlt : (i < count)%nat).
    { rewrite <- (length_seq count 0). apply nth_error_Some. congruence. }
    apply (nth_error_nth _ _ 0%nat) in Hi.
    rewrite seq_nth in Hi by lia. simpl in Hi. congruence. }
  rewrite Forall_forall in HP.
  destruct (HP node (nth_error_In _ _ Hi)) as (core & Ec & Hpos & Hd & _ & Hc).
  rewrite Hi' in *.
  assert (Hr : distanceFromParent node = radius i).
  { rewrite Hd, Hpos. apply spherical_distance.
    pose proof (radius_pos i). lra. }
  split; [reflexivity|]. split; [assumption|].
  exists core. split; [assumption|]. split; [congruence|].
  rewrite Hr in Hc. assumption.
Qed.

(** X5. For a non-empty list of core nodes with non-negative
    curvatures and a [count] of at most 780, [generateFibonacciExpansion]
    returns [count] satellites.  Satellite [i] has index [i], a parent
    among the core nodes, and a position whose distance from its
    parent's target is exactly its [distanceFromParent], the spiral
    radius of [i], which lies between 0.5 and 0.7 times the square root
    of [i + 1]; the Fibonacci number in that radius is below 2^53.  Its
    curvature is its parent's (5 for a parent rated 0) times
    [exp (- radius / 5)], so less than its parent's. *)
Theorem satellites_orbit_their_parent coreNodes count h :
  coresIn h coreNodes -> coreNodes <> [] ->
  Forall (fun node => 0 <= curvature node) coreNodes ->
  (count <= 780)%nat ->
  exists nodes h',
    generateFibonacciExpansion coreNodes count h = Ok (nodes, h') /\
    List.length nodes = count /\
    forall i node, nth_error nodes i = Some node ->
      index node = i /\
      (N.of_nat (getFibonacciNumber (i / 10 + 1)) < 2 ^ 53)%N /\
      distanceFromParent node = radius i /\
      0.5 * sqrt (INR i + 1) <= distanceFromParent node
        <= 0.7 * sqrt (INR i + 1) /\
      exists core,
        nth_error coreNodes (parentNode node) = Some core /\
        V3.distanceTo (read h' (position node)) (read h (targetPosition core))
          = radius i /\
        fibCurvature node =
          or_default (curvature core) 5.0 * exp (- radius i / 5.0) /\
        fibCurvature node < or_default (curvature core) 5.0.
Proof.
  intros Hin Hne Hw Hcount.
  destruct (expansion_radius coreNodes count h Hin Hne Hw)
    as (nodes & h' & E & Hlen & H).
  exists nodes, h'. split; [assumption|]. split; [assumption|].
  intros i node Hi.
  destruct (H i node Hi) as (Hi' & Hr & core & Ec & Hd & Hc).
  split; [assumption|].
  split.
  { apply getFibonacciNumber_exact.
    assert (Hlt : (i < count)%nat).
    { rewrite <- Hlen. apply nth_error_Some. congruence. }
    assert (i / 10 < 78)%nat; [|lia].
    apply Nat.Div0.div_lt_upper_bound. lia. }
  split; [assumption|].
  split; [rewrite Hr; apply radius_bounds|].
  exists core. split; [assumption|]. split; [assumption|].
  split; [assumption|].
  rewrite Hc.
  assert (Hw0 : 0 < or_default (curvature core) 5.0).
  { rewrite Forall_forall in Hw.
    pose proof (Hw core (nth_error_In _ _ Ec)) as H0.
    unfold or_default. destruct (Req_dec_T (curvature core) 0); lra. }
  assert (He : exp (- radius i / 5.0) < 1).
  { rewrite <- exp_0. apply exp_increasing.
    pose proof (radius_pos i). lra. }
  nra.
Qed.

Lemma satellites_orbit_their_parent_witness :
  exists nodes h',
    generateFibonacciExpansion core_weight_10 3 origin_store = Ok (nodes, h') /\
    List.length nodes = 3%nat.
Proof.
  destruct (satellites_orbit_their_parent core_weight_10 3 origin_store)
    as (nodes & h' & E & L & _).
  - repeat constructor.
  - discriminate.
  - constructor; [simpl; lra | constructor].
  - lia.
  - exists nodes, h'. split; assumption.
Defined.

End Orbits.

Section Scatter.

Import Js Particles Controller.

Variable random : nat -> R.

Lemma randomShellPoint_distance c :
  0 <= random (c + 2) <= 1 ->
  10 <= V3.distanceTo (randomShellPoint random c) V3.zero <= 25.
Proof.
  intros Hr. unfold randomShellPoint. cbv zeta.
  set (p := random c * PI * 2). set (t := random (c + 1) * PI).
  set (r := 10 + random (c + 2) * 15).
  assert (E : V3.distanceTo
                (V3.mk (r * sin t * cos p) (r * sin t * sin p) (r * cos t))
                V3.zero = r).
  { unfold V3.distanceTo, V3.distanceToSquared, V3.zero.
    cbv zeta. cbn [V3.x V3.y V3.z].
    replace (_ + _) with
      (r * r * ((sin t)² * ((sin p)² + (cos p)²) + (cos t)²))
      by (unfold Rsqr; ring).
    rewrite sin2_cos2, Rmult_1_r, sin2_cos2, Rmult_1_r.
    apply sqrt_square. unfold r. lra. }
  rewrite E. unfold r. lra.
Qed.

Lemma spread_spec (P : particle -> Prop) :
  (forall p v, P p -> P (setPosition v p)) ->
  forall ps c,
    (forall i, 0 <= random i <= 1) ->
    Forall P ps ->
    let '(ps', c') := spread random c ps in
    c' = (c + 3 * List.length ps)%nat /\
    List.length ps' = List.length ps /\
    Forall (fun p => P p /\
              10 <= V3.distanceTo (Particles.position p) V3.zero <= 25) ps'.
Proof.
  intros HP. induction ps as [|p tl IH]; intros c Hr H; simpl.
  - repeat split; auto; lia.
  - inversion H as [|? ? Hp Htl]; subst.
    specialize (IH (c + 3)%nat Hr Htl).
    destruct (spread random (c + 3) tl) as [tl' c'].
    destruct IH as (Ec & El & Hf).
    split; [lia|]. split; [simpl; lia|].
    constructor; auto. split; [apply HP; assumption|].
    cbn [setPosition Particles.position].
    apply randomShellPoint_distance. apply Hr.
Qed.

(** X6. With draws between 0 and 1, [enterSuperposition] keeps the pool's
    size and leaves every particle hidden, without word, curvature,
    centrality or superposition target, at a distance between 10 and 25
    from the origin.  It leaves every particle's [targetPosition] as it
    was. *)
Theorem superposition_scatters_the_pool (s : state) :
  (forall i, 0 <= random i <= 1) ->
  let s' := enterSuperposition random s in
  List.length (particles (world s')) = List.length (particles (world s)) /\
  Forall (fun p =>
            visible p = false /\ word p = None /\
            curvature p = 0 /\ centrality p = 0 /\
            superpositionTarget p = None /\
            10 <= V3.distanceTo (Particles.position p) V3.zero <= 25)
         (particles (world s')) /\
  map targetPosition (particles (world s')) =
    map targetPosition (particles (world s)).
Proof.
  intros Hr. unfold enterSuperposition. cbv zeta.
  cbn [world setDecayPaused setIsDecaying setParticleState].
  pose proof (spread_spec
    (fun p => visible p = false /\ word p = None /\ curvature p = 0 /\
              centrality p = 0 /\ superpositionTarget p = None)
    ltac:(intros p v H; exact H)
    (map hide (particles (world s))) (drawn (world s)) Hr) as H.
  assert (T : forall ps c,
            map targetPosition (fst (spread random c ps)) = map targetPosition ps).
  { induction ps as [|p tl IH]; intros c; simpl; auto.
    specialize (IH (c + 3)%nat).
    destruct (spread random (c + 3) tl) as [tl' c']. simpl in *.
    rewrite IH. reflexivity. }
  specialize (T (map hide (particles (world s))) (drawn (world s))).
  destruct (spread random (drawn (world s)) (map hide (particles (world s))))
    as [ps c]. simpl in *.
  destruct H as (Ec & El & Hf).
  { apply Forall_forall. intros p Hp.
    apply in_map_iff in Hp as (p0 & <- & _). repeat split. }
  rewrite length_map in *.
  split; [assumption|]. split.
  - eapply Forall_impl; [|exact Hf]. cbv beta. intuition.
  - rewrite T, map_map. reflexivity.
Qed.

End Scatter.

Section ScatterExample.

Import Js Particles Controller Inputs.

Lemma superposition_scatters_the_pool_witness :
  let s' :=
    enterSuperposition far_draws
      (decaying (mkScene on_a_line [] [] 0) one_word) in
  List.length (particles (world s')) = 3%nat /\
  Forall (fun p =>
            visible p = false /\ word p = None /\
            curvature p = 0 /\ centrality p = 0 /\
            superpositionTarget p = None /\
            10 <= V3.distanceTo (Particles.position p) V3.zero <= 25)
         (particles (world s')).
Proof.
  destruct (superposition_scatters_the_pool far_draws
              (decaying (mkScene on_a_line [] [] 0) one_word))
    as (A & B & _).
  - intros i. pose proof (far_draws_range i). lra.
  - split; [exact A|exact B].
Defined.

End ScatterExample.

(** ** The targets of an assembly *)

Section Targets.

Import Js Particles Controller Inputs.

Lemma nth_error_set_nth_same {A : Type} (l : list A) : forall i v,
  (i < List.length l)%nat -> nth_error (set_nth l i v) i = Some v.
Proof.
  induction l as [|a tl IH]; intros [|i] v H; simpl in *; try lia; auto.
  apply IH. lia.
Qed.

Lemma nth_error_set_nth_other {A : Type} (l : list A) : forall i j v,
  i <> j -> nth_error (set_nth l i v) j = nth_error l j.
Proof.
  induction l as [|a tl IH]; intros [|i] [|j] v H; simpl; auto; try congruence.
Qed.

(** The core-node loop: it rewrites the particles [i .. i + cnt - 1] and
    leaves the others. *)
Lemma assignCores_spec sp center : forall cnt i ps,
  (i + cnt <= List.length ps)%nat ->
  exists ps',
    assignCores sp center i cnt ps = (ps', true) /\
    List.length ps' = List.length ps /\
    forall j,
      nth_error ps' j =
        if ((i <=? j) && (j <? i + cnt))%nat
        then option_map (assignCore sp center j) (nth_error ps j)
        else nth_error ps j.
Proof.
  induction cnt as [|cnt IH]; intros i ps Hlen.
  - exists ps. split; [reflexivity|]. split; [reflexivity|].
    intros j. destruct (i <=? j)%nat eqn:E1; destruct (j <? i + 0)%nat eqn:E2;
      auto.
    apply Nat.leb_le in E1. apply Nat.ltb_lt in E2. lia.
  - simpl. destruct (nth_error ps i) as [p|] eqn:Ep.
    2:{ apply nth_error_None in Ep. lia. }
    destruct (IH (S i) (set_nth ps i (assignCore sp center i p)))
      as (ps' & E & L & H).
    { rewrite set_nth_length. lia. }
    exists ps'. split; [assumption|]. split.
    { rewrite L. apply set_nth_length. }
    intros j. rewrite H.
    destruct (Nat.eq_dec i j) as [<- | Hne].
    + replace ((S i <=? i) && (i <? S i + cnt))%nat with false
        by (symmetry; apply andb_false_iff; left; apply Nat.leb_gt; lia).
      replace ((i <=? i) && (i <? i + S cnt))%nat with true
        by (symmetry; apply andb_true_iff; split;
            [apply Nat.leb_le | apply Nat.ltb_lt]; lia).
      rewrite nth_error_set_nth_same, Ep by (apply nth_error_Some; congruence).
      reflexivity.
    + rewrite nth_error_set_nth_other by assumption.
      replace ((S i <=? j) && (j <? S i + cnt))%nat
        with ((i <=? j) && (j <? i + S cnt))%nat; [reflexivity|].
      apply eq_true_iff_eq.
      rewrite !andb_true_iff, !Nat.leb_le, !Nat.ltb_lt. lia.
Qed.

Lemma assignSatellites_spec : forall sats ps,
  List.length sats = List.length ps ->
  List.length (assignSatellites sats ps) = List.length ps /\
  forall j p sat,
    nth_error ps j = Some p -> nth_error sats j = Some sat ->
    nth_error (assignSatellites sats ps) j = Some (assignSatellite sat p).
Proof.
  induction sats as [|sat sats IH]; intros [|p ps] Hlen; simpl in *;
    try discriminate.
  - split; auto. intros [|j]; discriminate.
  - destruct (IH ps ltac:(lia)) as [L H]. split; [simpl; lia|].
    intros [|j] p' sat' Hp Hs; simpl in *.
    + congruence.
    + apply H; assumption.
Qed.

Lemma coreRefs_nth cores i p :
  nth_error cores i = Some p ->
  nth_error (coreRefs cores) i = Some (Fibonacci.mkCore i (curvature p)).
Proof.
  intros H. unfold coreRefs.
  assert (G : forall (l : list particle) a j q,
            nth_error l j = Some q ->
            nth_error (combine (seq a (List.length l)) l) j = Some ((a + j)%nat, q)).
  { induction l as [|x l IH]; intros a [|j] q Hq; simpl in *; try discriminate.
    - rewrite Nat.add_0_r. congruence.
    - rewrite (IH (S a) j q Hq). f_equal. f_equal. lia. }
  rewrite nth_error_map. unfold Fibonacci.loc.
  rewrite (G cores 0%nat i p H). reflexivity.
Qed.

Lemma coreRefs_length cores : List.length (coreRefs cores) = List.length cores.
Proof.
  unfold coreRefs. rewrite length_map, length_combine, length_seq. lia.
Qed.

Lemma coreRefs_in cores :
  Fibonacci.coresIn (coreStore cores) (coreRefs cores).
Proof.
  unfold Fibonacci.coresIn. apply Forall_forall. intros node Hin.
  apply In_nth_error in Hin as (i & Hi).
  assert (Hlt : (i < List.length cores)%nat).
  { rewrite <- coreRefs_length. apply nth_error_Some. congruence. }
  destruct (nth_error cores i) as [p|] eqn:Ep;
    [|apply nth_error_None in Ep; lia].
  rewrite (coreRefs_nth cores i p Ep) in Hi. injection Hi as <-.
  simpl. unfold coreStore. rewrite length_map. assumption.
Qed.

(** X10. When the space has a position and the pool at least as many
    particles as the cores (the first 30 positions at most),
    [collapseToShape] gives every particle of the pool a target.  The
    first particles become the core nodes, each with the scaled position,
    the word and the curvature of its entry of the space; every other
    particle becomes a satellite without word, whose parent is one of the
    core nodes and whose target is exactly the spiral radius of its rank
    away from its parent's target. *)
Theorem every_particle_gets_a_target (sp : space) (ps : list particle) :
  let k := Nat.min 30 (List.length (positions sp)) in
  (1 <= k <= List.length ps)%nat ->
  Forall (fun c => 0 <= c) (curvatures sp) ->
  exists ps',
    assignTargets sp ps = (ps', true) /\
    List.length ps' = List.length ps /\
    (forall i p, (i < k)%nat -> nth_error ps' i = Some p ->
       isCoreNode p = true /\
       targetPosition p = Some (scaled (nth i (positions sp) V3.zero)) /\
       word p = nth_error (words sp) i /\
       curvature p = nth i (curvatures sp) 5.0) /\
    (forall i p, (k <= i)%nat -> nth_error ps' i = Some p ->
       isCoreNode p = false /\ word p = None /\
       Particles.distanceFromParent p = Fibonacci.radius (i - k) /\
       exists parent core target parentTarget,
         parentNode p = Some parent /\ (parent < k)%nat /\
         nth_error ps' parent = Some core /\
         targetPosition core = Some parentTarget /\
         targetPosition p = Some target /\
         V3.distanceTo target parentTarget = Fibonacci.radius (i - k)).
Proof.
  cbv zeta. intros Hk Hcurv. unfold assignTargets.
  set (k := Nat.min 30 (List.length (positions sp))) in *.
  destruct (assignCores_spec sp (centerOfMass sp) k 0 (map clearWord ps))
    as (ps2 & -> & L2 & H2).
  { rewrite length_map. lia. }
  rewrite length_map in L2. cbn [negb].
  set (cores := firstn k ps2).
  assert (Lc : List.length cores = k).
  { unfold cores. rewrite length_firstn. lia. }
  assert (Hcore : forall i p, nth_error cores i = Some p ->
            (i < k)%nat /\
            isCoreNode p = true /\
            targetPosition p = Some (scaled (nth i (positions sp) V3.zero)) /\
            word p = nth_error (words sp) i /\
            curvature p = nth i (curvatures sp) 5.0).
  { intros i p Hi.
    assert (Hlt : (i < k)%nat).
    { rewrite <- Lc. apply nth_error_Some. congruence. }
    split; [assumption|].
    unfold cores in Hi. rewrite nth_error_firstn in Hi.
    apply Nat.ltb_lt in Hlt. rewrite Hlt in Hi.
    rewrite H2 in Hi. cbn [Nat.leb andb] in Hi.
    rewrite Nat.add_0_l, Hlt in Hi.
    destruct (nth_error (map clearWord ps) i) as [p0|]; [|discriminate].
    simpl in Hi. injection Hi as <-. repeat split. }
  assert (Hw : Forall (fun node => 0 <= Fibonacci.curvature node) (coreRefs cores)).
  { apply Forall_forall. intros node Hin.
    apply In_nth_error in Hin as (i & Hi).
    destruct (nth_error cores i) as [p|] eqn:Ep.
    - rewrite (coreRefs_nth cores i p Ep) in Hi. injection Hi as <-. simpl.
      destruct (Hcore i p Ep) as (_ & _ & _ & _ & ->).
      destruct (nth_in_or_default i (curvatures sp) 5.0) as [Hin | ->]; [|lra].
      rewrite Forall_forall in Hcurv. auto.
    - apply nth_error_None in Ep.
      assert (i < List.length (coreRefs cores))%nat
        by (apply nth_error_Some; congruence).
      rewrite coreRefs_length in *. lia. }
  destruct (expansion_radius (coreRefs cores)
              (List.length ps2 - List.length cores) (coreStore cores)
              (coreRefs_in cores)) as (nodes & h' & -> & Ln & Hn).
  { intros E. apply (f_equal (@List.length _)) in E.
    rewrite coreRefs_length in E. simpl in E. lia. }
  { assumption. }
  cbn [Fibonacci.observe].
  destruct (assignSatellites_spec (map (Fibonacci.view h') nodes) (skipn k ps2))
    as [Ls Hs].
  { rewrite length_map, length_skipn. lia. }
  eexists. split; [reflexivity|].
  split.
  { rewrite length_app, Ls, Lc, length_skipn. lia. }
  split.
  - intros i p Hi Hp. rewrite nth_error_app1 in Hp by lia.
    destruct (Hcore i p Hp) as (_ & H). exact H.
  - intros i p Hi Hp. rewrite nth_error_app2 in Hp by lia. rewrite Lc in Hp.
    assert (Hlt : (i - k < List.length (skipn k ps2))%nat).
    { rewrite <- Ls. apply nth_error_Some. congruence. }
    destruct (nth_error (skipn k ps2) (i - k)) as [p0|] eqn:E0;
      [|apply nth_error_None in E0; lia].
    destruct (nth_error nodes (i - k)) as [node|] eqn:En.
    2:{ apply nth_error_None in En. rewrite length_skipn in Hlt. lia. }
    rewrite (Hs (i - k)%nat p0 (Fibonacci.view h' node) E0) in Hp
      by (apply map_nth_error; assumption).
    injection Hp as <-.
    destruct (Hn _ _ En) as (_ & Hd & core & Ec & Hdist & _).
    cbn [assignSatellite isCoreNode word Particles.distanceFromParent
         parentNode targetPosition Fibonacci.view Fibonacci.satParent
         Fibonacci.satPosition Fibonacci.satDistanceFromParent].
    split; [reflexivity|]. split; [reflexivity|]. split; [assumption|].
    assert (Hpar : (Fibonacci.parentNode node < k)%nat).
    { rewrite <- Lc, <- coreRefs_length. apply nth_error_Some. congruence. }
    destruct (nth_error cores (Fibonacci.parentNode node)) as [c|] eqn:Ecore;
      [|apply nth_error_None in Ecore; lia].
    rewrite (coreRefs_nth cores _ c Ecore) in Ec. injection Ec as <-.
    destruct (Hcore _ c Ecore) as (_ & _ & Ht & _).
    exists (Fibonacci.parentNode node), c,
      (Fibonacci.read h' (Fibonacci.position node)),
      (scaled (nth (Fibonacci.parentNode node) (positions sp) V3.zero)).
    split; [reflexivity|]. split; [assumption|].
    split; [rewrite nth_error_app1 by lia; assumption|].
    split; [assumption|]. split; [reflexivity|].
    rewrite <- Hdist. f_equal. symmetry.
    cbn [Fibonacci.targetPosition]. unfold Fibonacci.read, coreStore.
    apply nth_error_nth.
    rewrite nth_error_map, Ecore. simpl. rewrite Ht. reflexivity.
Qed.

End Targets.

Section TargetsExample.

Import Js Particles Controller Inputs.

Lemma every_particle_gets_a_target_witness :
  exists ps',
    assignTargets one_word on_a_line = (ps', true) /\
    List.length ps' = 3%nat.
Proof.
  destruct (every_particle_gets_a_target one_word on_a_line)
    as (ps' & A & B & _).
  - simpl. lia.
  - repeat constructor. simpl. lra.
  - exists ps'. split; [exact A|exact B].
Defined.

End TargetsExample.

(** ** The reset button, the contextual prompt and the decay clock *)

Section Reset.

Import Js Particles Controller Inputs.

Variable random : nat -> R.
Variable queryGroq : string -> option string.
Variable motion : phaseName -> R -> scene -> scene.

(** X7. The reset button does not cancel an assembly in flight.  A click
    while a phase of [collapseToShape] is animating puts the pool in
    superposition, without connections and hidden, but keeps the call;
    the next frame that finds the phase's duration over moves the call to
    its next phase, which overwrites [assemblyPhase] and, unless it is
    the observation phase (which does not set it), [particleState]. *)
Theorem reset_leaves_assembly_in_flight
  (now : R) (q : string) (phase : phaseName) (startTime : R) (s : state) :
  chains s = [mkChain q (Animating phase startTime)] ->
  0 < duration phase -> duration phase <= now - startTime ->
  let s1 := handle random queryGroq motion now ClickReset s in
  let s2 := handle random queryGroq motion now AnimationFrame s1 in
  particleState s1 = SUPERPOSITION /\
  connections (world s1) = [] /\
  Forall (fun p => visible p = false) (particles (world s1)) /\
  chains s1 = chains s /\
  assemblyPhase s2 =
    match phase with
    | VOID => ATTRACTION
    | ATTRACTION => BONDING
    | BONDING => STABILIZATION
    | STABILIZATION => OBSERVATION
    | _ => ASSEMBLED
    end /\
  particleState s2 =
    match phase with
    | VOID => ATTRACTION
    | ATTRACTION => BONDING
    | BONDING => STABILIZATION
    | STABILIZATION => SUPERPOSITION
    | _ => ASSEMBLED
    end /\
  chains s2 =
    [mkChain q
       match phase with
       | VOID => Animating ATTRACTION now
       | ATTRACTION => Animating BONDING now
       | BONDING => Animating STABILIZATION now
       | STABILIZATION => Animating OBSERVATION now
       | _ => Responding
       end].
Proof.
  intros Hc Hd Hle. cbv zeta. unfold handle, clickReset.
  destruct (enterSuperposition_spec random s) as (A & B & C & D & E & F & G & H & I).
  set (s0 := enterSuperposition random s) in *.
  set (s1 := setStatusText _ s0).
  assert (P1 : particleState s1 = SUPERPOSITION) by exact A.
  assert (C1 : chains s1 = [mkChain q (Animating phase startTime)]).
  { change (chains s1) with (chains s0). congruence. }
  split; [exact P1|]. split; [exact D|]. split; [exact E|].
  split; [change (chains s1) with (chains s0); congruence|].
  rewrite animationFrame_unassembled by (rewrite P1; reflexivity).
  rewrite C1. cbn [animatePhases].
  rewrite (animatePhase_done motion now
             (mkChain q (Animating phase startTime)) _ phase startTime
             eq_refl Hd Hle).
  cbn [question].
  set (y := setWorld (motion phase 1 _) _).
  assert (Py : particleState y = SUPERPOSITION) by exact P1.
  destruct phase; simpl in Hd; try lra; repeat split; try reflexivity; exact Py.
Qed.

End Reset.

Section ResetExample.

Import Js Particles Controller Inputs.

Lemma reset_leaves_assembly_in_flight_witness :
  particleState
    (handle half answering still 4000 AnimationFrame
       (handle half answering still 4000 ClickReset
          (attracting (mkScene one_particle [] [] 0) one_word)))
    = BONDING.
Proof.
  destruct (reset_leaves_assembly_in_flight half answering still
              4000 "what is mind" ATTRACTION 1100
              (attracting (mkScene one_particle [] [] 0) one_word) eq_refl)
    as (_ & _ & _ & _ & _ & H & _).
  - simpl. lra.
  - simpl. lra.
  - exact H.
Defined.

End ResetExample.

Section PromptWindow.

Import Js Particles Controller Inputs.

Lemma round_between v (lo hi : Z) :
  IZR lo - 0.5 <= v < IZR hi + 0.5 -> (0 <= lo)%Z ->
  (Z.to_nat lo <= round v <= Z.to_nat hi)%nat.
Proof.
  intros [Hlo Hhi] H0. unfold round.
  destruct (archimed (v + 0.5)) as [A B].
  set (z := up (v + 0.5)) in *.
  assert (H1 : (lo - 1 < z - 1)%Z).
  { apply lt_IZR. rewrite !minus_IZR. lra. }
  assert (H2 : (z - 1 < hi + 1)%Z).
  { apply lt_IZR. rewrite minus_IZR, plus_IZR. lra. }
  lia.
Qed.

(** X8. [buildContextualPrompt] returns the question unchanged when
    there is no previous question or no space, and when more than 67.5 s
    have passed since the last assembly.  Within 67.5 s it wraps the
    question in a prompt that quotes the previous question and the first
    five words of its space, with a weight between 6 and 60 percent. *)
Theorem context_enters_the_prompt_for_67_seconds
  (now : R) (q : string) (s : state) :
  (previousQuestion s = None \/ currentSpace s = None ->
     buildContextualPrompt now q s = q) /\
  (forall previous sp,
     previousQuestion s = Some previous -> previous <> EmptyString ->
     currentSpace s = Some sp ->
     (67500 < now - assemblyTimestamp s ->
        buildContextualPrompt now q s = q) /\
     (0 <= now - assemblyTimestamp s < 67500 ->
        exists percent,
          (6 <= percent <= 60)%nat /\
          buildContextualPrompt now q s =
            ("Previous context (" ++ showNat percent ++ "% weight): " ++
             quote previous ++ SpaceGenerator.newline ++
             "Previous key concepts: " ++ join ", " (firstn 5 (words sp)) ++
             SpaceGenerator.newline ++ SpaceGenerator.newline ++
             "Current question: " ++ quote q ++
             SpaceGenerator.newline ++ SpaceGenerator.newline ++
             "Based on the temporal context decay, blend the semantic spaces with " ++
             showNat percent ++ "% influence from the previous question.")%string)).
Proof.
  split.
  - intros [H | H]; unfold buildContextualPrompt; rewrite H; auto.
    destruct (previousQuestion s); reflexivity.
  - intros previous sp Hp Hne Hs. unfold buildContextualPrompt.
    rewrite Hp, Hs. apply String.eqb_neq in Hne. rewrite Hne. cbv zeta.
    unfold CONTEXT_DECAY_START, CONTEXT_DECAY_DURATION, CONTEXT_INFLUENCE.
    set (elapsed := now - assemblyTimestamp s).
    split.
    + intros Hlate.
      assert (H : ltb (Rmax 0 (1 - elapsed / (30000 + 45000))) 0.1 = true).
      { apply ltb_true. apply Rmax_lub_lt; lra. }
      rewrite H. reflexivity.
    + intros [H0 Hin].
      assert (Hmax : Rmax 0 (1 - elapsed / (30000 + 45000)) =
                     1 - elapsed / (30000 + 45000)).
      { apply Rmax_right. lra. }
      rewrite Hmax.
      assert (H : ltb (1 - elapsed / (30000 + 45000)) 0.1 = false).
      { apply ltb_false. lra. }
      rewrite H.
      exists (round ((1 - elapsed / (30000 + 45000)) * 0.6 * 100)).
      split; [|reflexivity].
      apply (round_between _ 6 60); [simpl; lra | lia].
Qed.

End PromptWindow.

Section StaleClock.

Import Js Particles Controller Inputs.

Variable random : nat -> R.
Variable queryGroq : string -> option string.
Variable motion : phaseName -> R -> scene -> scene.

(** An unpaused decay update whose clock is past the whole decay window
    ends in superposition, whether or not the decay had begun. *)
Lemma updateContextDecay_expired now s :
  particleState s = ASSEMBLED -> decayPaused s = false ->
  CONTEXT_DECAY_START + CONTEXT_DECAY_DURATION <= now - decayStartTime s ->
  let s' := updateContextDecay random now s in
  particleState s' = SUPERPOSITION /\
  isDecaying s' = false /\
  connections (world s') = [] /\
  Forall (fun p => visible p = false) (particles (world s')) /\
  assemblyPhase s' = assemblyPhase s /\
  chains s' = chains s /\ timers s' = timers s.
Proof.
  intros Hs Hp Hle. cbv zeta.
  assert (Hlt : ltb CONTEXT_DECAY_START (now - decayStartTime s) = true).
  { apply ltb_true. unfold CONTEXT_DECAY_START, CONTEXT_DECAY_DURATION in *. lra. }
  assert (Hpr : Rmin 1 ((now - decayStartTime s - CONTEXT_DECAY_START) /
                        CONTEXT_DECAY_DURATION) = 1).
  { apply Rmin_left.
    unfold CONTEXT_DECAY_START, CONTEXT_DECAY_DURATION in *.
    apply Rmult_le_reg_r with 45000; [lra|].
    unfold Rdiv. rewrite Rmult_assoc, Rinv_l by lra. lra. }
  assert (Hl : leb 1.0 1 = true) by (apply leb_true; lra).
  unfold updateContextDecay. cbv zeta.
  rewrite Hs. cbn [isAssembled negb]. rewrite Hlt.
  destruct (isDecaying s) eqn:Hd; cbn [andb negb isDecaying setStatusText
    setIsDecaying decayPaused]; rewrite ?Hd, Hp; cbn [negb];
    unfold decayProgress; cbv zeta;
    cbn [decayStartTime setStatusText setIsDecaying]; rewrite Hpr;
    match goal with |- context [decayParticles random 1 ?c ?ps] =>
      destruct (decayParticles random 1 c ps) as [ps' c']
    end;
    rewrite Hl;
    match goal with |- context [enterSuperposition random ?t] =>
      destruct (enterSuperposition_spec random t)
        as (A & B & _ & D & E & F & _ & G & H)
    end;
    repeat split; auto.
Qed.

(** X9. The decay clock is started only after the response has
    arrived, while the shape is [ASSEMBLED] from the end of the
    observation phase on.  If at a frame in between the clock is at
    least 75 s behind (it still is where [init] or the previous assembly
    left it), that frame dissolves the new shape into superposition, all
    particles hidden and the connections gone; the response that arrives
    later reports a stable network and starts the clock, with the pool
    still in superposition. *)
Theorem stale_decay_clock_dissolves_the_new_shape
  (now later : R) (q : string) (s : state) :
  particleState s = ASSEMBLED -> decayPaused s = false ->
  chains s = [mkChain q Responding] ->
  CONTEXT_DECAY_START + CONTEXT_DECAY_DURATION <= now - decayStartTime s ->
  let s1 := handle random queryGroq motion now AnimationFrame s in
  let s2 := handle random queryGroq motion later (ResponseReplied 0) s1 in
  particleState s1 = SUPERPOSITION /\
  connections (world s1) = [] /\
  Forall (fun p => visible p = false) (particles (world s1)) /\
  chains s1 = [mkChain q Responding] /\
  particleState s2 = SUPERPOSITION /\
  Forall (fun p => visible p = false) (particles (world s2)) /\
  decayStartTime s2 = later /\
  statusText s2 = "Topology crystallized. Network stable."%string /\
  chains s2 = [].
Proof.
  intros Hs Hp Hc Hle. cbv zeta. unfold handle.
  assert (E1 : animationFrame random motion now s =
               updateContextDecay random now
                 (setWorld (updateConnections now (world s)) s)).
  { unfold animationFrame. cbv zeta.
    destruct (updateContextDecay_expired now
                (setWorld (updateConnections now (world s)) s) Hs Hp Hle)
      as (_ & _ & _ & _ & _ & G & _).
    set (u := updateContextDecay random now _) in *.
    change (chains (setWorld (updateConnections now (world s)) s))
      with (chains s) in G.
    rewrite G, Hc. cbn [animatePhases animatePhase awaiting].
    rewrite <- Hc, <- G. clear. destruct u. reflexivity. }
  rewrite E1.
  destruct (updateContextDecay_expired now
              (setWorld (updateConnections now (world s)) s) Hs Hp Hle)
    as (A & _ & D & E & _ & G & _).
  set (u := updateContextDecay random now _) in *.
  change (chains (setWorld (updateConnections now (world s)) s))
    with (chains s) in G.
  rewrite Hc in G.
  split; [assumption|]. split; [assumption|]. split; [assumption|].
  split; [assumption|].
  unfold responseReplied. rewrite G. cbn [nth_error removeAt].
  repeat split; assumption.
Qed.

End StaleClock.

Section StaleClockExample.

Import Js Particles Controller Inputs.

(** The state a completed phase leaves, field by field. *)
Ltac next_phase :=
  cbv [afterPhase startPhase still
       setChains setWorld setStatusText setParticleState setAssemblyPhase
       setDecayStartTime setIsDecaying setDecayPaused setTimers
       fst snd world particleState assemblyPhase currentSpace
       previousQuestion assemblyTimestamp decayStartTime isDecaying
       decayPaused statusText chains timers phaseStatus].

(** A question asked 80 s after the page was loaded reaches the end of
    its assembly with the decay clock where [init] left it. *)
Lemma awaiting_response_reachable :
  exists w,
    run half answering still asked_late (initial half one_particle) =
    awaiting_response w one_word.
Proof.
  unfold asked_late. cbn [run].
  set (s3 := handle half answering still 80100 (SpaceGenerated 0 one_word) _).
  assert (E : s3 =
    mkState (world s3) VOID VOID (Some one_word) (Some "what is mind"%string)
      80100 0 false false "Wavefunction collapsing - nodes crystallizing..."
      [mkChain "what is mind" (Animating VOID 80100)] []).
  { rewrite (state_eta s3) at 1. reflexivity. }
  rewrite E. unfold handle.
  rewrite frame_completes_phase by (simpl; auto; lra).
  next_phase.
  rewrite (frame_completes_phase 83600 _ ATTRACTION 81100) by (simpl; auto; lra).
  next_phase.
  rewrite (frame_completes_phase 86600 _ BONDING 83600) by (simpl; auto; lra).
  next_phase.
  rewrite (frame_completes_phase 88600 _ STABILIZATION 86600) by (simpl; auto; lra).
  next_phase.
  rewrite (frame_completes_phase 89600 _ OBSERVATION 88600) by (simpl; auto; lra).
  next_phase.
  eexists. reflexivity.
Qed.

Lemma stale_decay_clock_dissolves_the_new_shape_witness :
  let s := run half answering still asked_late (initial half one_particle) in
  let s1 := handle half answering still 89616 AnimationFrame s in
  let s2 := handle half answering still 90000 (ResponseReplied 0) s1 in
  particleState s = ASSEMBLED /\
  particleState s1 = SUPERPOSITION /\
  particleState s2 = SUPERPOSITION /\
  statusText s2 = "Topology crystallized. Network stable."%string.
Proof.
  cbv zeta. destruct awaiting_response_reachable as (w & ->).
  destruct (stale_decay_clock_dissolves_the_new_shape half answering still
              89616 90000 "what is mind" (awaiting_response w one_word))
    as (A & _ & _ & _ & B & _ & _ & C & _).
  - reflexivity.
  - reflexivity.
  - reflexivity.
  - unfold CONTEXT_DECAY_START, CONTEXT_DECAY_DURATION. simpl. lra.
  - split; [reflexivity|]. split; [exact A|]. split; [exact B|exact C].
Defined.

End StaleClockExample.

Section EmptySpace.

Import Js Particles Controller Inputs.

Variable random : nat -> R.
Variable queryGroq : string -> option string.
Variable motion : phaseName -> R -> scene -> scene.

(** X11. A space without positions, as a generation returns it when
    no word passes the filter, fails the assembly when the pool is not
    empty: the expansion finds no parent and throws, the status line
    reads [Assembly failed: ] followed by the engine's message, the call
    ends, no particle holds a word, and the timer set for 2 s later
    returns the pool to superposition.  The space and the question stay
    recorded as the current ones. *)
Theorem space_without_positions_fails_the_assembly
  (now : R) (id : nat) (q : string) (sp : space) (s : state) :
  nth_error (chains s) id = Some (mkChain q GeneratingRest) ->
  positions sp = [] ->
  particles (world s) <> [] ->
  let s1 := handle random queryGroq motion now (SpaceGenerated id sp) s in
  (exists message,
     statusText s1 = ("Assembly failed: " ++ message)%string) /\
  chains s1 = removeAt id (chains s) /\
  timers s1 = timers s ++ [now + 2000] /\
  particleState s1 = particleState s /\
  currentSpace s1 = Some sp /\ previousQuestion s1 = Some q /\
  Forall (fun p => word p = None) (particles (world s1)) /\
  forall later, now + 2000 <= later ->
    particleState (handle random queryGroq motion later Timeout s1)
      = SUPERPOSITION.
Proof.
  intros Hc Hp Hne. cbv zeta. unfold handle, spaceGenerated.
  rewrite Hc. cbv zeta.
  cbn [world setStatusText setCurrent setIsDecaying].
  unfold assignTargets. rewrite Hp. cbn [List.length Nat.min assignCores].
  cbn [negb firstn coreRefs coreStore List.length seq combine map].
  destruct (map clearWord (particles (world s))) as [|p0 tl] eqn:Em.
  { destruct (particles (world s)); [congruence|discriminate]. }
  cbn [Fibonacci.generateFibonacciExpansion Fibonacci.alloc List.length
       Fibonacci.addAll fold_left Nat.sub Nat.eqb Fibonacci.observe negb].
  unfold assemblyFailed. cbv zeta.
  cbn [statusText chains timers particleState currentSpace previousQuestion
       setStatusText setTimers setChains setWorld setParticles world particles
       setCurrent setIsDecaying].
  split; [exists typeErrorMessage; reflexivity|].
  split; [reflexivity|]. split; [reflexivity|].
  split; [reflexivity|]. split; [reflexivity|]. split; [reflexivity|].
  split.
  - rewrite <- Em. apply Forall_forall. intros p Hin.
    apply in_map_iff in Hin as (p' & <- & _). reflexivity.
  - intros later Hl.
    match goal with |- particleState (fireTimers random later ?t) = _ =>
      destruct (fireTimers_due random later (now + 2000) t) as (A & _)
    end; auto.
    cbn [timers]. apply in_or_app. right. left. reflexivity.
Qed.

End EmptySpace.

Section EmptySpaceExample.

Import Js Particles Controller Inputs.

Lemma space_without_positions_fails_the_assembly_witness :
  let s :=
    run half answering still
      [(0, KeypressEnter "what is mind"); (50, WordsReplied 0)]
      (initial half one_particle) in
  let s1 := handle half answering still 100 (SpaceGenerated 0 no_words) s in
  statusText s = "Rating archetypal weights..."%string /\
  (exists message,
     statusText s1 = ("Assembly failed: " ++ message)%string) /\
  chains s1 = [] /\
  particleState (handle half answering still 2100 Timeout s1) = SUPERPOSITION.
Proof.
  cbv zeta.
  destruct (space_without_positions_fails_the_assembly half answering still
              100 0 "what is mind" no_words
              (run half answering still
                 [(0, KeypressEnter "what is mind"); (50, WordsReplied 0)]
                 (initial half one_particle)))
    as (A & B & _ & _ & _ & _ & _ & C).
  - reflexivity.
  - reflexivity.
  - discriminate.
  - split; [reflexivity|]. split; [exact A|]. split; [exact B|].
    apply C. lra.
Defined.

End EmptySpaceExample.

(** ** The topology and the concepts of the response *)

Section BoundingSphere.

Import Js Particles Controller Topology.

Lemma widen_spec center : forall ps bound,
  let r := fold_left (widen center) ps bound in
  bound <= r /\
  Forall (fun p => V3.distanceTo (Particles.position p) center <= r) ps /\
  (r = bound \/
   Exists (fun p => V3.distanceTo (Particles.position p) center = r) ps).
Proof.
  induction ps as [|p tl IH]; intros bound; cbv zeta; simpl.
  - repeat split; auto. lra.
  - specialize (IH (widen center bound p)). cbv zeta in IH.
    destruct IH as (A & B & C).
    set (r := fold_left (widen center) tl (widen center bound p)) in *.
    assert (W : bound <= widen center bound p /\
                V3.distanceTo (Particles.position p) center
                  <= widen center bound p /\
                (widen center bound p = bound \/
                 widen center bound p =
                   V3.distanceTo (Particles.position p) center)).
    { unfold widen. cbv zeta.
      destruct (ltb bound (V3.distanceTo (Particles.position p) center)) eqn:E.
      - apply ltb_true in E. repeat split; auto; lra.
      - apply ltb_false in E. repeat split; auto; lra. }
    destruct W as (W1 & W2 & W3).
    split; [lra|]. split.
    + constructor; [lra | assumption].
    + destruct C as [C | C].
      * destruct W3 as [W3 | W3].
        -- left. congruence.
        -- right. apply Exists_cons_hd. congruence.
      * right. apply Exists_cons_tl. assumption.
Qed.

(** X12. For a scene of at least two particles [analyzeTopology]
    returns finite numbers: the centre of mass is the mean position, the
    density is the number of edges over the number of pairs, the average
    degree is twice the edges over the nodes, which is the density times
    [n - 1], and the bounding sphere is the largest distance of a
    particle from the centre of mass, attained by one of them. *)
Theorem topology_measures_the_shape (w : scene) :
  (2 <= List.length (particles w))%nat ->
  let t := analyzeTopology w in
  let n := INR (List.length (particles w)) in
  let e := INR (List.length (connections w)) in
  exists c,
    centerOfMass t = Ok c /\
    c = V3.divideScalar
          (fold_left (fun c p => V3.add c (Particles.position p))
             (particles w) V3.zero) n /\
    density t = Ok (e / (n * (n - 1) / 2)) /\
    avgDegree t = Ok (e * 2 / n) /\
    e * 2 / n = e / (n * (n - 1) / 2) * (n - 1) /\
    Forall (fun p =>
              V3.distanceTo (Particles.position p) c <= boundingSphere t)
           (particles w) /\
    Exists (fun p =>
              V3.distanceTo (Particles.position p) c = boundingSphere t)
           (particles w).
Proof.
  intros Hn. cbv zeta. unfold analyzeTopology. cbv zeta.
  set (n := INR (List.length (particles w))).
  set (e := INR (List.length (connections w))).
  assert (H2 : 2 <= n).
  { unfold n. replace 2 with (INR 2) by (simpl; lra). apply le_INR. assumption. }
  destruct (Req_dec_T n 0) as [E|_]; [lra|].
  cbn [centerOfMass density avgDegree boundingSphere].
  eexists. split; [reflexivity|]. split; [reflexivity|].
  unfold div.
  destruct (Req_dec_T (n * (n - 1) / 2) 0) as [E|_]; [nra|].
  destruct (Req_dec_T n 0) as [E|_]; [lra|].
  split; [reflexivity|]. split; [reflexivity|].
  split; [field; lra|].
  match goal with |- context [fold_left (widen ?c) _ 0] =>
    pose proof (widen_spec c (particles w) 0) as H
  end.
  cbv zeta in H. destruct H as (A & B & C).
  split; [assumption|].
  destruct C as [C | C]; [|assumption].
  destruct (particles w) as [|p tl] eqn:Ep; [simpl in Hn; lia|].
  apply Exists_cons_hd.
  inversion B as [|? ? Hp _]; subst.
  pose proof (distanceTo_nonneg (Particles.position p)
    (V3.divideScalar
       (fold_left (fun c p0 => V3.add c (Particles.position p0)) (p :: tl) V3.zero)
       n)).
  lra.
Qed.

End BoundingSphere.

Section BoundingSphereExample.

Import Js Particles Controller Inputs.

Lemma topology_measures_the_shape_witness :
  Topology.density (Topology.analyzeTopology (mkScene on_a_line [] [] 0))
    = Ok (INR 0 / (INR 3 * (INR 3 - 1) / 2)).
Proof.
  destruct (topology_measures_the_shape (mkScene on_a_line [] [] 0))
    as (c & _ & _ & A & _).
  - simpl. lia.
  - exact A.
Defined.

End BoundingSphereExample.

Section Ranking.

Import Js Particles Controller Topology.

Lemma insertBy_perm {A : Type} (key : A -> R) a : forall l,
  Permutation (insertBy key a l) (a :: l).
Proof.
  induction l as [|b tl IH]; simpl; auto.
  destruct (leb (key a) (key b)); auto.
  rewrite IH. apply perm_swap.
Qed.

Lemma sortBy_perm {A : Type} (key : A -> R) : forall l,
  Permutation (sortBy key l) l.
Proof.
  induction l as [|a tl IH]; simpl; auto.
  rewrite insertBy_perm. auto.
Qed.

Lemma insertBy_sorted {A : Type} (key : A -> R) a : forall l,
  StronglySorted (fun x y => key x <= key y) l ->
  StronglySorted (fun x y => key x <= key y) (insertBy key a l).
Proof.
  induction l as [|b tl IH]; intros H; simpl.
  - repeat constructor.
  - inversion H as [|? ? Htl Hb]; subst.
    destruct (leb (key a) (key b)) eqn:E.
    + apply leb_true in E. constructor; auto.
      constructor; auto.
      eapply Forall_impl; [|exact Hb]. cbv beta. intros; lra.
    + apply leb_false in E. constructor; auto.
      eapply Permutation_Forall; [symmetry; apply insertBy_perm|].
      constructor; [lra | assumption].
Qed.

Lemma sortBy_sorted {A : Type} (key : A -> R) : forall l,
  StronglySorted (fun x y => key x <= key y) (sortBy key l).
Proof.
  induction l as [|a tl IH]; simpl; [constructor|].
  apply insertBy_sorted. assumption.
Qed.

Lemma sorted_split {A : Type} (key : A -> R) : forall l1 l2,
  StronglySorted (fun x y => key x <= key y) (l1 ++ l2) ->
  forall a b, In a l1 -> In b l2 -> key a <= key b.
Proof.
  induction l1 as [|x tl IH]; intros l2 H a b Ha Hb; [destruct Ha|].
  simpl in H. inversion H as [|? ? Htl Hx]; subst.
  destruct Ha as [<- | Ha].
  - rewrite Forall_forall in Hx. apply Hx. apply in_or_app. auto.
  - eapply IH; eauto.
Qed.

Lemma sortBy_front {A : Type} (key : A -> R) (l : list A) n a b :
  In a (firstn n (sortBy key l)) -> In b (skipn n (sortBy key l)) ->
  key a <= key b.
Proof.
  intros Ha Hb.
  apply (sorted_split key (firstn n (sortBy key l)) (skipn n (sortBy key l)));
    auto.
  rewrite firstn_skipn. apply sortBy_sorted.
Qed.

Lemma wordCurvatures_In ps r :
  In r (wordCurvatures ps) ->
  ratedCurvature r <> 0 /\ ratedWord r <> EmptyString /\
  exists p,
    In p ps /\ word p = Some (ratedWord r) /\
    curvature p = ratedCurvature r /\ centrality p = ratedCentrality r.
Proof.
  unfold wordCurvatures. intros H.
  apply in_flat_map in H as (p & Hp & H).
  destruct (hasWord p) eqn:Ew; [|destruct H].
  destruct (Req_dec_T (curvature p) 0) as [E|E]; [destruct H|].
  destruct H as [<- | []]. simpl.
  unfold hasWord, wordOf in *.
  destruct (word p) as [w|] eqn:Ewd; [|discriminate].
  apply negb_true_iff, String.eqb_neq in Ew.
  split; [auto|]. split; [auto|]. exists p. auto.
Qed.

(** X14. The three word lists of [generateTopologyResponse]'s prompt.
    Only particles with a word and a curvature other than 0 are rated.
    The fundamental concepts are the words of five entries of highest
    curvature, the peripheral concepts those of three of lowest
    curvature, and the central words those of three entries of lowest
    [centrality]; both sorts only reorder the rated words.  With three
    rated words or fewer the peripheral concepts are the fundamental
    ones. *)
Theorem response_concepts_are_ranked (ps : list particle) :
  let rated := wordCurvatures ps in
  let byCurvature := sortBy (fun w => - ratedCurvature w) rated in
  let byCentrality := sortBy ratedCentrality byCurvature in
  let c := selectConcepts ps in
  (forall r, In r rated ->
     ratedCurvature r <> 0 /\ ratedWord r <> EmptyString /\
     exists p,
       In p ps /\ word p = Some (ratedWord r) /\
       curvature p = ratedCurvature r /\ centrality p = ratedCentrality r) /\
  Permutation byCurvature rated /\ Permutation byCentrality rated /\
  fundamentalConcepts c = map ratedWord (firstn 5 byCurvature) /\
  (forall a b, In a (firstn 5 byCurvature) -> In b (skipn 5 byCurvature) ->
     ratedCurvature b <= ratedCurvature a) /\
  peripheralConcepts c = map ratedWord (lastn 3 byCurvature) /\
  (forall a b,
     In a (lastn 3 byCurvature) ->
     In b (firstn (List.length byCurvature - 3) byCurvature) ->
     ratedCurvature a <= ratedCurvature b) /\
  centralWords c = map ratedWord (firstn 3 byCentrality) /\
  (forall a b, In a (firstn 3 byCentrality) -> In b (skipn 3 byCentrality) ->
     ratedCentrality a <= ratedCentrality b) /\
  ((List.length rated <= 3)%nat ->
     peripheralConcepts c = fundamentalConcepts c).
Proof.
  cbv zeta.
  split; [apply wordCurvatures_In|].
  split; [apply sortBy_perm|].
  split; [rewrite sortBy_perm; apply sortBy_perm|].
  split; [reflexivity|].
  split.
  { intros a b Ha Hb.
    pose proof (sortBy_front (fun w => - ratedCurvature w) _ 5 a b Ha Hb).
    lra. }
  split; [reflexivity|].
  split.
  { intros a b Ha Hb. unfold lastn in Ha.
    pose proof (sortBy_front (fun w => - ratedCurvature w) _ _ b a Hb Ha).
    lra. }
  split; [reflexivity|].
  split.
  { intros a b Ha Hb. apply (sortBy_front ratedCentrality _ 3 a b Ha Hb). }
  intros Hlen. unfold selectConcepts. cbv zeta.
  cbn [peripheralConcepts fundamentalConcepts]. f_equal.
  set (l := sortBy _ _).
  assert (Ll : (List.length l <= 3)%nat).
  { unfold l. rewrite (Permutation_length (sortBy_perm _ _)). assumption. }
  unfold lastn. replace (List.length l - 3)%nat with 0%nat by lia.
  rewrite firstn_all2 by lia. reflexivity.
Qed.

End Ranking.

(** ** Concept clusters *)

Section Clusters.

Import Js Particles Controller Topology.

Lemma fold_left_inv {A S : Type} (Inv : S -> Prop) (f : S -> A -> S) :
  forall l s,
    Inv s -> (forall x s, In x l -> Inv s -> Inv (f s x)) ->
    Inv (fold_left f l s).
Proof.
  induction l as [|a tl IH]; intros s Hs Hstep; simpl; auto.
  apply IH.
  - apply Hstep; simpl; auto.
  - intros x s' Hx. apply Hstep. simpl. auto.
Qed.

Lemma existsb_eqb j l : existsb (Nat.eqb j) l = false -> ~ In j l.
Proof.
  intros H Hin.
  assert (E : existsb (Nat.eqb j) l = true).
  { apply existsb_exists. exists j. split; auto. apply Nat.eqb_refl. }
  congruence.
Qed.

Lemma NoDup_snoc {A : Type} (l : list A) a :
  NoDup l -> ~ In a l -> NoDup (l ++ [a]).
Proof.
  intros Hl Ha. apply NoDup_app; auto.
  - constructor; [intros []|constructor].
  - intros x Hx [<- | []]. contradiction.
Qed.

Variable ps : list particle.

(** The inner loop, started at the centre [i] with word [wordOf p]. *)
Lemma joinCluster_inv i p processed0 :
  nth_error ps i = Some p ->
  NoDup processed0 -> ~ In i processed0 ->
  (forall j, In j processed0 ->
     exists q, nth_error ps j = Some q /\ hasWord q = true) ->
  let '(members, processed) :=
    fold_left (fun acc j => joinCluster ps i p j acc)
      (seq 0 (List.length ps)) ([wordOf p], processed0) in
  NoDup processed /\ ~ In i processed /\
  (forall j, In j processed ->
     exists q, nth_error ps j = Some q /\ hasWord q = true) /\
  (forall j, In j processed0 -> In j processed) /\
  (List.length members + List.length processed0 =
     1 + List.length processed)%nat /\
  exists rest,
    members = wordOf p :: rest /\
    forall w, In w rest ->
      exists j other,
        j <> i /\ nth_error ps j = Some other /\
        hasWord other = true /\ wordOf other = w /\
        V3.distanceTo (Particles.position p) (Particles.position other)
          < clusterRadius.
Proof.
  intros Hp Hnd Hi Hw.
  apply (fold_left_inv
    (fun '(members, processed) =>
       NoDup processed /\ ~ In i processed /\
       (forall j, In j processed ->
          exists q, nth_error ps j = Some q /\ hasWord q = true) /\
       (forall j, In j processed0 -> In j processed) /\
       (List.length members + List.length processed0 =
          1 + List.length processed)%nat /\
       exists rest,
         members = wordOf p :: rest /\
         forall w, In w rest ->
           exists j other,
             j <> i /\ nth_error ps j = Some other /\
             hasWord other = true /\ wordOf other = w /\
             V3.distanceTo (Particles.position p) (Particles.position other)
               < clusterRadius)).
  - split; [assumption|]. split; [assumption|]. split; [assumption|].
    split; [auto|]. split; [reflexivity|].
    exists []. split; auto. intros w [].
  - intros j [members processed] _ (A & B & C & I & D & rest & E & F).
    assert (Same : NoDup processed /\ ~ In i processed /\
       (forall j, In j processed ->
          exists q, nth_error ps j = Some q /\ hasWord q = true) /\
       (forall j, In j processed0 -> In j processed) /\
       (List.length members + List.length processed0 =
          1 + List.length processed)%nat /\
       exists rest,
         members = wordOf p :: rest /\
         forall w, In w rest ->
           exists j other,
             j <> i /\ nth_error ps j = Some other /\
             hasWord other = true /\ wordOf other = w /\
             V3.distanceTo (Particles.position p) (Particles.position other)
               < clusterRadius).
    { split; [assumption|]. split; [assumption|]. split; [assumption|].
      split; [assumption|]. split; [assumption|]. exists rest. auto. }
    unfold joinCluster.
    destruct (nth_error ps j) as [other|] eqn:Ej; [|exact Same].
    destruct (hasWord other) eqn:Ew; cbn [negb orb]; [|exact Same].
    destruct (j =? i)%nat eqn:Eji; cbn [orb]; [exact Same|].
    destruct (existsb (Nat.eqb j) processed) eqn:Ex; [exact Same|].
    destruct (ltb _ clusterRadius) eqn:Ed; [|exact Same].
    apply Nat.eqb_neq in Eji. apply existsb_eqb in Ex. apply ltb_true in Ed.
    split; [|split; [|split; [|split; [|split]]]].
    + apply NoDup_snoc; assumption.
    + intros Hin. apply in_app_or in Hin as [Hin | [<- | []]]; auto.
    + intros x Hin. apply in_app_or in Hin as [Hin | [<- | []]]; eauto.
    + intros x Hin. apply in_or_app. auto.
    + rewrite !length_app. simpl. lia.
    + exists (rest ++ [wordOf other]). split; [rewrite E; reflexivity|].
      intros w Hin. apply in_app_or in Hin as [Hin | [<- | []]]; auto.
      exists j, other. auto.
Qed.

(** What the outer loop keeps. *)
Lemma allClusters_inv :
  let '(clusters, processed) := allClusters ps in
  NoDup processed /\
  (forall j, In j processed ->
     exists q, nth_error ps j = Some q /\ hasWord q = true) /\
  list_sum (map (fun c => List.length (members c)) clusters)
    = List.length processed /\
  Forall (wellClustered ps) clusters /\
  (forall c, In c clusters -> In (center c) processed) /\
  NoDup (map center clusters).
Proof.
  unfold allClusters.
  apply (fold_left_inv
    (fun '(clusters, processed) =>
       NoDup processed /\
       (forall j, In j processed ->
          exists q, nth_error ps j = Some q /\ hasWord q = true) /\
       list_sum (map (fun c => List.length (members c)) clusters)
         = List.length processed /\
       Forall (wellClustered ps) clusters /\
       (forall c, In c clusters -> In (center c) processed) /\
       NoDup (map center clusters))).
  - split; [constructor|]. split; [intros j []|]. split; [reflexivity|].
    split; [constructor|]. split; [intros c []|constructor].
  - intros i [clusters processed] _ (A & B & C & D & E & F).
    assert (Same : NoDup processed /\
       (forall j, In j processed ->
          exists q, nth_error ps j = Some q /\ hasWord q = true) /\
       list_sum (map (fun c => List.length (members c)) clusters)
         = List.length processed /\
       Forall (wellClustered ps) clusters /\
       (forall c, In c clusters -> In (center c) processed) /\
       NoDup (map center clusters)).
    { split; [assumption|]. split; [assumption|]. split; [assumption|].
      split; [assumption|]. split; assumption. }
    unfold growCluster.
    destruct (nth_error ps i) as [p|] eqn:Ei; [|exact Same].
    destruct (hasWord p) eqn:Ew; cbn [negb orb]; [|exact Same].
    destruct (existsb (Nat.eqb i) processed) eqn:Ex; [exact Same|].
    apply existsb_eqb in Ex.
    pose proof (joinCluster_inv i p processed Ei A Ex B) as H.
    destruct (fold_left (fun acc j => joinCluster ps i p j acc)
                (seq 0 (List.length ps)) ([wordOf p], processed))
      as [members processed'].
    destruct H as (A' & Hi' & B' & I' & L & rest & Em & Hrest).
    destruct (1 <? List.length members)%nat eqn:El.
    + apply Nat.ltb_lt in El.
      split; [|split; [|split; [|split; [|split]]]].
      * apply NoDup_snoc; assumption.
      * intros x Hin. apply in_app_or in Hin as [Hin | [<- | []]]; eauto.
      * rewrite map_app, list_sum_app, !length_app. simpl. lia.
      * apply Forall_app. split; auto.
        constructor; [|constructor].
        split; [simpl; lia|]. exists p, rest. simpl. auto.
      * intros c Hin. apply in_app_or in Hin as [Hin | [<- | []]];
          apply in_or_app; [left; auto | right; left; reflexivity].
      * rewrite map_app. apply NoDup_snoc; auto.
        intros Hx. apply in_map_iff in Hx as (c & Hc & Hin).
        simpl in Hc. apply Ex. rewrite <- Hc. auto.
    + apply Nat.ltb_ge in El.
      split; [assumption|]. split; [assumption|].
      split; [rewrite Em in *; simpl in *; lia|].
      split; [assumption|]. split; [auto|assumption].
Qed.

Lemma list_sum_firstn {A : Type} (g : A -> nat) : forall (l : list A) n,
  (list_sum (map g (firstn n l)) <= list_sum (map g l))%nat.
Proof.
  induction l as [|a tl IH]; intros [|n]; simpl; try lia.
  specialize (IH n). lia.
Qed.

Lemma count_by_index {A : Type} (f : A -> bool) : forall (l : list A) a,
  List.length
    (filter (fun j => match nth_error l (j - a) with
                      | Some q => f q
                      | None => false
                      end) (seq a (List.length l)))
  = List.length (filter f l).
Proof.
  induction l as [|q tl IH]; intros a; simpl; auto.
  rewrite Nat.sub_diag. simpl.
  assert (E : filter (fun j => match nth_error (q :: tl) (j - a) with
                               | Some q0 => f q0
                               | None => false
                               end) (seq (S a) (List.length tl)) =
              filter (fun j => match nth_error tl (j - S a) with
                               | Some q0 => f q0
                               | None => false
                               end) (seq (S a) (List.length tl))).
  { apply filter_ext_in. intros j Hj. apply in_seq in Hj.
    replace (j - a)%nat with (S (j - S a)) by lia. reflexivity. }
  destruct (f q); simpl; rewrite E, IH; reflexivity.
Qed.

(** X13. [identifyConceptClusters] returns at most five clusters.  Each
    has at least two members: the word of its centre, then the words of
    other particles less than 4 from the centre.  No particle is the
    centre of two clusters, and the clusters together have no more
    members than there are particles with a word. *)
Theorem clusters_are_disjoint_neighbourhoods :
  let clusters := identifyConceptClusters ps in
  (List.length clusters <= 5)%nat /\
  Forall (wellClustered ps) clusters /\
  NoDup (map center clusters) /\
  (list_sum (map (fun c => List.length (members c)) clusters)
     <= List.length (filter hasWord ps))%nat.
Proof.
  cbv zeta. unfold identifyConceptClusters.
  pose proof allClusters_inv as H.
  destruct (allClusters ps) as [clusters processed]. cbn [fst].
  destruct H as (A & B & C & D & E & F).
  split; [rewrite length_firstn; lia|].
  split.
  { rewrite <- (firstn_skipn 5 clusters) in D.
    apply Forall_app in D. apply D. }
  split.
  { rewrite <- (firstn_skipn 5 clusters), map_app in F.
    apply NoDup_app_remove_r in F. assumption. }
  eapply Nat.le_trans; [apply list_sum_firstn|].
  rewrite C, <- (count_by_index hasWord ps 0).
  apply NoDup_incl_length; [assumption|].
  intros j Hj. destruct (B j Hj) as (q & Eq & Hq).
  apply filter_In. split.
  - apply in_seq. split; [lia|]. simpl. apply nth_error_Some. congruence.
  - rewrite Nat.sub_0_r, Eq. assumption.
Qed.

End Clusters.

(** ** Labels and attraction particles *)

Section LabelOpacity.

Import Js Controller Labels.

Lemma plain_label_opacity dist now s :
  isDecaying s = false ->
  0 <= labelOpacity dist now s <= 0.9 /\
  (15 <= dist <= 60 -> labelOpacity dist now s = 0.9) /\
  (dist <= 5 \/ 80 <= dist -> labelOpacity dist now s = 0).
Proof.
  intros Hd. unfold labelOpacity. cbv zeta. rewrite Hd.
  destruct (ltb dist 15) eqn:E1; [apply ltb_true in E1 | apply ltb_false in E1].
  - assert (H : 0 <= Rmax 0 ((dist - 5) / (15 - 5)) <= 1).
    { split; [apply Rmax_l|]. apply Rmax_lub; lra. }
    split; [lra|]. split; [lra|].
    intros [H5 | H80]; [|lra].
    rewrite Rmax_left by lra. lra.
  - destruct (ltb 60 dist) eqn:E2;
      [apply ltb_true in E2 | apply ltb_false in E2].
    + assert (H : 0 <= Rmax 0 (1 - (dist - 60) / 20) <= 1).
      { split; [apply Rmax_l|]. apply Rmax_lub; lra. }
      split; [lra|]. split; [lra|].
      intros [H5 | H80]; [lra|].
      rewrite Rmax_left by lra. lra.
    + split; [lra|]. split; [reflexivity|]. lra.
Qed.

(** X15. The opacity [updateWordLabels] gives a label lies between 0 and
    0.9, is 0.9 from 15 to 60 from the camera and 0 within 5 and beyond
    80.  While the context decays it is scaled down to no less than
    three tenths; the scale is measured from the start of the decay
    clock, not from the start of the decay, so a label has lost more than
    46 percent when the shape starts to dissolve, and has reached its
    floor when the shape's own decay is a third done. *)
Theorem labels_fade_ahead_of_the_shape (dist now : R) (s : state) :
  let plain := labelOpacity dist now (setIsDecaying false s) in
  let elapsed := now - decayStartTime s in
  0 <= plain <= 0.9 /\
  (15 <= dist <= 60 -> plain = 0.9) /\
  (dist <= 5 \/ 80 <= dist -> plain = 0) /\
  (isDecaying s = false -> labelOpacity dist now s = plain) /\
  (isDecaying s = true ->
     (0 <= elapsed -> 0.3 * plain <= labelOpacity dist now s <= plain) /\
     (CONTEXT_DECAY_START < elapsed ->
        labelOpacity dist now s <= 8 / 15 * plain) /\
     (CONTEXT_DECAY_DURATION <= elapsed ->
        labelOpacity dist now s = 0.3 * plain) /\
     (elapsed = CONTEXT_DECAY_DURATION -> decayProgress now s = 1 / 3)).
Proof.
  cbv zeta.
  destruct (plain_label_opacity dist now (setIsDecaying false s) eq_refl)
    as (A & B & C).
  split; [assumption|]. split; [assumption|]. split; [assumption|].
  set (plain := labelOpacity dist now (setIsDecaying false s)) in *.
  split.
  { intros Hd. unfold plain, labelOpacity. cbv zeta.
    cbn [isDecaying setIsDecaying]. rewrite Hd. reflexivity. }
  intros Hd.
  assert (E : labelOpacity dist now s =
              plain * (1 - Rmin 1 ((now - decayStartTime s) / 45000) * 0.7)).
  { unfold plain, labelOpacity, CONTEXT_DECAY_DURATION. cbv zeta.
    cbn [isDecaying setIsDecaying]. rewrite Hd. reflexivity. }
  rewrite E. unfold CONTEXT_DECAY_START, CONTEXT_DECAY_DURATION.
  set (e := now - decayStartTime s).
  split; [|split; [|split]].
  - intros H0.
    assert (0 <= Rmin 1 (e / 45000) <= 1).
    { split; [apply Rmin_glb; lra | apply Rmin_l]. }
    split; nra.
  - intros H30.
    assert (2 / 3 <= Rmin 1 (e / 45000)) by (apply Rmin_glb; lra).
    nra.
  - intros H45. rewrite Rmin_left by lra. lra.
  - intros H45. unfold decayProgress, CONTEXT_DECAY_START,
      CONTEXT_DECAY_DURATION. cbv zeta. fold e. rewrite H45.
    rewrite Rmin_right by lra. lra.
Qed.

End LabelOpacity.

Section AttractionParticles.

Import Js Particles VoidLayer.

Lemma distance_to_origin_scaled v k :
  0 <= k ->
  V3.distanceTo (V3.multiplyScalar v k) V3.zero = k * V3.distanceTo v V3.zero.
Proof.
  intros Hk. unfold V3.distanceTo, V3.distanceToSquared, V3.multiplyScalar,
    V3.zero. cbv zeta. cbn [V3.x V3.y V3.z].
  replace ((V3.x v * k - 0) * (V3.x v * k - 0) +
           (V3.y v * k - 0) * (V3.y v * k - 0) +
           (V3.z v * k - 0) * (V3.z v * k - 0))
    with (k * k * ((V3.x v - 0) * (V3.x v - 0) + (V3.y v - 0) * (V3.y v - 0) +
                   (V3.z v - 0) * (V3.z v - 0))) by ring.
  rewrite sqrt_mult; [|nra|nra].
  rewrite sqrt_square by assumption. reflexivity.
Qed.

Lemma distance_to_origin_zero v :
  V3.distanceTo v V3.zero = 0 <-> v = V3.zero.
Proof.
  unfold V3.distanceTo, V3.distanceToSquared, V3.zero.
  cbv zeta. cbn [V3.x V3.y V3.z]. split.
  - intros H. apply sqrt_eq_0 in H; [|nra].
    destruct v as [x y z]. cbn [V3.x V3.y V3.z] in H.
    f_equal; nra.
  - intros ->. cbn [V3.x V3.y V3.z].
    replace (_ + _) with 0 by ring. apply sqrt_0.
Qed.

(** X16. A visible attraction particle whose progress is between 0 and
    1 advances by 0.005 per frame and starts again at 0 once past 1.  It
    sits on the segment from its word to the origin, at the word's
    position times [1 - progress], and its opacity is 0.8 times
    [1 - progress]; for a word at the origin the opacity is a quotient by
    zero. *)
Theorem attraction_particle_drifts_to_the_void
  (ps : list particle) (a : attractor) (p : particle) :
  meshVisible a = true -> nth_error ps (parent a) = Some p ->
  0 <= progress a <= 1 ->
  let a' := drift ps a in
  let q := progress a' in
  0 <= q <= 1 /\
  (progress a + 0.005 <= 1 -> q = progress a + 0.005) /\
  (1 < progress a + 0.005 -> q = 0) /\
  meshPosition a' = V3.multiplyScalar (Particles.position p) (1 - q) /\
  (Particles.position p <> V3.zero -> meshOpacity a' = Ok (0.8 * (1 - q))) /\
  (Particles.position p = V3.zero -> meshOpacity a' = NotFinite).
Proof.
  intros Hv Hp Hq. cbv zeta. unfold drift. rewrite Hv, Hp. cbn [negb].
  cbv zeta. cbn [progress meshPosition meshOpacity].
  set (q := if ltb 1 (progress a + 0.005) then 0 else progress a + 0.005).
  assert (Hq' : 0 <= q <= 1 /\
                (progress a + 0.005 <= 1 -> q = progress a + 0.005) /\
                (1 < progress a + 0.005 -> q = 0)).
  { unfold q. destruct (ltb 1 (progress a + 0.005)) eqn:E;
      [apply ltb_true in E | apply ltb_false in E];
      repeat split; try lra. }
  destruct Hq' as (Hr & H1 & H2).
  assert (Hpos : lerpVectors (Particles.position p) V3.zero q =
                 V3.multiplyScalar (Particles.position p) (1 - q)).
  { unfold lerpVectors, V3.multiplyScalar, V3.zero. cbn [V3.x V3.y V3.z].
    f_equal; ring. }
  split; [assumption|]. split; [assumption|]. split; [assumption|].
  split; [assumption|].
  rewrite Hpos, distance_to_origin_scaled by lra.
  unfold div. split.
  - intros Hne.
    destruct (Req_dec_T (V3.distanceTo (Particles.position p) V3.zero) 0)
      as [E|E].
    + apply distance_to_origin_zero in E. contradiction.
    + cbn [bind]. f_equal. field. assumption.
  - intros He.
    destruct (Req_dec_T (V3.distanceTo (Particles.position p) V3.zero) 0)
      as [E|E]; [reflexivity|].
    exfalso. apply E. apply distance_to_origin_zero. assumption.
Qed.

Lemma attractorsOf_spec i p :
  List.length (attractorsOf i p) =
    (if negb ((if Req_dec_T (curvature p) 0 then true else false)
              || leb 3 (curvature p)) then 3 else 0)%nat /\
  Forall (fun a =>
            meshVisible a = false /\ progress a = 0 /\
            meshOpacity a = Ok 0.8 /\ parent a = i /\
            meshPosition a = Particles.position p /\
            curvature p <> 0 /\ curvature p < 3 /\
            (color a = Red <-> curvature p < 1) /\
            (color a = Yellow <-> 2 <= curvature p))
         (attractorsOf i p).
Proof.
  unfold attractorsOf.
  destruct (Req_dec_T (curvature p) 0) as [E0|E0]; cbn [orb negb];
    [split; [reflexivity|constructor]|].
  destruct (leb 3 (curvature p)) eqn:E3; cbn [negb];
    [split; [reflexivity|constructor]|].
  apply leb_false in E3.
  split; [reflexivity|].
  apply Forall_forall. intros a Ha. apply in_map_iff in Ha as (k & <- & _).
  cbn [meshVisible progress meshOpacity parent meshPosition color].
  split; [reflexivity|]. split; [reflexivity|]. split; [reflexivity|].
  split; [reflexivity|]. split; [reflexivity|]. split; [assumption|].
  split; [lra|].
  destruct (ltb (curvature p) 1) eqn:E1;
    [apply ltb_true in E1 | apply ltb_false in E1];
    destruct (ltb (curvature p) 2) eqn:E2;
    first [apply ltb_true in E2 | apply ltb_false in E2];
    (split; split; intros H; try discriminate; try lra; try reflexivity).
Qed.

(** X17. [createAttractionParticles] makes three particles for every
    word whose curvature is neither 0 nor 3 or more, and none for the
    others.  Each is created hidden at its word's position, with
    progress 0 and opacity 0.8, red exactly for a curvature below 1 and
    yellow exactly for one of 2 or more.  While they are hidden the
    frame update leaves them as they are; the toggle button shows them
    all, and pressed twice restores them. *)
Theorem attraction_particles_are_created_hidden (ps : list particle) :
  let created := createAttractionParticles ps in
  List.length created =
    (3 * List.length
           (filter (fun p =>
                      negb ((if Req_dec_T (curvature p) 0 then true else false)
                            || leb 3 (curvature p))) ps))%nat /\
  Forall (fun a =>
            meshVisible a = false /\ progress a = 0 /\
            meshOpacity a = Ok 0.8 /\
            exists p,
              nth_error ps (parent a) = Some p /\
              meshPosition a = Particles.position p /\
              curvature p <> 0 /\ curvature p < 3 /\
              (color a = Red <-> curvature p < 1) /\
              (color a = Yellow <-> 2 <= curvature p)) created /\
  animateAttractionParticles ps created = created /\
  Forall (fun a => meshVisible a = true) (toggleParticles created) /\
  toggleParticles (toggleParticles created) = created.
Proof.
  cbv zeta. unfold createAttractionParticles.
  assert (G : forall l i,
    List.length (attractorsFrom i l) =
      (3 * List.length
             (filter (fun p =>
                        negb ((if Req_dec_T (curvature p) 0 then true else false)
                              || leb 3 (curvature p))) l))%nat /\
    Forall (fun a =>
              meshVisible a = false /\ progress a = 0 /\
              meshOpacity a = Ok 0.8 /\
              exists p,
                nth_error l (parent a - i) = Some p /\ (i <= parent a)%nat /\
                meshPosition a = Particles.position p /\
                curvature p <> 0 /\ curvature p < 3 /\
                (color a = Red <-> curvature p < 1) /\
                (color a = Yellow <-> 2 <= curvature p)) (attractorsFrom i l)).
  { induction l as [|p tl IH]; intros i; simpl.
    - split; [reflexivity|constructor].
    - destruct (IH (S i)) as [L F].
      destruct (attractorsOf_spec i p) as [L0 F0].
      split.
      + rewrite length_app, L, L0.
        destruct (negb _); simpl; lia.
      + apply Forall_app. split.
        * eapply Forall_impl; [|exact F0]. cbv beta.
          intros a (A & B & C & D & E & F1 & F2 & F3 & F4).
          split; [assumption|]. split; [assumption|]. split; [assumption|].
          exists p. rewrite D, Nat.sub_diag. simpl.
          repeat split; (assumption || lia || apply F3 || apply F4 || idtac);
            try (apply F3); try (apply F4).
        * eapply Forall_impl; [|exact F]. cbv beta.
          intros a (A & B & C & q & D & E & F1).
          split; [assumption|]. split; [assumption|]. split; [assumption|].
          exists q. split.
          -- replace (parent a - i)%nat with (S (parent a - S i)) by lia.
             exact D.
          -- split; [lia|assumption]. }
  destruct (G ps 0%nat) as [L F].
  split; [assumption|].
  assert (F' : Forall (fun a => meshVisible a = false) (attractorsFrom 0 ps)).
  { eapply Forall_impl; [|exact F]. cbv beta. intros a (A & _). assumption. }
  split.
  { eapply Forall_impl; [|exact F]. cbv beta.
    intros a (A & B & C & q & D & E & F1).
    rewrite Nat.sub_0_r in D. repeat split; auto. exists q. auto. }
  split.
  { unfold animateAttractionParticles.
    rewrite <- (map_id (attractorsFrom 0 ps)) at 2.
    apply map_ext_in. intros a Ha. rewrite Forall_forall in F'.
    unfold drift. rewrite (F' a Ha). reflexivity. }
  split.
  { unfold toggleParticles. apply Forall_forall. intros a Ha.
    apply in_map_iff in Ha as (a0 & <- & Ha0). rewrite Forall_forall in F'.
    cbn [meshVisible]. rewrite (F' a0 Ha0). reflexivity. }
  unfold toggleParticles. rewrite map_map.
  rewrite <- (map_id (attractorsFrom 0 ps)) at 2.
  apply map_ext. intros [pos vis op col ph par pr]. cbn.
  rewrite negb_involutive. reflexivity.
Qed.

End AttractionParticles.

Section AttractionExample.

Import Js Inputs.

Lemma attraction_particle_drifts_to_the_void_witness :
  VoidLayer.progress (VoidLayer.drift placed half_way) = 0.5 + 0.005 /\
  VoidLayer.meshOpacity (VoidLayer.drift placed half_way)
    = Ok (0.8 * (1 - VoidLayer.progress (VoidLayer.drift placed half_way))).
Proof.
  destruct (attraction_particle_drifts_to_the_void placed half_way
              (Particles.mkParticle (V3.mk 1 2 3) V3.zero true None None 0.5 0
                 None false None 0))
    as (_ & A & _ & _ & B & _).
  - reflexivity.
  - reflexivity.
  - simpl. lra.
  - split.
    + apply A. simpl. lra.
    + apply B. simpl. intros H. injection H as H _ _. lra.
Defined.

End AttractionExample.

(** ** The frames of the void and observation phases *)

Section VoidPhase.

Import Js Controller Phases.

Lemma appearProgress_range t n i : 0 <= appearProgress t n i <= 1.
Proof.
  unfold appearProgress. cbv zeta. split; [apply Rmax_l|].
  apply Rmax_lub; [lra | apply Rmin_l].
Qed.

Lemma appearProgress_positive t n i :
  (0 < n)%nat ->
  (0 < appearProgress t n i <-> INR i / INR n * 0.5 < t).
Proof.
  intros Hn. unfold appearProgress. cbv zeta.
  set (stagger := INR i / INR n * 0.5). split.
  - intros H.
    destruct (Rlt_le_dec stagger t) as [|Hle]; auto.
    exfalso. rewrite Rmax_left in H; [lra|].
    eapply Rle_trans; [apply Rmin_r|]. 
    apply Rmult_le_reg_r with 0.5; [lra|].
    unfold Rdiv. rewrite Rmult_assoc, Rinv_l by lra. lra.
  - intros H.
    assert (0 < (t - stagger) / 0.5).
    { apply Rdiv_lt_0_compat; lra. }
    eapply Rlt_le_trans; [|apply Rmax_r].
    apply Rmin_glb_lt; lra.
Qed.

Lemma appearProgress_complete n i :
  (i < n)%nat -> appearProgress 1 n i = 1.
Proof.
  intros Hi. unfold appearProgress. cbv zeta.
  assert (Hn : 0 < INR n) by (apply lt_0_INR; lia).
  assert (Hin : INR i / INR n < 1).
  { apply Rmult_lt_reg_r with (INR n); [assumption|].
    unfold Rdiv. rewrite Rmult_assoc, Rinv_l by lra.
    rewrite Rmult_1_r, Rmult_1_l. apply lt_INR. assumption. }
  assert (H0 : 0 <= INR i / INR n).
  { apply Rmult_le_pos; [apply pos_INR|].
    apply Rlt_le, Rinv_0_lt_compat. assumption. }
  rewrite Rmin_left.
  - apply Rmax_right. lra.
  - apply Rmult_le_reg_r with 0.5; [lra|].
    unfold Rdiv at 1. rewrite Rmult_assoc, Rinv_l by lra. lra.
Qed.

(** X18. The last frame of the void phase, at normalized time 1, leaves
    every particle visible with opacity 0.8 and scale 1, and changes no
    position, velocity or target.  At any time the appearance progress
    of a particle is between 0 and 1, and a particle that has started to
    appear has all particles before it appearing. *)
Theorem void_phase_ends_with_every_particle_visible
  (random : nat -> R) (c : nat) (bodies : list body) :
  let last := voidFrame random 1 c bodies in
  Forall (fun b => visible b = true /\ opacity b = 0.8 /\ scale b = 1) last /\
  map position last = map position bodies /\
  map velocity last = map velocity bodies /\
  map targetPosition last = map targetPosition bodies /\
  (forall t n i, 0 <= appearProgress t n i <= 1) /\
  (forall t n i j, (i <= j < n)%nat ->
     0 < appearProgress t n j -> 0 < appearProgress t n i).
Proof.
  cbv zeta. unfold voidFrame.
  assert (G : forall l n i c0, (i + List.length l <= n)%nat ->
    Forall (fun b => visible b = true /\ opacity b = 0.8 /\ scale b = 1)
      (crystallizeFrom random 1 n i c0 l) /\
    map position (crystallizeFrom random 1 n i c0 l) = map position l /\
    map velocity (crystallizeFrom random 1 n i c0 l) = map velocity l /\
    map targetPosition (crystallizeFrom random 1 n i c0 l)
      = map targetPosition l).
  { induction l as [|b tl IH]; intros n i c0 Hlen; simpl.
    - repeat split; constructor.
    - simpl in Hlen.
      destruct (IH n (S i) (c0 + 3)%nat ltac:(lia)) as (A & B & C & D).
      unfold crystallize. cbv zeta.
      rewrite (appearProgress_complete n i) by lia.
      assert (Hl : ltb 0 1 = true) by (apply ltb_true; lra).
      rewrite Hl. cbn [visible opacity scale position velocity targetPosition].
      split; [constructor;
               [cbn [visible opacity scale]; repeat split; try reflexivity; lra
               | assumption]|].
      split; [f_equal; assumption|].
      split; [|f_equal; assumption].
      f_equal; [|assumption].
      destruct (velocity b) as [x y z]. cbn [V3.x V3.y V3.z]. f_equal; lra. }
  destruct (G bodies (List.length bodies) 0%nat c ltac:(lia)) as (A & B & C & D).
  split; [assumption|]. split; [assumption|]. split; [assumption|].
  split; [assumption|]. split; [apply appearProgress_range|].
  intros t n i j [Hij Hj] H.
  assert (Hn : (0 < n)%nat) by lia.
  apply appearProgress_positive in H; [|assumption].
  apply appearProgress_positive; [assumption|].
  eapply Rle_lt_trans; [|exact H].
  assert (0 < INR n) by (apply lt_0_INR; assumption).
  assert (INR i <= INR j) by (apply le_INR; assumption).
  apply Rmult_le_compat_r; [lra|].
  apply Rmult_le_compat_r; [|assumption].
  apply Rlt_le, Rinv_0_lt_compat. assumption.
Qed.

End VoidPhase.

Section ObservationPhase.

Import Js Controller Phases.

Lemma lerp_distance a b alpha :
  alpha <= 1 ->
  V3.distanceTo (V3.lerp a b alpha) b = (1 - alpha) * V3.distanceTo a b.
Proof.
  intros Ha. unfold V3.distanceTo, V3.distanceToSquared, V3.lerp.
  cbv zeta. cbn [V3.x V3.y V3.z].
  replace ((V3.x a + (V3.x b - V3.x a) * alpha - V3.x b) *
           (V3.x a + (V3.x b - V3.x a) * alpha - V3.x b) +
           (V3.y a + (V3.y b - V3.y a) * alpha - V3.y b) *
           (V3.y a + (V3.y b - V3.y a) * alpha - V3.y b) +
           (V3.z a + (V3.z b - V3.z a) * alpha - V3.z b) *
           (V3.z a + (V3.z b - V3.z a) * alpha - V3.z b))
    with ((1 - alpha) * (1 - alpha) *
          ((V3.x a - V3.x b) * (V3.x a - V3.x b) +
           (V3.y a - V3.y b) * (V3.y a - V3.y b) +
           (V3.z a - V3.z b) * (V3.z a - V3.z b))) by ring.
  rewrite sqrt_mult;
    [|apply Rle_0_sqr
     |apply (distanceToSquared_nonneg a b)].
  rewrite sqrt_square by lra. reflexivity.
Qed.

(** X19. A frame of the observation phase at normalized time t between
    0 and 1 sets every particle's opacity between 0.8 and 1, damps its
    velocity by 0.9 and moves a particle with a target towards it: the
    distance to the target shrinks by the factor [1 - 0.05 (1 - t)],
    and never grows.  A particle without target stays.  The emissive
    intensity of every connection lies between 0.4 and 1; base opacity
    and opacity are not touched. *)
Theorem observation_frame_closes_in
  (now t : R) (bodies : list body) (conns : list connection) :
  0 <= t <= 1 ->
  let after := observationFrame now t (bodies, conns) in
  List.length (fst after) = List.length bodies /\
  (forall i b, nth_error bodies i = Some b ->
     exists b',
       nth_error (fst after) i = Some b' /\
       0.8 <= opacity b' <= 1 /\
       velocity b' = V3.multiplyScalar (velocity b) 0.9 /\
       targetPosition b' = targetPosition b /\
       visible b' = visible b /\ scale b' = scale b /\
       (targetPosition b = None -> position b' = position b) /\
       (forall target, targetPosition b = Some target ->
          V3.distanceTo (position b') target =
            (1 - 0.05 * (1 - t)) * V3.distanceTo (position b) target /\
          V3.distanceTo (position b') target
            <= V3.distanceTo (position b) target)) /\
  Forall (fun conn => 0.4 <= emissiveIntensity conn <= 1) (snd after) /\
  map baseOpacity (snd after) = map baseOpacity conns /\
  map Controller.opacity (snd after) = map Controller.opacity conns.
Proof.
  intros Ht. cbv zeta. unfold observationFrame. cbn [fst snd].
  split; [apply length_map|]. split; [|split; [|split]].
  - intros i b Hb. exists (settle t b).
    split; [apply map_nth_error; assumption|].
    unfold settle. cbv zeta.
    cbn [opacity velocity targetPosition visible scale position].
    split; [lra|]. split; [reflexivity|]. split; [reflexivity|].
    split; [reflexivity|]. split; [reflexivity|]. split.
    + intros ->. reflexivity.
    + intros target ->. rewrite lerp_distance by lra.
      split; [reflexivity|].
      pose proof (distanceTo_nonneg (position b) target). nra.
  - apply Forall_forall. intros conn Hc.
    apply in_map_iff in Hc as (c0 & <- & _). unfold glow. cbv zeta.
    cbn [emissiveIntensity].
    pose proof (SIN_bound (now * 0.001 * 2 + pulsePhase c0)) as [S1 S2].
    lra.
  - rewrite map_map. reflexivity.
  - rewrite map_map. reflexivity.
Qed.

End ObservationPhase.

Section ObservationExample.

Import Js Inputs.

Lemma observation_frame_closes_in_witness :
  List.length (fst (Phases.observationFrame 9100 0.5 (approaching, [])))
    = 1%nat.
Proof.
  destruct (observation_frame_closes_in 9100 0.5 approaching [])
    as (A & _).
  - lra.
  - exact A.
Defined.

End ObservationExample.

(** ** The frames of the bonding phase *)

Section BondingPhase.

Import Js Controller Phases.

Variable random : nat -> R.
Variable cands : list Particles.potentialConnection.
Variable formed : list connection.

Lemma map_set_nth {A B : Type} (f : A -> B) (l : list A) : forall i a b,
  nth_error l i = Some a -> f b = f a -> map f (set_nth l i b) = map f l.
Proof.
  induction l as [|x tl IH]; intros [|i] a b Ha Hf; simpl in *;
    try discriminate.
  - injection Ha as ->. rewrite Hf. reflexivity.
  - f_equal. eapply IH; eauto.
Qed.

Lemma examine_spec positions b :
  (connectionIndex b < List.length (candidates b))%nat ->
  bondingInv cands formed b ->
  connectionIndex (examine random positions b) = S (connectionIndex b) /\
  connectionsPerFrame (examine random positions b) = connectionsPerFrame b /\
  List.length (candidates (examine random positions b))
    = List.length (candidates b) /\
  bondingInv cands formed (examine random positions b).
Proof.
  intros Hlt (Hmap & new & Hnew & Hlen & Hgood). unfold examine, bondingInv.
  destruct (nth_error (candidates b) (connectionIndex b)) as [conn|] eqn:Ec;
    [|apply nth_error_None in Ec; lia].
  assert (Hin : exists cand, In cand cands /\
                  Particles.p1 conn = Particles.p1 cand /\
                  Particles.p2 conn = Particles.p2 cand).
  { pose proof (map_nth_error
                  (fun c => (Particles.p1 c, Particles.p2 c)) _ _ Ec) as H.
    rewrite Hmap in H. apply nth_error_In, in_map_iff in H as (cand & E & Hc).
    exists cand. injection E as E1 E2. auto. }
  cbv zeta. destruct (Particles.formed conn).
  - cbn [connectionIndex connectionsPerFrame candidates formedSoFar].
    split; [reflexivity|]. split; [reflexivity|]. split; [reflexivity|].
    split; [assumption|]. exists new. split; [assumption|]. split; [lia|assumption].
  - destruct (ltb _ (Connectivity.CONNECTION_THRESHOLD * 1.2)) eqn:Ed.
    + apply ltb_true in Ed. unfold Connectivity.CONNECTION_THRESHOLD in Ed.
      cbn [connectionIndex connectionsPerFrame candidates formedSoFar].
      split; [reflexivity|]. split; [reflexivity|].
      split; [apply set_nth_length|].
      split.
      * rewrite <- Hmap. eapply map_set_nth; eauto.
      * eexists (new ++ [_]). rewrite Hnew, app_assoc.
        split; [reflexivity|]. split; [rewrite length_app; simpl; lia|].
        apply Forall_app. split; [assumption|].
        constructor; [|constructor].
        unfold grownFrom, createConnectionGradual,
          Connectivity.CONNECTION_THRESHOLD.
        cbn [baseOpacity end1 end2].
        match goal with |- context [V3.distanceTo ?a ?b] =>
          pose proof (distanceTo_nonneg a b) as Hd;
          set (d := V3.distanceTo a b) in *
        end.
        split; [lra|]. exact Hin.
    + cbn [connectionIndex connectionsPerFrame candidates formedSoFar].
      split; [reflexivity|]. split; [reflexivity|]. split; [reflexivity|].
      split; [assumption|]. exists new. split; [assumption|]. split; [lia|assumption].
Qed.

Lemma examineSome_spec positions : forall k b,
  (connectionIndex b <= List.length (candidates b))%nat ->
  bondingInv cands formed b ->
  let b' := examineSome random positions k b in
  connectionIndex b' =
    Nat.min (List.length (candidates b)) (connectionIndex b + k) /\
  connectionsPerFrame b' = connectionsPerFrame b /\
  List.length (candidates b') = List.length (candidates b) /\
  bondingInv cands formed b'.
Proof.
  induction k as [|k IH]; intros b Hle Hinv; cbv zeta; simpl.
  - split; [lia|]. auto.
  - destruct (connectionIndex b <? List.length (candidates b))%nat eqn:E.
    + apply Nat.ltb_lt in E.
      destruct (examine_spec positions b E Hinv) as (A & B & C & D).
      destruct (IH (examine random positions b) ltac:(lia) D)
        as (A' & B' & C' & D').
      cbv zeta in *. rewrite A', B', C', A, C. split; [lia|]. auto.
    + apply Nat.ltb_ge in E. split; [lia|]. auto.
Qed.

Lemma formConnections_spec positions b :
  (connectionIndex b <= List.length (candidates b))%nat ->
  bondingInv cands formed b ->
  let b' := formConnections random positions b in
  connectionIndex b' =
    Nat.min (List.length (candidates b))
            (connectionIndex b + connectionsPerFrame b) /\
  connectionsPerFrame b' = connectionsPerFrame b /\
  List.length (candidates b') = List.length (candidates b) /\
  bondingInv cands formed b'.
Proof.
  intros Hle Hinv. cbv zeta. unfold formConnections.
  destruct (connectionIndex b <? List.length (candidates b))%nat eqn:E.
  - apply examineSome_spec; assumption.
  - apply Nat.ltb_ge in E. split; [lia|]. auto.
Qed.

Lemma bondingFrames_spec : forall frames b,
  (connectionIndex b <= List.length (candidates b))%nat ->
  bondingInv cands formed b ->
  let b' := bondingFrames random frames b in
  connectionIndex b' =
    Nat.min (List.length (candidates b))
            (connectionIndex b + List.length frames * connectionsPerFrame b) /\
  List.length (candidates b') = List.length (candidates b) /\
  bondingInv cands formed b'.
Proof.
  induction frames as [|positions tl IH]; intros b Hle Hinv; cbv zeta; simpl.
  - split; [lia|]. auto.
  - destruct (formConnections_spec positions b Hle Hinv) as (A & B & C & D).
    cbv zeta in *.
    destruct (IH (formConnections random positions b) ltac:(lia) D)
      as (A' & C' & D').
    cbv zeta in *. rewrite A', B, C', A, C. split; [lia|]. auto.
Qed.

(** X20. The bonding phase examines its candidates in order, none
    twice: after k frames the index stands at the smaller of the number
    of candidates and k times [connectionsPerFrame], which is at least
    1, and after 119 frames every candidate has been examined.  The
    candidates keep their endpoints.  The connections are only added to:
    at most one per candidate examined, each joining the endpoints of a
    candidate, with a base opacity above -0.12 and at most 0.6. *)
Theorem bonding_examines_every_candidate_once
  (c : nat) (frames : list (list V3.t)) :
  let start := startBonding cands formed c in
  let b := bondingFrames random frames start in
  connectionsPerFrame start = Nat.max 1 (List.length cands / 60) /\
  connectionIndex b =
    Nat.min (List.length cands)
            (List.length frames * connectionsPerFrame start) /\
  ((119 <= List.length frames)%nat -> connectionIndex b = List.length cands) /\
  map (fun c => (Particles.p1 c, Particles.p2 c)) (candidates b) =
    map (fun c => (Particles.p1 c, Particles.p2 c)) cands /\
  exists new,
    formedSoFar b = formed ++ new /\
    (List.length new <= connectionIndex b)%nat /\
    Forall (grownFrom cands) new.
Proof.
  cbv zeta.
  destruct (bondingFrames_spec frames (startBonding cands formed c))
    as (A & B & C & D).
  { simpl. lia. }
  { split; [reflexivity|]. exists []. rewrite app_nil_r.
    split; [reflexivity|]. split; [simpl; lia|constructor]. }
  cbv zeta in A. cbn [startBonding candidates connectionIndex
    connectionsPerFrame] in *.
  split; [reflexivity|]. split; [exact A|]. split.
  - intros H119. rewrite A. apply Nat.min_l.
    set (len := List.length cands).
    set (q := (len / 60)%nat).
    pose proof (Nat.div_mod_eq len 60) as Hdm. fold q in Hdm.
    pose proof (Nat.mod_upper_bound len 60 ltac:(lia)) as Hm.
    destruct (Nat.max_spec 1 q) as [[Hlt ->] | [Hge ->]]; nia.
  - split; [exact C|exact D].
Qed.

End BondingPhase.
